(** * Trie-Word-Suggester: a shallow embedding of [main.c]

    The development follows the C source function by function.  C strings
    are lists of characters (the terminating NUL is left implicit), [int]
    values are integers in [Z] with the 32-bit wrap-around written out, the
    fixed-size arrays of the program are lists read and written by index,
    and the letter tree is an inductive type whose nodes own their 26
    children. *)

From Stdlib Require Import ZArith Ascii String Sorting.Sorted Sorting.Permutation.
From stdpp Require Import base tactics option list numbers sorting gmap.

Open Scope Z_scope.

(** ** Constants of the program *)

Definition ALPHABET_SIZE : Z := 26.
Definition MAX_WORD_LENGTH : Z := 100.
Definition MAX_SUGGESTIONS : Z := 10.
Definition MAX_WORDS : Z := 1000.
Definition MAX_LEVENSHTEIN_DISTANCE : Z := 2.

(** [INT_MAX] is used by the program without its header; it is the
    largest value of a 32-bit [int]. *)
Definition INT_MAX : Z := 2147483647.

(** The value an [int] holds after an arithmetic result [z]: two's
    complement wrap-around on 32 bits. *)
Definition wrap (z : Z) : Z := (z + 2147483648) mod 4294967296 - 2147483648.

(** ** Characters and strings *)

(** A C string: its characters up to the terminating NUL. *)
Abbreviation cstring := (list ascii) (only parsing).

(** Reads a literal as a C string. *)
Definition cstr (s : string) : list ascii := list_ascii_of_string s.

(** The code of a character, as [(unsigned char)c] gives it. *)
Definition code (c : ascii) : Z := Z.of_nat (nat_of_ascii c).

(** [isupper], [islower], [isalpha] and [tolower] of the C locale. *)
Definition isupper (c : ascii) : bool := (65 <=? code c) && (code c <=? 90).
Definition islower (c : ascii) : bool := (97 <=? code c) && (code c <=? 122).
Definition isalpha (c : ascii) : bool := isupper c || islower c.
Definition tolower (c : ascii) : ascii :=
  if isupper c then ascii_of_nat (nat_of_ascii c + 32) else c.

(** [toLowerCase]: every character replaced by its lower-case form. *)
Definition toLowerCase (str : list ascii) : list ascii := map tolower str.

(** [strtolower]: a lower-case copy of the string. *)
Definition strtolower (str : list ascii) : list ascii := toLowerCase str.

(** [isValidWord]: the string holds letters only. *)
Fixpoint isValidWord (str : list ascii) : bool :=
  match str with
  | [] => true
  | c :: rest => if negb (isalpha c) then false else isValidWord rest
  end.

(** ** Levenshtein distance ([levenshteinDistance]) *)

(** [for (int j = 0; j <= lenT; ++j) prev[j] = j;] run for [n] more
    iterations from index [j]. *)
Fixpoint init_row (prev : list Z) (j n : nat) : list Z :=
  match n with
  | O => prev
  | S n' => init_row (<[j := Z.of_nat j]> prev) (S j) n'
  end.

(** The body of the inner loop: the value stored in [curr[j]]. *)
Definition cell (s t : list ascii) (prev curr : list Z) (i j : nat) : Z :=
  let cost := if decide (s !! (i - 1)%nat = t !! (j - 1)%nat) then 0 else 1 in
  let up := wrap (prev !!! j + 1) in
  let left := wrap (curr !!! (j - 1)%nat + 1) in
  let diag := wrap (prev !!! (j - 1)%nat + cost) in
  if up <? left
  then (if up <? diag then up else diag)
  else (if left <? diag then left else diag).

(** [for (int j = 1; j <= lenT; ++j) curr[j] = ...;] run for [n] more
    iterations from index [j]. *)
Fixpoint inner_loop (s t : list ascii) (prev curr : list Z) (i j n : nat)
    : list Z :=
  match n with
  | O => curr
  | S n' =>
      inner_loop s t prev (<[j := cell s t prev curr i j]> curr) i (S j) n'
  end.

(** [for (int i = 1; i <= lenS; ++i) { ...; swap }] run for [n] more
    iterations from index [i]; the result is the pair of rows the
    pointers [prev] and [curr] designate when the loop ends. *)
Fixpoint outer_loop (s t : list ascii) (prev curr : list Z) (i n : nat)
    : list Z * list Z :=
  match n with
  | O => (prev, curr)
  | S n' =>
      let curr0 := <[0%nat := Z.of_nat i]> curr in
      let curr1 := inner_loop s t prev curr0 i 1 (length t) in
      outer_loop s t curr1 prev (S i) n'
  end.

(** [levenshteinDistance s t], given what the two calls of [malloc]
    returned: [None] for a null pointer, otherwise a block of [lenT + 1]
    cells with whatever contents it had. *)
Definition levenshteinDistance (malloc_prev malloc_curr : option (list Z))
    (s t : list ascii) : Z :=
  match malloc_prev, malloc_curr with
  | Some prev, Some curr =>
      let lenS := length s in
      let lenT := length t in
      let prev := init_row prev 0 (S lenT) in
      let '(prev, _) := outer_loop s t prev curr 1 lenS in
      prev !!! lenT
  | _, _ => INT_MAX
  end.

(** ** The letter tree *)

(** A node of the tree.  [W] is what a [char*] field holds: in this part
    of the development the string itself, in the memory model further
    down the address of the node's own copy. *)
#[warnings="-register-all"]
Inductive TrieNode (W : Type) : Type := mkTrieNode {
  children : list (option (TrieNode W));
  isEndOfWord : bool;
  originalWord : option W;
  frequency : Z }.
Arguments mkTrieNode {W} _ _ _ _.
Arguments children {W} _.
Arguments isEndOfWord {W} _.
Arguments originalWord {W} _.
Arguments frequency {W} _.

(** [createTrieNode]: 26 null children, no word. *)
Definition createTrieNode {W} : TrieNode W :=
  mkTrieNode (replicate (Z.to_nat ALPHABET_SIZE) None) false None 0.

(** [c - 'a'], the index of a child. *)
Definition child_index (c : ascii) : Z := code c - 97.

(** Whether an index designates a cell of the [children] array. *)
Definition in_children (index : Z) : bool :=
  (0 <=? index) && (index <? ALPHABET_SIZE).

(** The end of [insertWord], at the node the word leads to. *)
Definition mark_end {W} (current : TrieNode W) (word : W) (freq : Z)
    : TrieNode W :=
  match originalWord current with
  | Some old =>
      if frequency current <? freq
      then mkTrieNode (children current) true (Some word) freq
      else mkTrieNode (children current) true (Some old) (frequency current)
  | None => mkTrieNode (children current) true (Some word) freq
  end.

(** The loop of [insertWord] over the lower-case copy, from the node
    [current]; the result is [current] with the path below it updated.
    [None] stands for an access outside the [children] array, which C
    leaves undefined. *)
Fixpoint insert_path (current : TrieNode cstring) (lowerWord : list ascii)
    (word : cstring) (freq : Z) : option (TrieNode cstring) :=
  match lowerWord with
  | [] => Some (mark_end current word freq)
  | c :: rest =>
      let index := child_index c in
      if in_children index then
        match children current !! Z.to_nat index with
        | Some slot =>
            let child := match slot with
                         | Some child => child
                         | None => createTrieNode
                         end in
            child' ← insert_path child rest word freq;
            Some (mkTrieNode (<[Z.to_nat index := Some child']> (children current))
                    (isEndOfWord current) (originalWord current)
                    (frequency current))
        | None => None
        end
      else None
  end.

(** [insertWord root word frequency]; an empty word returns at once. *)
Definition insertWord (root : TrieNode cstring) (word : cstring)
    (freq : Z) : option (TrieNode cstring) :=
  match word with
  | [] => Some root
  | _ => insert_path root (strtolower word) word freq
  end.

(** ** The suggestion list *)

Record Suggestion (W : Type) : Type := mkSuggestion {
  sug_word : option W;
  sug_distance : Z;
  sug_frequency : Z }.
Arguments mkSuggestion {W} _ _ _.
Arguments sug_word {W} _.
Arguments sug_distance {W} _.
Arguments sug_frequency {W} _.

Record SuggestionList (W : Type) : Type := mkSuggestionList {
  suggestions : list (Suggestion W);
  count : nat }.
Arguments mkSuggestionList {W} _ _.
Arguments suggestions {W} _.
Arguments count {W} _.

(** The entry [initSuggestionList] writes in every cell. *)
Definition blank {W} : Suggestion W := mkSuggestion None INT_MAX 0.

Global Instance Suggestion_inhabited {W} : Inhabited (Suggestion W) :=
  populate blank.

(** [initSuggestionList]. *)
Definition initSuggestionList {W} : SuggestionList W :=
  mkSuggestionList (replicate (Z.to_nat MAX_SUGGESTIONS) blank) 0.

(** The test of the scan in [addSuggestion]: entry [a] is worse than the
    worst entry [b] seen so far. *)
Definition worse_entry {W} (a b : Suggestion W) : bool :=
  (sug_distance b <? sug_distance a)
  || ((sug_distance a =? sug_distance b)
      && (sug_frequency a <? sug_frequency b)).

(** [for (int i = 1; i < MAX_SUGGESTIONS; ++i) ...] run for [n] more
    iterations from index [i]. *)
Fixpoint find_worst {W} (sugs : list (Suggestion W)) (worst_idx i n : nat)
    : nat :=
  match n with
  | O => worst_idx
  | S n' =>
      let worst_idx :=
        if worse_entry (sugs !!! i) (sugs !!! worst_idx) then i
        else worst_idx in
      find_worst sugs worst_idx (S i) n'
  end.

(** The test that decides the replacement in [addSuggestion]. *)
Definition better_than {W} (dist freq : Z) (worst : Suggestion W) : bool :=
  (dist <? sug_distance worst)
  || ((dist =? sug_distance worst) && (sug_frequency worst <? freq)).

(** [addSuggestion]. *)
Definition addSuggestion (list : SuggestionList cstring) (word : cstring)
    (dist freq : Z) : SuggestionList cstring :=
  if Z.of_nat (count list) <? MAX_SUGGESTIONS then
    mkSuggestionList
      (<[count list := mkSuggestion (Some word) dist freq]> (suggestions list))
      (S (count list))
  else
    let worst_idx :=
      find_worst (suggestions list) 0 1 (Z.to_nat MAX_SUGGESTIONS - 1) in
    if better_than dist freq (suggestions list !!! worst_idx) then
      mkSuggestionList
        (<[worst_idx := mkSuggestion (Some word) dist freq]> (suggestions list))
        (count list)
    else list.

(** [compareSuggestions], the comparison handed to [qsort]. *)
Definition compareSuggestions {W} (sa sb : Suggestion W) : Z :=
  if negb (sug_distance sa =? sug_distance sb)
  then wrap (sug_distance sa - sug_distance sb)
  else wrap (sug_frequency sb - sug_frequency sa).

(** [qsort(base, n, size, compar)] on an array whose first [n] cells are
    sorted by the library function [sort]. *)
Definition qsort_prefix {A} (sort : list A → list A) (base : list A)
    (n : nat) : list A :=
  sort (take n base) ++ drop n base.

(** ** Prefix search *)

(** [collectSuggestions]: the node itself, then its children in letter
    order. *)
Fixpoint collectSuggestions (node : TrieNode cstring)
    (sl : SuggestionList cstring) : SuggestionList cstring :=
  let sl :=
    if isEndOfWord node then
      match originalWord node with
      | Some w => addSuggestion sl w 0 (frequency node)
      | None => sl
      end
    else sl in
  fold_left
    (fun sl slot =>
       match slot with
       | Some child => collectSuggestions child sl
       | None => sl
       end)
    (children node) sl.

(** The walk of [searchWordsByPrefix] (and of [main]) down the lower-case
    prefix: [Some (Some node)] is the node reached, [Some None] a missing
    child, [None] an access outside the [children] array. *)
Fixpoint find_node {W} (current : TrieNode W) (lowerPrefix : list ascii)
    : option (option (TrieNode W)) :=
  match lowerPrefix with
  | [] => Some (Some current)
  | c :: rest =>
      let index := child_index c in
      if in_children index then
        match children current !! Z.to_nat index with
        | Some (Some child) => find_node child rest
        | Some None => Some None
        | None => None
        end
      else None
  end.

(** What [searchWordsByPrefix] prints: either the line "No suggestions
    found", or the numbered entries (word and frequency of each). *)
Inductive PrefixOutput (W : Type) : Type :=
  | NoSuggestionsFound
  | SuggestionsFor (entries : list (Suggestion W)).
Arguments NoSuggestionsFound {W}.
Arguments SuggestionsFor {W} _.

(** The entries the printing loop
    [for (i = 0; i < count && i < MAX_SUGGESTIONS; ++i)] goes through. *)
Definition printed {W} (sl : list (Suggestion W)) (n : nat)
    : list (Suggestion W) :=
  take (n `min` Z.to_nat MAX_SUGGESTIONS) sl.

(** [searchWordsByPrefix]; [qsort] is the library function. *)
Definition searchWordsByPrefix
    (qsort : ∀ A : Type, (A → A → Z) → list A → list A)
    (root : TrieNode cstring) (prefix : cstring)
    : option (PrefixOutput cstring) :=
  reached ← find_node root (strtolower prefix);
  match reached with
  | None => Some NoSuggestionsFound
  | Some current =>
      let sl := collectSuggestions current initSuggestionList in
      let sorted :=
        qsort_prefix (qsort _ compareSuggestions) (suggestions sl) (count sl) in
      if (count sl =? 0)%nat then Some NoSuggestionsFound
      else Some (SuggestionsFor (printed sorted (count sl)))
  end.

(** ** Spelling correction *)

(** The [Dictionary]: the cells [words[0 .. count)], [count] being the
    length of the list. *)
Definition Dictionary (W : Type) : Type := list W.

(** [collectAllWords]. *)
Fixpoint collectAllWords (node : TrieNode cstring) (dict : Dictionary cstring)
    : Dictionary cstring :=
  let dict :=
    match originalWord node with
    | Some w =>
        if isEndOfWord node && (Z.of_nat (length dict) <? MAX_WORDS)
        then dict ++ [w] else dict
    | None => dict
    end in
  fold_left
    (fun dict slot =>
       match slot with
       | Some child => collectAllWords child dict
       | None => dict
       end)
    (children node) dict.

(** What the two calls of [malloc] return in each call of
    [levenshteinDistance], by the index of the dictionary word. *)
Definition Rows : Type := nat → option (list Z) * option (list Z).

(** The loop of [suggestSimilarWords] over [dict->words[i ..]]. *)
Fixpoint spell_loop (rows : Rows) (lowerInput : list ascii)
    (words : list cstring) (i : nat) (sl : SuggestionList cstring)
    : SuggestionList cstring :=
  match words with
  | [] => sl
  | w :: rest =>
      let lowerDictWord := strtolower w in
      let dist :=
        levenshteinDistance (rows i).1 (rows i).2 lowerInput lowerDictWord in
      let sl :=
        if dist <=? MAX_LEVENSHTEIN_DISTANCE then addSuggestion sl w dist 0
        else sl in
      spell_loop rows lowerInput rest (S i) sl
  end.

(** What [suggestSimilarWords] prints: nothing at all (empty
    dictionary), "No similar words found", or the numbered entries (word
    and distance of each). *)
Inductive SpellOutput (W : Type) : Type :=
  | NothingPrinted
  | NoSimilarWords
  | DidYouMean (entries : list (Suggestion W)).
Arguments NothingPrinted {W}.
Arguments NoSimilarWords {W}.
Arguments DidYouMean {W} _.

(** [suggestSimilarWords]. *)
Definition suggestSimilarWords
    (qsort : ∀ A : Type, (A → A → Z) → list A → list A) (rows : Rows)
    (input : cstring) (dict : Dictionary cstring) : SpellOutput cstring :=
  match dict with
  | [] => NothingPrinted
  | _ =>
      let lowerInput := strtolower input in
      let sl := spell_loop rows lowerInput dict 0 initSuggestionList in
      let sorted :=
        qsort_prefix (qsort _ compareSuggestions) (suggestions sl) (count sl) in
      if (0 <? count sl)%nat then DidYouMean (printed sorted (count sl))
      else NoSimilarWords
  end.

(** The suggestions a run of [suggestSimilarWords] shows. *)
Definition corrections {W} (out : SpellOutput W) : list (Suggestion W) :=
  match out with
  | DidYouMean entries => entries
  | _ => []
  end.

(** ** The menu of [main] *)

(** The words [main] reads and inserts, one [insertWord] per accepted
    line. *)
Fixpoint insertAll (root : TrieNode cstring) (entries : list (cstring * Z))
    : option (TrieNode cstring) :=
  match entries with
  | [] => Some root
  | (word, freq) :: rest =>
      root' ← insertWord root word freq;
      insertAll root' rest
  end.

(** What option 1 of the menu does with a prefix. *)
Inductive SearchOutcome (W : Type) : Type :=
  | InvalidPrefix
  | PrefixSearch (out : PrefixOutput W)
  | SpellCorrection (out : SpellOutput W).
Arguments InvalidPrefix {W}.
Arguments PrefixSearch {W} _.
Arguments SpellCorrection {W} _.

(** Case 1 of the menu, for the string [scanf("%s", prefix)] delivers.
    The buffer [prefix] has room for [MAX_WORD_LENGTH - 1] characters; a
    longer string overruns it ([None]).  Then [main] walks the tree
    itself, and calls [searchWordsByPrefix] when the walk succeeds and
    [suggestSimilarWords] on the dictionary collected at start-up when
    it does not. *)
Definition search_by_prefix
    (qsort : ∀ A : Type, (A → A → Z) → list A → list A) (rows : Rows)
    (root : TrieNode cstring) (dict : Dictionary cstring) (prefix : cstring)
    : option (SearchOutcome cstring) :=
  if MAX_WORD_LENGTH <=? Z.of_nat (length prefix) then None
  else if negb (isValidWord prefix) then Some InvalidPrefix
  else
    reached ← find_node root (strtolower prefix);
    match reached with
    | Some _ => PrefixSearch <$> searchWordsByPrefix qsort root prefix
    | None => Some (SpellCorrection (suggestSimilarWords qsort rows prefix dict))
    end.

(** ** An instance of the library sort *)

(** [qsort] is only known by its contract.  To run the model, straight
    insertion is used as one function that meets it. *)
Fixpoint insert_sorted {A} (cmp : A → A → Z) (x : A) (l : list A) : list A :=
  match l with
  | [] => [x]
  | y :: l' => if cmp x y <=? 0 then x :: l else y :: insert_sorted cmp x l'
  end.

Fixpoint isort (A : Type) (cmp : A → A → Z) (l : list A) : list A :=
  match l with
  | [] => []
  | x :: l' => insert_sorted cmp x (isort A cmp l')
  end.

(** The contract of [qsort]: the array is rearranged, and comes out in
    ascending order whenever the comparison is consistent on its
    elements, that is, orders them totally. *)
Definition consistent_on {A} (cmp : A → A → Z) (l : list A) : Prop :=
  (∀ x y, x ∈ l → y ∈ l →
     (cmp x y < 0 → 0 < cmp y x) ∧ (cmp x y = 0 → cmp y x = 0)
     ∧ (0 < cmp x y → cmp y x < 0))
  ∧ (∀ x y z, x ∈ l → y ∈ l → z ∈ l →
       cmp x y <= 0 → cmp y z <= 0 → cmp x z <= 0).

Definition ascending {A} (cmp : A → A → Z) (l : list A) : Prop :=
  StronglySorted (fun x y => cmp x y <= 0) l.

Definition qsort_contract
    (qsort : ∀ A : Type, (A → A → Z) → list A → list A) : Prop :=
  ∀ (A : Type) (cmp : A → A → Z) (l : list A),
    qsort A cmp l ≡ₚ l ∧ (consistent_on cmp l → ascending cmp (qsort A cmp l)).

(** ** The words [main] reads *)

(** The smallest value of an [int]. *)
Definition INT_MIN : Z := - INT_MAX - 1.

(** [isdigit] and [isspace] of the C locale. *)
Definition isdigit (c : ascii) : bool := (48 <=? code c) && (code c <=? 57).
Definition isspace (c : ascii) : bool :=
  (code c =? 32) || ((9 <=? code c) && (code c <=? 13)).

(** [strchr(input, ':')] followed by [*colon = '\0']: the string up to
    the first colon, and what follows that colon when there is one. *)
Fixpoint split_colon (input : list ascii) : list ascii * option (list ascii) :=
  match input with
  | [] => ([], None)
  | c :: rest =>
      if code c =? 58 then ([], Some rest)
      else let '(word, after) := split_colon rest in (c :: word, after)
  end.

(** The white space [atoi] skips. *)
Fixpoint skip_spaces (s : list ascii) : list ascii :=
  match s with
  | [] => []
  | c :: rest => if isspace c then skip_spaces rest else s
  end.

(** The digits [atoi] reads, the most significant first, up to the
    first character that is not a digit. *)
Fixpoint atoi_digits (acc : Z) (s : list ascii) : Z :=
  match s with
  | [] => acc
  | c :: rest =>
      if isdigit c then atoi_digits (10 * acc + (code c - 48)) rest else acc
  end.

(** [atoi] of the C library: white space, an optional sign, digits.
    [None] stands for a value that does not fit an [int], for which C
    leaves the result undefined. *)
Definition atoi (nptr : list ascii) : option Z :=
  let s := skip_spaces nptr in
  let '(negative, digits) :=
    match s with
    | c :: rest =>
        if code c =? 45 then (true, rest)
        else if code c =? 43 then (false, rest)
        else (false, s)
    | [] => (false, s)
    end in
  let value := atoi_digits 0 digits in
  let value := if negative then - value else value in
  if (INT_MIN <=? value) && (value <=? INT_MAX) then Some value else None.

(** The body of the loop of [main] that reads the words, once
    [scanf("%s", input)] has delivered [input]: the frequency suffix is
    cut off and converted, then the word is checked.  [Some None] is the
    answer "Invalid word. Try again.", [Some (Some (word, frequency))]
    the arguments handed to [insertWord]. *)
Definition read_entry (input : list ascii) : option (option (cstring * Z)) :=
  let '(word, after) := split_colon input in
  frequency ← match after with
              | Some digits => atoi digits
              | None => Some 0
              end;
  if (MAX_WORD_LENGTH <=? Z.of_nat (length word)) || negb (isValidWord word)
  then Some None
  else Some (Some (word, frequency)).

(** The loop [for (int i = 0; i < n; ) ...] of [main] over the strings
    [scanf("%s", input)] delivers one after the other.  The buffer
    [input] has room for [2 * MAX_WORD_LENGTH - 1] characters; a longer
    string overruns it ([None]).  When the input ends before [n] words
    are accepted, [scanf] fails from then on and the loop never ends
    ([Some None]); otherwise the result is the tree and the strings not
    read yet. *)
Fixpoint read_words (root : TrieNode cstring) (i n : nat)
    (tokens : list (list ascii)) {struct tokens}
    : option (option (TrieNode cstring * list (list ascii))) :=
  if (n <=? i)%nat then Some (Some (root, tokens))
  else
    match tokens with
    | [] => Some None
    | input :: rest =>
        if 2 * MAX_WORD_LENGTH <=? Z.of_nat (length input) then None
        else
          entry ← read_entry input;
          match entry with
          | None => read_words root i n rest
          | Some (word, frequency) =>
              root' ← insertWord root word frequency;
              read_words root' (S i) n rest
          end
    end.

(** * The program over an explicit memory of strings

    The definitions above identify a [char*] with the string it points
    to.  This part keeps the pointers: a heap maps the address of every
    block obtained from [strdup] and not yet freed to the string it
    holds, nodes and suggestions hold addresses, and each function
    threads the heap through its calls of [strdup], [free] and
    [toLowerCase].  Reading or freeing a block that is not allocated is
    undefined; it is [None] here. *)

Module Mem.

(** The blocks of the heap, by address. *)
Abbreviation heap := (gmap Z (list ascii)).

(** A computation on the heap that may be undefined. *)
Definition M (A : Type) : Type := heap → option (A * heap).

Global Instance M_ret : MRet M := λ A a h, Some (a, h).

Global Instance M_bind : MBind M :=
  λ A B k m h, match m h with
               | Some (a, h') => k a h'
               | None => None
               end.

Definition ret {A} (a : A) : M A := mret a.

Definition undefined {A} : M A := λ _, None.

(** The string at an address. *)
Definition read (p : Z) : M (list ascii) :=
  λ h, match h !! p with
       | Some s => Some (s, h)
       | None => None
       end.

(** [strdup] of a string the caller holds: a fresh block, at the
    address the allocator [malloc] picks for the current heap. *)
Definition strdup (malloc : heap → Z) (s : list ascii) : M Z :=
  λ h, Some (malloc h, <[malloc h := s]> h).

(** [free]; freeing a null pointer does nothing. *)
Definition free (p : option Z) : M unit :=
  match p with
  | None => ret tt
  | Some p =>
      λ h, match h !! p with
           | Some _ => Some (tt, delete p h)
           | None => None
           end
  end.

(** [toLowerCase]: the block is rewritten in place. *)
Definition toLowerCase (p : Z) : M unit :=
  λ h, match h !! p with
       | Some s => Some (tt, <[p := map tolower s]> h)
       | None => None
       end.

(** [strtolower]: a copy, then lower-cased in place. *)
Definition strtolower (malloc : heap → Z) (str : list ascii) : M Z :=
  lower ← strdup malloc str;
  toLowerCase lower;;
  ret lower.

(** The end of [insertWord]: the old word is freed and a copy of the
    new one takes its place. *)
Definition mark_end (malloc : heap → Z) (current : TrieNode Z)
    (word : list ascii) (freq : Z) : M (TrieNode Z) :=
  let replace :=
    match originalWord current with
    | None => true
    | Some _ => frequency current <? freq
    end in
  if replace then
    free (originalWord current);;
    copy ← strdup malloc word;
    ret (mkTrieNode (children current) true (Some copy) freq)
  else
    ret (mkTrieNode (children current) true (originalWord current)
           (frequency current)).

(** The loop of [insertWord]. *)
Fixpoint insert_path (malloc : heap → Z) (current : TrieNode Z)
    (lowerWord : list ascii) (word : list ascii) (freq : Z)
    : M (TrieNode Z) :=
  match lowerWord with
  | [] => mark_end malloc current word freq
  | c :: rest =>
      let index := child_index c in
      if in_children index then
        match children current !! Z.to_nat index with
        | Some slot =>
            let child := match slot with
                         | Some child => child
                         | None => createTrieNode
                         end in
            child' ← insert_path malloc child rest word freq;
            ret (mkTrieNode
                   (<[Z.to_nat index := Some child']> (children current))
                   (isEndOfWord current) (originalWord current)
                   (frequency current))
        | None => undefined
        end
      else undefined
  end.

(** [insertWord]. *)
Definition insertWord (malloc : heap → Z) (root : TrieNode Z)
    (word : list ascii) (freq : Z) : M (TrieNode Z) :=
  match word with
  | [] => ret root
  | _ =>
      lowerWord ← strtolower malloc word;
      lower ← read lowerWord;
      root' ← insert_path malloc root lower word freq;
      free (Some lowerWord);;
      ret root'
  end.

Fixpoint insertAll (malloc : heap → Z) (root : TrieNode Z)
    (entries : list (list ascii * Z)) : M (TrieNode Z) :=
  match entries with
  | [] => ret root
  | (word, freq) :: rest =>
      root' ← insertWord malloc root word freq;
      insertAll malloc root' rest
  end.

(** [addSuggestion]: the list stores a copy of the word. *)
Definition addSuggestion (malloc : heap → Z) (list : SuggestionList Z)
    (word : Z) (dist freq : Z) : M (SuggestionList Z) :=
  if Z.of_nat (count list) <? MAX_SUGGESTIONS then
    s ← read word;
    copy ← strdup malloc s;
    ret (mkSuggestionList
           (<[count list := mkSuggestion (Some copy) dist freq]>
              (suggestions list))
           (S (count list)))
  else
    let worst_idx :=
      find_worst (suggestions list) 0 1 (Z.to_nat MAX_SUGGESTIONS - 1) in
    if better_than dist freq (suggestions list !!! worst_idx) then
      free (sug_word (suggestions list !!! worst_idx));;
      s ← read word;
      copy ← strdup malloc s;
      ret (mkSuggestionList
             (<[worst_idx := mkSuggestion (Some copy) dist freq]>
                (suggestions list))
             (count list))
    else ret list.

(** A loop over the children of a node, in letter order. *)
Fixpoint for_children {W St} (visit : TrieNode W → St → M St)
    (slots : list (option (TrieNode W))) (st : St) : M St :=
  match slots with
  | [] => ret st
  | slot :: rest =>
      st ← match slot with
           | Some child => visit child st
           | None => ret st
           end;
      for_children visit rest st
  end.

(** [collectSuggestions]. *)
Fixpoint collectSuggestions (malloc : heap → Z) (node : TrieNode Z)
    (sl : SuggestionList Z) : M (SuggestionList Z) :=
  sl ← (if isEndOfWord node then
          match originalWord node with
          | Some w => addSuggestion malloc sl w 0 (frequency node)
          | None => undefined
          end
        else ret sl);
  for_children (collectSuggestions malloc) (children node) sl.

(** The lines printed for the entries of a list: word and number. *)
Fixpoint print_entries (entries : list (Suggestion Z))
    (number : Suggestion Z → Z) : M (list (list ascii * Z)) :=
  match entries with
  | [] => ret []
  | e :: rest =>
      match sug_word e with
      | Some p =>
          s ← read p;
          lines ← print_entries rest number;
          ret ((s, number e) :: lines)
      | None => undefined
      end
  end.

(** The loop that frees the words of the entries in use. *)
Fixpoint free_entries (entries : list (Suggestion Z)) : M unit :=
  match entries with
  | [] => ret tt
  | e :: rest => free (sug_word e);; free_entries rest
  end.

(** [searchWordsByPrefix]: the lines printed, [None] for "No
    suggestions found". *)
Definition searchWordsByPrefix
    (malloc : heap → Z)
    (qsort : ∀ A : Type, (A → A → Z) → list A → list A)
    (root : TrieNode Z) (prefix : list ascii)
    : M (option (list (list ascii * Z))) :=
  lowerPrefix ← strtolower malloc prefix;
  lower ← read lowerPrefix;
  match find_node root lower with
  | None => undefined
  | Some None =>
      free (Some lowerPrefix);;
      ret None
  | Some (Some current) =>
      sl ← collectSuggestions malloc current initSuggestionList;
      let sorted :=
        qsort_prefix (qsort _ compareSuggestions) (suggestions sl) (count sl) in
      out ← (if (count sl =? 0)%nat then ret None
             else lines ← print_entries (printed sorted (count sl)) sug_frequency;
                  ret (Some lines));
      free_entries (take (count sl) sorted);;
      free (Some lowerPrefix);;
      ret out
  end.

(** [collectAllWords]: the dictionary holds copies of the words. *)
Fixpoint collectAllWords (malloc : heap → Z) (node : TrieNode Z)
    (dict : Dictionary Z) : M (Dictionary Z) :=
  dict ← match originalWord node with
         | Some w =>
             if isEndOfWord node && (Z.of_nat (length dict) <? MAX_WORDS)
             then s ← read w;
                  copy ← strdup malloc s;
                  ret (dict ++ [copy])
             else ret dict
         | None => ret dict
         end;
  for_children (collectAllWords malloc) (children node) dict.

(** The loop of [suggestSimilarWords]. *)
Fixpoint spell_loop (malloc : heap → Z) (rows : Rows)
    (lowerInput : list ascii) (words : list Z) (i : nat)
    (sl : SuggestionList Z) : M (SuggestionList Z) :=
  match words with
  | [] => ret sl
  | w :: rest =>
      s ← read w;
      lowerDictWord ← strtolower malloc s;
      lower ← read lowerDictWord;
      let dist :=
        levenshteinDistance (rows i).1 (rows i).2 lowerInput lower in
      free (Some lowerDictWord);;
      sl ← (if dist <=? MAX_LEVENSHTEIN_DISTANCE
            then addSuggestion malloc sl w dist 0
            else ret sl);
      spell_loop malloc rows lowerInput rest (S i) sl
  end.

(** [suggestSimilarWords]: the lines printed, [None] when there is
    none. *)
Definition suggestSimilarWords
    (malloc : heap → Z)
    (qsort : ∀ A : Type, (A → A → Z) → list A → list A) (rows : Rows)
    (input : list ascii) (dict : Dictionary Z)
    : M (option (list (list ascii * Z))) :=
  match dict with
  | [] => ret None
  | _ =>
      lowerInput ← strtolower malloc input;
      lower ← read lowerInput;
      sl ← spell_loop malloc rows lower dict 0 initSuggestionList;
      let sorted :=
        qsort_prefix (qsort _ compareSuggestions) (suggestions sl) (count sl) in
      out ← (if (0 <? count sl)%nat
             then lines ← print_entries (printed sorted (count sl)) sug_distance;
                  ret (Some lines)
             else ret None);
      free_entries (take (count sl) sorted);;
      free (Some lowerInput);;
      ret out
  end.

(** [freeDictionary]. *)
Fixpoint freeDictionary (words : list Z) : M unit :=
  match words with
  | [] => ret tt
  | w :: rest => free (Some w);; freeDictionary rest
  end.

(** [strcmp]: the difference of the first two characters that differ. *)
Fixpoint strcmp (a b : list ascii) : Z :=
  match a, b with
  | [], [] => 0
  | [], y :: _ => 0 - code y
  | x :: _, [] => code x
  | x :: a', y :: b' => if code x =? code y then strcmp a' b' else code x - code y
  end.

(** The bytes of a pointer in memory, least significant first. *)
Fixpoint pointer_bytes (n : nat) (p : Z) : list Z :=
  match n with
  | O => []
  | S n' => p mod 256 :: pointer_bytes n' (p / 256)
  end.

(** The characters up to the first NUL. *)
Fixpoint until_nul (bytes : list Z) : list ascii :=
  match bytes with
  | [] => []
  | b :: rest =>
      if b =? 0 then [] else ascii_of_nat (Z.to_nat b) :: until_nul rest
  end.

(** What [strcmp] reads when it is handed the address of an array cell
    that holds the pointer [p]: the bytes of the pointer itself.  The
    cell is 8 bytes in little-endian order, and an address below 2^56
    leaves a NUL among them. *)
Definition cell_string (p : Z) : list ascii := until_nul (pointer_bytes 8 p).

(** The comparison [qsort] is given in option 2 of the menu: [strcmp]
    under a cast.  [qsort] calls it with the addresses of two cells of
    the array of [char*], so it compares the cells, not the words. *)
Definition strcmp_as_comparator (p q : Z) : Z :=
  strcmp (cell_string p) (cell_string q).

(** The loop that prints the words of a dictionary. *)
Fixpoint print_words (words : list Z) : M (list (list ascii)) :=
  match words with
  | [] => ret []
  | w :: rest =>
      s ← read w;
      lines ← print_words rest;
      ret (s :: lines)
  end.

(** Option 2 of the menu ("Show all words"): the lines printed. *)
Definition show_all_words
    (malloc : heap → Z)
    (qsort : ∀ A : Type, (A → A → Z) → list A → list A)
    (root : TrieNode Z) : M (list (list ascii)) :=
  allWords ← collectAllWords malloc root [];
  let sorted := qsort _ strcmp_as_comparator allWords in
  lines ← print_words sorted;
  freeDictionary sorted;;
  ret lines.

(** An allocator to run the model with: every new block goes 32 bytes
    above the highest block in use, the first one at [base]. *)
Definition malloc_top (base : Z) (h : heap) : Z :=
  foldr (λ b top, Z.max top (b.1 + 32)) base (map_to_list h).

(** [freeTrie]: the subtrees first, then the word of the node.  (The
    block of the node itself is not part of this heap of strings.) *)
Fixpoint freeTrie (node : TrieNode Z) : M unit :=
  for_children (λ child _, freeTrie child) (children node) tt;;
  free (originalWord node).

(** The loop of [main] that reads the words. *)
Fixpoint read_words (malloc : heap → Z) (root : TrieNode Z) (i n : nat)
    (tokens : list (list ascii)) {struct tokens}
    : M (option (TrieNode Z * list (list ascii))) :=
  if (n <=? i)%nat then ret (Some (root, tokens))
  else
    match tokens with
    | [] => ret None
    | input :: rest =>
        if 2 * MAX_WORD_LENGTH <=? Z.of_nat (length input) then undefined
        else
          match read_entry input with
          | None => undefined
          | Some None => read_words malloc root i n rest
          | Some (Some (word, frequency)) =>
              root' ← insertWord malloc root word frequency;
              read_words malloc root' (S i) n rest
          end
    end.

(** What one round of the menu prints. *)
Inductive MenuOutput : Type :=
  | InvalidPrefixLine
  | PrefixLines (out : option (list (list ascii * Z)))
  | CorrectionLines (out : option (list (list ascii * Z)))
  | AllWords (lines : list (list ascii))
  | Exiting
  | InvalidChoice.

(** Case 1 of the menu, once [scanf("%s", prefix)] has delivered the
    prefix: [main] makes its own lower-case copy, walks the tree with
    it, calls [searchWordsByPrefix] or [suggestSimilarWords], and frees
    the copy. *)
Definition search_by_prefix
    (malloc : heap → Z)
    (qsort : ∀ A : Type, (A → A → Z) → list A → list A) (rows : Rows)
    (root : TrieNode Z) (dict : Dictionary Z) (prefix : list ascii)
    : M MenuOutput :=
  if negb (isValidWord prefix) then ret InvalidPrefixLine
  else
    lowerPrefix ← strtolower malloc prefix;
    lower ← read lowerPrefix;
    match find_node root lower with
    | None => undefined
    | Some (Some _) =>
        out ← searchWordsByPrefix malloc qsort root prefix;
        free (Some lowerPrefix);;
        ret (PrefixLines out)
    | Some None =>
        out ← suggestSimilarWords malloc qsort rows prefix dict;
        free (Some lowerPrefix);;
        ret (CorrectionLines out)
    end.

(** What the user types in one round of the menu: the choice, and for
    choice 1 the prefix ([rows] is what [malloc] returns to
    [levenshteinDistance] during that round). *)
Inductive MenuInput : Type :=
  | SearchByPrefix (prefix : list ascii) (rows : Rows)
  | ShowAllWords
  | ExitMenu
  | OtherChoice.

(** One round of the [switch] of [main].  The buffer [prefix] has room
    for [MAX_WORD_LENGTH - 1] characters. *)
Definition menu_round
    (malloc : heap → Z)
    (qsort : ∀ A : Type, (A → A → Z) → list A → list A)
    (root : TrieNode Z) (dict : Dictionary Z) (input : MenuInput)
    : M MenuOutput :=
  match input with
  | SearchByPrefix prefix rows =>
      if MAX_WORD_LENGTH <=? Z.of_nat (length prefix) then undefined
      else search_by_prefix malloc qsort rows root dict prefix
  | ShowAllWords =>
      lines ← show_all_words malloc qsort root;
      ret (AllWords lines)
  | ExitMenu => ret Exiting
  | OtherChoice => ret InvalidChoice
  end.

(** The loop [do { ... } while (choice != 3)]: what the rounds print,
    and whether the loop has ended (it has not when the input stops
    before choice 3). *)
Fixpoint menu_loop
    (malloc : heap → Z)
    (qsort : ∀ A : Type, (A → A → Z) → list A → list A)
    (root : TrieNode Z) (dict : Dictionary Z) (inputs : list MenuInput)
    : M (list MenuOutput * bool) :=
  match inputs with
  | [] => ret ([], false)
  | input :: rest =>
      out ← menu_round malloc qsort root dict input;
      match input with
      | ExitMenu => ret ([out], true)
      | _ =>
          '(outs, ended) ← menu_loop malloc qsort root dict rest;
          ret (out :: outs, ended)
      end
  end.

(** [main], once the number [n] of words has been read: the words, the
    dictionary for the spelling correction, the menu, and the two calls
    that free the tree and the dictionary when the menu is left.  The
    result is [None] when the input ends while words are still read. *)
Definition main
    (malloc : heap → Z)
    (qsort : ∀ A : Type, (A → A → Z) → list A → list A)
    (n : nat) (tokens : list (list ascii)) (inputs : list MenuInput)
    : M (option (list MenuOutput * bool)) :=
  read ← read_words malloc createTrieNode 0 n tokens;
  match read with
  | None => ret None
  | Some (root, _) =>
      dict ← collectAllWords malloc root [];
      session ← menu_loop malloc qsort root dict inputs;
      if (session.2 : bool) then
        freeTrie root;;
        freeDictionary dict;;
        ret (Some session)
      else ret (Some session)
  end.

End Mem.

(** * Specification-level definitions

    What the statements below are written with: edit scripts, the view of
    the tree as a map from paths to words, the shape of the trees the
    program builds, the entries a suggestion list retains, and the
    ownership of blocks in the memory model. *)

(** One single-character edit, anywhere in the string. *)
Inductive edit1 : list ascii → list ascii → Prop :=
  | edit_insert (x y : list ascii) (c : ascii) : edit1 (x ++ y) (x ++ c :: y)
  | edit_delete (x y : list ascii) (c : ascii) : edit1 (x ++ c :: y) (x ++ y)
  | edit_substitute (x y : list ascii) (c d : ascii) :
      edit1 (x ++ c :: y) (x ++ d :: y).

(** [edits n a b]: [n] single-character edits, one after the other, turn
    [a] into [b]. *)
Inductive edits : nat → list ascii → list ascii → Prop :=
  | edits_none (a : list ascii) : edits 0 a a
  | edits_step (n : nat) (a b c : list ascii) :
      edit1 a b → edits n b c → edits (S n) a c.

(** [n] is the least number of edits that turn [a] into [b]. *)
Definition edit_distance (a b : list ascii) (n : nat) : Prop :=
  edits n a b ∧ ∀ m, edits m a b → (n ≤ m)%nat.

(** The cost of aligning two characters. *)
Definition subst_cost (x y : ascii) : nat := if decide (x = y) then 0%nat else 1%nat.

(** The recurrence the table of the dynamic program obeys, read from the
    front of the strings. *)
Fixpoint lev (a b : list ascii) : nat :=
  match a with
  | [] => length b
  | x :: a' =>
      (fix lev_row (b : list ascii) : nat :=
         match b with
         | [] => length a
         | y :: b' =>
             ((S (lev a' b) `min` S (lev_row b')) `min`
                (lev a' b' + subst_cost x y))%nat
         end) b
  end.

Arguments lev : simpl never.

(** Arithmetic over values of [lev]: each value is first made an opaque
    number, so that the decision procedure does not look inside. *)
Ltac lev_lia :=
  repeat match goal with
    | |- context [lev ?a ?b] =>
        let n := fresh "n" in set (n := lev a b) in *; clearbody n
    | H : context [lev ?a ?b] |- _ =>
        let n := fresh "n" in set (n := lev a b) in *; clearbody n
    end;
  lia.

(** The entry [(i, j)] of the table: the value of the recurrence on the
    first [i] characters of [s] and the first [j] characters of [t],
    the last character of each read first. *)
Definition table (s t : list ascii) (i j : nat) : nat :=
  lev (reverse (take i s)) (reverse (take j t)).

(** Row [i] of the table, as an array of [lenT + 1] integers. *)
Definition row (s t : list ascii) (i : nat) : list Z :=
  (λ j, Z.of_nat (table s t i j)) <$> seq 0 (S (length t)).

(** The letter that leads to the child of index [i]. *)
Definition letter (i : nat) : ascii := ascii_of_nat (97 + i).

(** The word a node holds when it ends one, with its frequency. *)
Definition entry_of {W} (node : TrieNode W) : option (W * Z) :=
  if isEndOfWord node
  then (λ w, (w, frequency node)) <$> originalWord node
  else None.

(** The word stored at the end of a path, if any. *)
Definition word_at {W} (root : TrieNode W) (path : list ascii)
    : option (W * Z) :=
  match find_node root path with
  | Some (Some node) => entry_of node
  | _ => None
  end.

(** A word is stored when some path ends with it. *)
Definition stored {W} (root : TrieNode W) (word : W) (freq : Z) : Prop :=
  ∃ path, word_at root path = Some (word, freq).

(** What a node holds after one more insertion reaches it. *)
Definition merge_entry {W} (old : option (W * Z)) (new : W * Z) : W * Z :=
  match old with
  | Some o => if o.2 <? new.2 then new else o
  | None => new
  end.

(** The terminal nodes found through the children [slots], the first of
    which has index [i]; [below] lists those under one child. *)
Fixpoint through_children {W X} (below : TrieNode W → list (list ascii * X))
    (i : nat) (slots : list (option (TrieNode W))) : list (list ascii * X) :=
  match slots with
  | [] => []
  | slot :: slots' =>
      match slot with
      | Some child => prod_map (cons (letter i)) id <$> below child
      | None => []
      end
      ++ through_children below (S i) slots'
  end.

(** The terminal nodes below a node in the order the traversals visit
    them (the node first, then the children by letter), each with the
    path that leads to it. *)
Fixpoint terminals {W} (node : TrieNode W) : list (list ascii * (W * Z)) :=
  match entry_of node with
  | Some e => [([], e)]
  | None => []
  end
  ++ through_children terminals 0 (children node).

(** A word the program accepts: not empty, letters only. *)
Definition valid_word (w : cstring) : Prop := w ≠ [] ∧ isValidWord w = true.

(** Lower-case letters only. *)
Definition lower_path (p : list ascii) : Prop := Forall (λ c, islower c = true) p.

(** The shape of the trees [insertWord] builds.  [path] is the path from
    the root to the node. *)
Inductive wf_trie : list ascii → TrieNode cstring → Prop :=
  | wf_trie_node (path : list ascii) cs e w f :
      length cs = Z.to_nat ALPHABET_SIZE →
      (e = true ↔ is_Some w) →
      (∀ word, w = Some word → strtolower word = path) →
      (∀ i child, cs !! i = Some (Some child) →
         wf_trie (path ++ [letter i]) child) →
      (∀ i child, cs !! i = Some (Some child) → terminals child ≠ []) →
      wf_trie path (mkTrieNode cs e w f).

(** The entries [main] accepts: valid words. *)
Definition valid_entries (entries : list (cstring * Z)) : Prop :=
  Forall (λ e, valid_word e.1) entries.

(** The insertions of one word, whatever its case, in the order they
    were made. *)
Definition insertions_of (w : cstring) (entries : list (cstring * Z))
    : list (cstring * Z) :=
  filter (λ e, strtolower e.1 = strtolower w) entries.

(** The entry a node holds after the insertions [occ] reached it. *)
Definition merged (old : option (cstring * Z)) (occ : list (cstring * Z))
    : option (cstring * Z) :=
  fold_left (λ acc e, Some (merge_entry acc e)) occ old.

Ltac solve_valid_entries :=
  repeat (constructor; [split; [discriminate|reflexivity]|]); constructor.

(** [a] ranks no later than [b]: smaller distance, or equal distance and
    a frequency at least as large. *)
Definition ranks_before {W} (a b : Suggestion W) : Prop :=
  sug_distance a < sug_distance b
  ∨ (sug_distance a = sug_distance b ∧ sug_frequency b <= sug_frequency a).

(** The step of [collectSuggestions] at a terminal node. *)
Definition offer_word (sl : SuggestionList cstring) (e : cstring * Z)
    : SuggestionList cstring :=
  addSuggestion sl e.1 0 e.2.

(** The step of [collectAllWords] at a terminal node. *)
Definition add_word (dict : Dictionary cstring) (e : cstring * Z)
    : Dictionary cstring :=
  if Z.of_nat (length dict) <? MAX_WORDS then dict ++ [e.1] else dict.

(** The entries in use: the first [count] cells. *)
Definition kept {W} (sl : SuggestionList W) : list (Suggestion W) :=
  take (count sl) (suggestions sl).

(** The shape of a suggestion list: ten cells, at most ten in use. *)
Definition list_ok {W} (sl : SuggestionList W) : Prop :=
  length (suggestions sl) = Z.to_nat MAX_SUGGESTIONS
  ∧ (count sl ≤ Z.to_nat MAX_SUGGESTIONS)%nat.

(** An entry whose fields are non-negative [int] values. *)
Definition in_range {W} (s : Suggestion W) : Prop :=
  0 <= sug_distance s <= INT_MAX ∧ 0 <= sug_frequency s <= INT_MAX.

(** The entries a prefix search shows. *)
Definition results {W} (out : PrefixOutput W) : list (Suggestion W) :=
  match out with
  | NoSuggestionsFound => []
  | SuggestionsFor entries => entries
  end.

(** The suggestion [collectSuggestions] makes of a terminal node. *)
Definition suggestion_of_terminal (t : list ascii * (cstring * Z))
    : Suggestion cstring :=
  mkSuggestion (Some t.2.1) 0 t.2.2.

(** Fresh rows have the size asked for. *)
Definition rows_ok (rows : Rows) (dict : list cstring) : Prop :=
  ∀ i w buf, dict !! i = Some w →
    (rows i).1 = Some buf ∨ (rows i).2 = Some buf →
    length buf = S (length w).

(** The order of the suggestions shown: by distance, and among equal
    distances by decreasing frequency. *)
Definition shown_before {W} (a b : Suggestion W) : Prop :=
  sug_distance a <= sug_distance b
  ∧ (sug_distance a = sug_distance b → sug_frequency b <= sug_frequency a).

(** An allocator never hands out a block that is in use. *)
Definition fresh_allocator (malloc : Mem.heap → Z) : Prop :=
  ∀ h, h !! malloc h = None.

(** [runs m h Q]: from the heap [h] the computation [m] is defined, and
    its result and final heap satisfy [Q]. *)
Definition runs {A} (m : Mem.M A) (h : Mem.heap) (Q : A → Mem.heap → Prop)
    : Prop :=
  ∃ a h', m h = Some (a, h') ∧ Q a h'.

(** [frame h0 h owned]: the heap [h] is the heap [h0] with, in addition,
    one block at each of the addresses [owned]. *)
Definition frame (h0 h : Mem.heap) (owned : list Z) : Prop :=
  NoDup owned
  ∧ (∀ p, p ∈ owned → h0 !! p = None ∧ is_Some (h !! p))
  ∧ (∀ p, p ∉ owned → h !! p = h0 !! p).

(** The addresses held by a run of entries. *)
Definition word_ptrs (l : list (Suggestion Z)) : list Z := omap sug_word l.

(** [list_held h0 h temps sl]: the entries in use of [sl] all hold a
    word, and the heap is [h0] plus the blocks of those words and the
    blocks [temps]. *)
Definition list_held (h0 h : Mem.heap) (temps : list Z)
    (sl : SuggestionList Z) : Prop :=
  list_ok sl
  ∧ Forall (λ e, is_Some (sug_word e)) (kept sl)
  ∧ frame h0 h (word_ptrs (kept sl) ++ temps).

(** Every node has its 26 cells, every word pointer designates a block of
    the heap, and a node that ends a word has one. *)
Fixpoint words_allocated (h : Mem.heap) (node : TrieNode Z) : bool :=
  (length (children node) =? Z.to_nat ALPHABET_SIZE)%nat
  && match originalWord node with
     | Some p => bool_decide (is_Some (h !! p))
     | None => negb (isEndOfWord node)
     end
  && forallb
       (λ slot, match slot with
                | Some child => words_allocated h child
                | None => true
                end)
       (children node).

(** A check of consistency that can be run on a given array. *)
Definition consistent_check {A} (cmp : A → A → Z) (l : list A) : bool :=
  forallb (λ x,
    forallb (λ y,
      (if cmp x y <? 0 then 0 <? cmp y x else true)
      && (if cmp x y =? 0 then cmp y x =? 0 else true)
      && (if 0 <? cmp x y then cmp y x <? 0 else true)
      && forallb (λ z,
           if (cmp x y <=? 0) && (cmp y z <=? 0) then cmp x z <=? 0 else true) l)
      l) l.

(** The word pointers held below a run of children. *)
Definition children_ptrs (below : TrieNode Z → list Z)
    (slots : list (option (TrieNode Z))) : list Z :=
  flat_map (λ slot, match slot with Some child => below child | None => [] end)
    slots.

(** The word pointers held by the nodes of a tree. *)
Fixpoint trie_ptrs (node : TrieNode Z) : list Z :=
  match originalWord node with Some p => [p] | None => [] end
  ++ children_ptrs trie_ptrs (children node).

(** The tree of the memory model as the first part of the development
    sees it: every word pointer replaced by the string it points to. *)
Fixpoint view (h : Mem.heap) (node : TrieNode Z) : TrieNode cstring :=
  mkTrieNode
    (map (option_map (view h)) (children node))
    (isEndOfWord node)
    (originalWord node ≫= λ p, h !! p)
    (frequency node).

(** What an insertion below a node guarantees: the new subtree is
    allocated and holds distinct pointers, the blocks [X] outside the
    subtree are as they were and stay outside, and the tree seen through
    the new heap is the one the first part computes. *)
Definition inserted (X : Z → Prop) (h : Mem.heap) (node : TrieNode Z)
    (lowerWord word : list ascii) (freq : Z)
    (node' : TrieNode Z) (h' : Mem.heap) : Prop :=
  words_allocated h' node' = true
  ∧ NoDup (trie_ptrs node')
  ∧ (∀ p, p ∈ trie_ptrs node' → ¬ X p)
  ∧ (∀ p, X p → h' !! p = h !! p)
  ∧ insert_path (view h node) lowerWord word freq = Some (view h' node').

(** The words of Scenario E of the specification. *)
Definition scenario_E : list (cstring * Z) :=
  [(cstr "Banana", 1); (cstr "apple", 1); (cstr "Cherry", 1)].

(** The address of the first block of the heap in the runs below. *)
Definition heap_base : Z := 93824992252576.

(** The words of Scenario A of the specification. *)
Definition scenario_A : list (cstring * Z) :=
  [(cstr "apple", 5); (cstr "app", 3); (cstr "apt", 1)].

(** One word inserted five times, among others. *)
Definition repeated_inserts : list (cstring * Z) :=
  [(cstr "Hello", 3); (cstr "help", 9); (cstr "hello", 7);
   (cstr "HELLO", 7); (cstr "hellO", 5)].

(** Rows of the right size for every word of a dictionary. *)
Definition rows_for (dict : list cstring) : Rows :=
  λ i, match dict !! i with
       | Some w => (Some (replicate (S (length w)) 0),
                    Some (replicate (S (length w)) 0))
       | None => (None, None)
       end.

(** No row can be allocated. *)
Definition no_rows : Rows := λ _, (None, None).

(** The store of Scenario E in the memory model. *)
Definition example_store : option (TrieNode Z * Mem.heap) :=
  Mem.insertAll (Mem.malloc_top heap_base) createTrieNode scenario_E ∅.

Definition example_root : TrieNode Z :=
  match example_store with
  | Some (root, _) => root
  | None => createTrieNode
  end.

Definition example_heap : Mem.heap :=
  match example_store with
  | Some (_, h) => h
  | None => ∅
  end.

(** A suggestion list with its ten entries. *)
Definition full_list : SuggestionList cstring :=
  mkSuggestionList
    [mkSuggestion (Some (cstr "a")) 0 5; mkSuggestion (Some (cstr "b")) 1 4;
     mkSuggestion (Some (cstr "c")) 2 1; mkSuggestion (Some (cstr "d")) 2 7;
     mkSuggestion (Some (cstr "e")) 0 0; mkSuggestion (Some (cstr "f")) 1 1;
     mkSuggestion (Some (cstr "g")) 2 3; mkSuggestion (Some (cstr "h")) 1 9;
     mkSuggestion (Some (cstr "i")) 0 2; mkSuggestion (Some (cstr "j")) 2 1]
    10.

(** The tree of Scenario A. *)
Definition scenario_A_tree : TrieNode cstring :=
  default createTrieNode (insertAll createTrieNode scenario_A).

(** One offer to a suggestion list: the arguments of a call of
    [addSuggestion], and the entry the call writes when it keeps them. *)
Definition offer (sl : SuggestionList cstring) (o : cstring * Z * Z)
    : SuggestionList cstring :=
  addSuggestion sl o.1.1 o.1.2 o.2.

Definition offered (o : cstring * Z * Z) : Suggestion cstring :=
  mkSuggestion (Some o.1.1) o.1.2 o.2.

(** [retains_best sl seen]: of the entries [seen] so far, the list holds
    the best ones: an entry that is not in the list is outranked by all
    the entries of a list that is full. *)
Definition retains_best {W} (sl : SuggestionList W) (seen : list (Suggestion W))
    : Prop :=
  ∀ o, o ∈ seen →
    o ∈ kept sl
    ∨ (count sl = Z.to_nat MAX_SUGGESTIONS
       ∧ ∀ s, s ∈ kept sl → ranks_before s o).

(** Every block of the heap is a word of the tree. *)
Definition only_tree (h : Mem.heap) (node : TrieNode Z) : Prop :=
  ∀ p, is_Some (h !! p) → p ∈ trie_ptrs node.

(** A string [main] can take from [scanf] in its first loop: it fits
    the buffer, and its frequency suffix, if any, fits an [int]. *)
Definition token_ok (input : list ascii) : Prop :=
  Z.of_nat (length input) < 2 * MAX_WORD_LENGTH ∧ is_Some (read_entry input).

(** A round of the menu whose prefix fits its buffer. *)
Definition round_ok (input : Mem.MenuInput) : Prop :=
  match input with
  | Mem.SearchByPrefix prefix _ => Z.of_nat (length prefix) < MAX_WORD_LENGTH
  | _ => True
  end.

(** The arguments of the calls of [insertWord] the first loop of [main]
    makes for the strings [tokens]. *)
Definition accepted (tokens : list (list ascii)) : list (cstring * Z) :=
  omap (λ input, mjoin (read_entry input)) tokens.

(** A number in decimal notation, as a user types it. *)
Definition digit_char (d : Z) : ascii := ascii_of_nat (Z.to_nat (48 + d)).

Fixpoint decimal_digits (fuel : nat) (n : Z) (acc : list ascii) : list ascii :=
  match fuel with
  | O => acc
  | S fuel' =>
      if n <? 10 then digit_char n :: acc
      else decimal_digits fuel' (n / 10) (digit_char (n mod 10) :: acc)
  end.

Definition decimal (z : Z) : list ascii :=
  if z <? 0 then "-"%char :: decimal_digits 20 (- z) []
  else decimal_digits 20 z [].

(** The strings a list of pointers designates. *)
Definition strings_at (h : Mem.heap) (ptrs : list Z) : list (list ascii) :=
  (λ p, default [] (h !! p)) <$> ptrs.

(** * Specifications and proofs *)

(** ** Edit distance *)

Lemma lev_nil_l b : lev [] b = length b.
Proof. reflexivity. Qed.

Lemma lev_nil_r a : lev a [] = length a.
Proof. by destruct a. Qed.

Lemma lev_cons x a y b :
  lev (x :: a) (y :: b)
  = ((S (lev a (y :: b)) `min` S (lev (x :: a) b)) `min` (lev a b + subst_cost x y))%nat.
Proof. reflexivity. Qed.

Lemma subst_cost_le x y : (subst_cost x y ≤ 1)%nat.
Proof. unfold subst_cost. case_decide; lia. Qed.

Lemma lev_refl a : lev a a = 0%nat.
Proof.
  induction a as [|x a IH]; [done|].
  rewrite lev_cons, IH. unfold subst_cost. rewrite decide_True by done. lev_lia.
Qed.

Lemma lev_le_sum a b : (lev a b ≤ length a + length b)%nat.
Proof.
  revert b. induction a as [|x a IH]; intros b; [rewrite lev_nil_l; simpl; lia|].
  induction b as [|y b IHb]; [rewrite lev_nil_r; simpl; lia|].
  rewrite lev_cons. specialize (IH (y :: b)). simpl length in *. lev_lia.
Qed.

(** Dropping the head of either string changes the value by one at most. *)
Lemma lev_cons_r a y b : (lev a (y :: b) ≤ S (lev a b))%nat.
Proof.
  destruct a as [|x a]; [rewrite !lev_nil_l; simpl; lia|]. rewrite lev_cons. lev_lia.
Qed.

Lemma lev_cons_l x a b : (lev (x :: a) b ≤ S (lev a b))%nat.
Proof.
  destruct b as [|y b]; [rewrite !lev_nil_r; simpl; lia|]. rewrite lev_cons. lev_lia.
Qed.

(** One edit of the source changes the value by one at most. *)
Lemma lev_edit1 a b : edit1 a b → ∀ c, (lev a c ≤ S (lev b c))%nat.
Proof.
  assert (Hcong : ∀ e a0 b0, (∀ c, (lev a0 c ≤ S (lev b0 c))%nat) →
                             ∀ c, (lev (e :: a0) c ≤ S (lev (e :: b0) c))%nat).
  { intros e a0 b0 IH c. induction c as [|z c IHc].
    - specialize (IH []). rewrite !lev_nil_r in *. simpl. lia.
    - rewrite (lev_cons e b0 z c).
      pose proof (lev_cons_l e a0 (z :: c)). pose proof (IH (z :: c)).
      pose proof (lev_cons_r (e :: a0) z c).
      pose proof (IH c). rewrite (lev_cons e a0 z c). lev_lia. }
  intros [x y k|x y k|x y k d].
  - induction x as [|e x IHx]; simpl; [|by apply Hcong].
    intros c. induction c as [|z c IHc].
    + rewrite !lev_nil_r. simpl. lia.
    + rewrite (lev_cons k y z c). pose proof (lev_cons_r y z c). lev_lia.
  - induction x as [|e x IHx]; simpl; [|by apply Hcong].
    intros c. apply lev_cons_l.
  - induction x as [|e x IHx]; simpl; [|by apply Hcong].
    intros c. induction c as [|z c IHc].
    + rewrite !lev_nil_r. simpl. lia.
    + rewrite (lev_cons d y z c), (lev_cons k y z c).
      pose proof (subst_cost_le k z). pose proof (lev_cons_r (k :: y) z c).
      lev_lia.
Qed.

Lemma edits_lev_le n a b : edits n a b → (lev a b ≤ n)%nat.
Proof.
  induction 1 as [a|n a b c Hab _ IH]; [by rewrite lev_refl|].
  pose proof (lev_edit1 _ _ Hab c). lev_lia.
Qed.

Lemma edit1_cons e a b : edit1 a b → edit1 (e :: a) (e :: b).
Proof.
  intros [x y c|x y c|x y c d].
  - apply (edit_insert (e :: x)).
  - apply (edit_delete (e :: x)).
  - apply (edit_substitute (e :: x)).
Qed.

Lemma edits_cons e n a b : edits n a b → edits n (e :: a) (e :: b).
Proof.
  induction 1; econstructor; eauto using edit1_cons.
Qed.

Lemma edits_inserts b : edits (length b) [] b.
Proof.
  induction b as [|y b IH]; [constructor|]. simpl.
  apply edits_step with [y]; [apply (edit_insert [] [])|].
  by apply (edits_cons y).
Qed.

Lemma edits_deletes a : edits (length a) a [].
Proof.
  induction a as [|x a IH]; [constructor|]. simpl.
  apply edits_step with a; [apply (edit_delete [] a)|done].
Qed.

Lemma lev_edits a b : edits (lev a b) a b.
Proof.
  revert b. induction a as [|x a IH]; intros b; [apply edits_inserts|].
  induction b as [|y b IHb]; [rewrite lev_nil_r; apply edits_deletes|].
  rewrite lev_cons.
  destruct (Nat.min_spec (S (lev a (y :: b)) `min` S (lev (x :: a) b))%nat
              (lev a b + subst_cost x y)%nat) as [[_ ->]|[_ ->]].
  - destruct (Nat.min_spec (S (lev a (y :: b))) (S (lev (x :: a) b)))
      as [[_ ->]|[_ ->]].
    + apply edits_step with a; [apply (edit_delete [] a)|apply IH].
    + apply edits_step with (y :: x :: a); [apply (edit_insert [] (x :: a))|].
      by apply edits_cons.
  - unfold subst_cost. case_decide as Hxy.
    + subst. rewrite Nat.add_0_r. apply edits_cons, IH.
    + rewrite Nat.add_1_r.
      apply edits_step with (y :: a); [apply (edit_substitute [] a)|].
      apply edits_cons, IH.
Qed.

Lemma lev_edit_distance a b : edit_distance a b (lev a b).
Proof. split; [apply lev_edits|intros m Hm; by apply edits_lev_le]. Qed.

(** Edits read backwards are edits of the reversed strings. *)
Lemma edit1_reverse a b : edit1 a b → edit1 (reverse a) (reverse b).
Proof.
  intros [x y c|x y c|x y c d];
    rewrite ?reverse_app, ?reverse_cons, <- ?(assoc_L (++)); simpl.
  - apply edit_insert.
  - apply edit_delete.
  - apply edit_substitute.
Qed.

Lemma edits_reverse n a b : edits n a b → edits n (reverse a) (reverse b).
Proof. induction 1; econstructor; eauto using edit1_reverse. Qed.

Lemma edit_distance_reverse a b n :
  edit_distance (reverse a) (reverse b) n → edit_distance a b n.
Proof.
  intros [H1 H2]. split.
  - apply edits_reverse in H1. by rewrite !reverse_involutive in H1.
  - intros m Hm. apply H2. by apply edits_reverse.
Qed.

(** ** The two rolling rows compute the table *)

Lemma wrap_small z : -2147483648 <= z <= INT_MAX → wrap z = z.
Proof.
  unfold wrap, INT_MAX. intros H.
  rewrite Z.mod_small by lia. lia.
Qed.

Lemma row_length s t i : length (row s t i) = S (length t).
Proof. unfold row. by rewrite length_fmap, length_seq. Qed.

Lemma row_lookup s t i j :
  (j ≤ length t)%nat → row s t i !! j = Some (Z.of_nat (table s t i j)).
Proof.
  intros Hj. unfold row. rewrite list_lookup_fmap, lookup_seq_lt by lia. done.
Qed.

Lemma row_lookup_total s t i j :
  (j ≤ length t)%nat → row s t i !!! j = Z.of_nat (table s t i j).
Proof. intros Hj. by apply list_lookup_total_correct, row_lookup. Qed.

Lemma table_0_l s t j : (j ≤ length t)%nat → table s t 0 j = j.
Proof.
  intros Hj. unfold table. rewrite take_0, reverse_nil, lev_nil_l.
  rewrite length_reverse, length_take. lia.
Qed.

Lemma table_0_r s t i : (i ≤ length s)%nat → table s t i 0 = i.
Proof.
  intros Hi. unfold table. rewrite take_0, reverse_nil, lev_nil_r.
  rewrite length_reverse, length_take. lia.
Qed.

Lemma table_S s t i j x y :
  s !! i = Some x → t !! j = Some y →
  table s t (S i) (S j)
  = ((S (table s t i (S j)) `min` S (table s t (S i) j))
       `min` (table s t i j + subst_cost x y))%nat.
Proof.
  intros Hx Hy. unfold table.
  rewrite (take_S_r s i x), (take_S_r t j y) by done.
  rewrite !reverse_snoc. apply lev_cons.
Qed.

Lemma table_le s t i j : (table s t i j ≤ i + j)%nat.
Proof.
  unfold table.
  pose proof (lev_le_sum (reverse (take i s)) (reverse (take j t))) as H.
  rewrite !length_reverse, !length_take in H. lev_lia.
Qed.

Lemma table_full s t :
  table s t (length s) (length t) = lev (reverse s) (reverse t).
Proof. unfold table. by rewrite !firstn_all. Qed.

(** Two arrays of the same length that agree on every cell are equal. *)
Lemma take_all_eq (l1 l2 : list Z) n :
  length l1 = n → length l2 = n → take n l1 = take n l2 → l1 = l2.
Proof.
  intros H1 H2 H. by rewrite !take_ge in H by lia.
Qed.

Lemma take_S_insert (l1 l2 : list Z) j v :
  (j < length l1)%nat → take j l1 = take j l2 → l2 !! j = Some v →
  take (S j) (<[j := v]> l1) = take (S j) l2.
Proof.
  intros Hj H Hv.
  rewrite (take_S_r (<[j:=v]> l1) j v) by (apply list_lookup_insert_eq; lia).
  rewrite (take_S_r l2 j v) by done.
  rewrite take_insert_ge by lia. by rewrite H.
Qed.

Lemma init_row_row s t prev j n :
  length prev = S (length t) → (j + n = S (length t))%nat →
  take j prev = take j (row s t 0) →
  init_row prev j n = row s t 0.
Proof.
  revert prev j. induction n as [|n IH]; intros prev j Hlen Hjn Htake; simpl.
  - apply (take_all_eq _ _ j); [lia|rewrite row_length; lia|done].
  - apply IH; [by rewrite length_insert|lia|].
    apply take_S_insert; [lia|done|].
    rewrite row_lookup by lia. by rewrite table_0_l by lia.
Qed.

(** The value the inner loop stores is the entry of the table. *)
Lemma cell_table s t curr i j :
  (1 ≤ i ≤ length s)%nat → (1 ≤ j ≤ length t)%nat →
  Z.of_nat (length s) + Z.of_nat (length t) < INT_MAX →
  take j curr = take j (row s t i) →
  cell s t (row s t (i - 1)) curr i j = Z.of_nat (table s t i j).
Proof.
  intros Hi Hj Hbound Htake.
  destruct i as [|i]; [lia|]. destruct j as [|j]; [lia|].
  destruct (lookup_lt_is_Some_2 s i) as [x Hx]; [lia|].
  destruct (lookup_lt_is_Some_2 t j) as [y Hy]; [lia|].
  assert (Hleft : curr !! j = Some (Z.of_nat (table s t (S i) j))).
  { rewrite <- (lookup_take_lt curr (S j) j) by lia.
    rewrite Htake, lookup_take_lt by lia. apply row_lookup. lia. }
  unfold cell.
  replace (S i - 1)%nat with i by lia. replace (S j - 1)%nat with j by lia.
  rewrite !row_lookup_total by lia.
  rewrite (list_lookup_total_correct _ _ _ Hleft).
  rewrite Hx, Hy, (table_S s t i j x y) by done.
  pose proof (table_le s t i (S j)). pose proof (table_le s t (S i) j).
  pose proof (table_le s t i j). unfold INT_MAX in Hbound.
  assert (Hcost : (if decide (Some x = Some y) then 0 else 1)
                  = Z.of_nat (subst_cost x y)).
  { unfold subst_cost. repeat case_decide; congruence || done. }
  rewrite Hcost. pose proof (subst_cost_le x y).
  rewrite !wrap_small by (unfold INT_MAX; lia).
  repeat case_match; rewrite ?Z.ltb_lt, ?Z.ltb_ge in *; lia.
Qed.

Lemma inner_loop_row s t curr i j n :
  (1 ≤ i ≤ length s)%nat → (1 ≤ j)%nat → (j + n = S (length t))%nat →
  Z.of_nat (length s) + Z.of_nat (length t) < INT_MAX →
  length curr = S (length t) →
  take j curr = take j (row s t i) →
  inner_loop s t (row s t (i - 1)) curr i j n = row s t i.
Proof.
  intros Hi. revert curr j.
  induction n as [|n IH]; intros curr j Hj Hjn Hbound Hlen Htake; simpl.
  - apply (take_all_eq _ _ j); [lia|rewrite row_length; lia|done].
  - apply IH; [lia|lia|done|by rewrite length_insert|].
    apply take_S_insert; [lia|done|].
    rewrite row_lookup by lia. f_equal. symmetry. apply cell_table; [done|lia|done..].
Qed.

Lemma outer_loop_row s t curr i n :
  (1 ≤ i)%nat → (i + n = S (length s))%nat →
  Z.of_nat (length s) + Z.of_nat (length t) < INT_MAX →
  length curr = S (length t) →
  (outer_loop s t (row s t (i - 1)) curr i n).1 = row s t (length s).
Proof.
  revert curr i. induction n as [|n IH]; intros curr i Hi Hin Hbound Hlen; simpl.
  - by replace (i - 1)%nat with (length s) by lia.
  - rewrite inner_loop_row; [|lia|lia|lia|done|by rewrite length_insert|].
    + replace i with (S i - 1)%nat at 1 by lia.
      apply IH; [lia|lia|done|by rewrite row_length].
    + destruct curr as [|c curr]; [done|]. simpl.
      rewrite take_0. unfold row. simpl. by rewrite table_0_r by lia.
Qed.

(** With both rows allocated the function returns the bottom-right entry
    of the table, whatever the fresh rows held. *)
Lemma levenshteinDistance_table s t prev curr :
  Z.of_nat (length s) + Z.of_nat (length t) < INT_MAX →
  length prev = S (length t) → length curr = S (length t) →
  levenshteinDistance (Some prev) (Some curr) s t
  = Z.of_nat (lev (reverse s) (reverse t)).
Proof.
  intros Hbound Hp Hc. unfold levenshteinDistance.
  rewrite (init_row_row s t) by (done || lia || by rewrite !take_0).
  pose proof (outer_loop_row s t curr 1 (length s)) as H. simpl in H.
  destruct (outer_loop s t (row s t 0) curr 1 (length s)) as [p c] eqn:E.
  simpl in H. rewrite H by (done || lia).
  rewrite row_lookup_total by lia.
  by rewrite table_full.
Qed.

(** ** The tree as a map from lower-case paths to words *)

(** Structural induction on the tree, with the hypothesis for every
    child. *)
Lemma TrieNode_children_ind {W} (P : TrieNode W → Prop) :
  (∀ cs e w f,
     Forall (λ slot, ∀ c, slot = Some c → P c) cs → P (mkTrieNode cs e w f)) →
  ∀ node, P node.
Proof.
  intros step. fix IH 1. intros [cs e w f]. apply step.
  induction cs as [|[child|] cs IHcs]; constructor; try exact IHcs.
  - intros c [= <-]. apply IH.
  - intros c [=].
Qed.

(** ** Characters *)

Lemma code_inj c c' : code c = code c' → c = c'.
Proof.
  unfold code. intros H%Nat2Z.inj.
  by rewrite <- (ascii_nat_embedding c), H, ascii_nat_embedding.
Qed.

Lemma code_range c : 0 <= code c < 256.
Proof. unfold code. pose proof (nat_ascii_bounded c). lia. Qed.

Lemma child_index_inj c c' : child_index c = child_index c' → c = c'.
Proof. unfold child_index. intros H. apply code_inj. lia. Qed.

Lemma in_children_spec index :
  in_children index = true ↔ 0 <= index < ALPHABET_SIZE.
Proof. unfold in_children. rewrite andb_true_iff, Z.leb_le, Z.ltb_lt. done. Qed.

Lemma islower_spec c : islower c = true ↔ 97 <= code c <= 122.
Proof. unfold islower. by rewrite andb_true_iff, !Z.leb_le. Qed.

Lemma isupper_spec c : isupper c = true ↔ 65 <= code c <= 90.
Proof. unfold isupper. by rewrite andb_true_iff, !Z.leb_le. Qed.

Lemma islower_in_children c :
  islower c = true ↔ in_children (child_index c) = true.
Proof.
  rewrite islower_spec, in_children_spec. unfold child_index, ALPHABET_SIZE. lia.
Qed.

Lemma code_letter i : (i < 26)%nat → code (letter i) = 97 + Z.of_nat i.
Proof.
  intros Hi. unfold code, letter. rewrite nat_ascii_embedding by lia. lia.
Qed.

Lemma child_index_letter i :
  (i < 26)%nat → Z.to_nat (child_index (letter i)) = i.
Proof. intros Hi. unfold child_index. rewrite code_letter by done. lia. Qed.

Lemma islower_letter i : (i < 26)%nat → islower (letter i) = true.
Proof. intros Hi. rewrite islower_spec, code_letter by done. lia. Qed.

Lemma letter_child_index c :
  islower c = true → letter (Z.to_nat (child_index c)) = c.
Proof.
  intros Hc%islower_spec. apply code_inj.
  rewrite code_letter; unfold child_index; lia.
Qed.

Lemma code_tolower_upper c : isupper c = true → code (tolower c) = code c + 32.
Proof.
  intros Hc. unfold tolower. rewrite Hc. apply isupper_spec in Hc.
  unfold code in *. rewrite nat_ascii_embedding by lia. lia.
Qed.

Lemma tolower_lower c : isupper c = false → tolower c = c.
Proof. intros Hc. unfold tolower. by rewrite Hc. Qed.

Lemma islower_tolower c : isalpha c = true → islower (tolower c) = true.
Proof.
  unfold isalpha. destruct (isupper c) eqn:Hu; simpl.
  - intros _. rewrite islower_spec, code_tolower_upper by done.
    apply isupper_spec in Hu. lia.
  - intros Hl. by rewrite tolower_lower.
Qed.

Lemma tolower_idemp c : tolower (tolower c) = tolower c.
Proof.
  destruct (isupper c) eqn:Hu; [|by rewrite !(tolower_lower c Hu)].
  apply tolower_lower. apply not_true_is_false. rewrite isupper_spec.
  rewrite code_tolower_upper by done. apply isupper_spec in Hu. lia.
Qed.

Lemma isValidWord_Forall w :
  isValidWord w = true ↔ Forall (λ c, isalpha c = true) w.
Proof.
  induction w as [|c w IH]; simpl; [by split|].
  rewrite Forall_cons. destruct (isalpha c); simpl; [|naive_solver].
  rewrite IH. naive_solver.
Qed.

Lemma strtolower_lower_path w : isValidWord w = true → lower_path (strtolower w).
Proof.
  rewrite isValidWord_Forall. unfold lower_path, strtolower, toLowerCase.
  intros H. apply Forall_fmap. eapply Forall_impl; [done|].
  intros c Hc. by apply islower_tolower.
Qed.

Lemma strtolower_idemp w : strtolower (strtolower w) = strtolower w.
Proof.
  unfold strtolower, toLowerCase. rewrite <- list_fmap_compose.
  apply list_fmap_ext. intros _ c _. apply tolower_idemp.
Qed.

Lemma strtolower_nil w : strtolower w = [] ↔ w = [].
Proof. unfold strtolower, toLowerCase. by destruct w. Qed.

(** ** Walking the tree *)

Lemma children_create {W} :
  children (@createTrieNode W) = replicate (Z.to_nat ALPHABET_SIZE) None.
Proof. reflexivity. Qed.

Lemma lookup_create_children {W} i (child : TrieNode W) :
  children (@createTrieNode W) !! i ≠ Some (Some child).
Proof.
  rewrite children_create. intros H. apply lookup_replicate in H as [H _].
  discriminate.
Qed.

Lemma find_node_create {W} c rest :
  find_node (@createTrieNode W) (c :: rest) = Some None
  ∨ find_node (@createTrieNode W) (c :: rest) = None.
Proof.
  cbn [find_node]. destruct (in_children (child_index c)) eqn:Hc; [|by right].
  apply in_children_spec in Hc. left.
  rewrite children_create, lookup_replicate_2; [done|]. lia.
Qed.

Lemma word_at_create {W} path : word_at (@createTrieNode W) path = None.
Proof.
  unfold word_at. destruct path as [|c rest]; [done|].
  by destruct (find_node_create (W:=W) c rest) as [-> | ->].
Qed.

Lemma find_node_app {W} (root : TrieNode W) a b :
  find_node root (a ++ b)
  = match find_node root a with
    | Some (Some node) => find_node node b
    | r => r
    end.
Proof.
  revert root. induction a as [|c a IH]; intros root; simpl; [done|].
  destruct (in_children (child_index c)); [|done].
  destruct (children root !! Z.to_nat (child_index c)) as [[child|]|]; [|done..].
  apply IH.
Qed.

Lemma word_at_app {W} (root node : TrieNode W) a b :
  find_node root a = Some (Some node) → word_at root (a ++ b) = word_at node b.
Proof. intros H. unfold word_at. by rewrite find_node_app, H. Qed.

Lemma word_at_nil {W} (root : TrieNode W) : word_at root [] = entry_of root.
Proof. done. Qed.

Lemma word_at_cons {W} (root child : TrieNode W) c rest :
  in_children (child_index c) = true →
  children root !! Z.to_nat (child_index c) = Some (Some child) →
  word_at root (c :: rest) = word_at child rest.
Proof. intros Hc Hchild. unfold word_at. simpl. by rewrite Hc, Hchild. Qed.

Lemma word_at_cons_absent {W} (root : TrieNode W) c rest :
  children root !! Z.to_nat (child_index c) = Some None →
  word_at root (c :: rest) = None.
Proof.
  intros Hchild. unfold word_at. simpl. rewrite Hchild.
  by destruct (in_children _).
Qed.

(** A path that ends at a word is made of lower-case letters. *)
Lemma word_at_lower_path {W} (root : TrieNode W) path e :
  word_at root path = Some e → lower_path path.
Proof.
  revert root. induction path as [|c rest IH]; intros root; [by constructor|].
  unfold word_at. simpl. destruct (in_children _) eqn:Hc; [|done].
  destruct (children root !! _) as [[child|]|]; [|done..].
  intros H. constructor; [by apply islower_in_children|by eapply IH].
Qed.

(** ** The effect of an insertion *)

Lemma wf_trie_create path : wf_trie path createTrieNode.
Proof.
  constructor; [done|split; [done|by intros []]|done| |];
    intros i child H; by apply (lookup_create_children (W:=cstring)) in H.
Qed.

Lemma children_mark_end {W} (node : TrieNode W) word freq :
  children (mark_end node word freq) = children node.
Proof. unfold mark_end. by repeat case_match. Qed.

Lemma entry_of_mark_end (node : TrieNode cstring) word freq :
  (isEndOfWord node = true ↔ is_Some (originalWord node)) →
  entry_of (mark_end node word freq)
  = Some (merge_entry (entry_of node) (word, freq)).
Proof.
  intros Hend. unfold mark_end, entry_of, merge_entry.
  destruct (originalWord node) as [old|] eqn:Hold.
  - rewrite (proj2 Hend) by done. simpl. by destruct (frequency node <? freq).
  - destruct (isEndOfWord node); [|done]. by destruct (proj1 Hend eq_refl).
Qed.

Lemma insert_path_total path root lw word freq :
  wf_trie path root → lower_path lw →
  is_Some (insert_path root lw word freq).
Proof.
  intros Hwf Hlw. revert path root Hwf.
  induction Hlw as [|c rest Hc _ IH]; intros path root Hwf; cbn [insert_path];
    [done|].
  apply islower_in_children in Hc. rewrite Hc.
  apply in_children_spec in Hc. destruct Hwf as [path cs e w f Hlen _ _ Hsub _].
  cbn [children]. destruct (lookup_lt_is_Some_2 cs (Z.to_nat (child_index c))) as [slot Hslot];
    [lia|].
  rewrite Hslot. 
  destruct slot as [child|].
  - destruct (IH _ child (Hsub _ _ Hslot)) as [child' ->]. done.
  - destruct (IH (path ++ [c]) createTrieNode (wf_trie_create _)) as [child' ->]. done.
Qed.

(** The stored words after an insertion: the end of the inserted path
    holds the merged entry, every other path holds what it held. *)
Lemma word_at_insert_path path root lw word freq root' p :
  wf_trie path root →
  insert_path root lw word freq = Some root' →
  word_at root' p
  = if decide (p = lw)
    then Some (merge_entry (word_at root lw) (word, freq))
    else word_at root p.
Proof.
  revert path root root' p.
  induction lw as [|c rest IH]; intros path root root' p Hwf Hins; simpl in Hins.
  - injection Hins as <-. destruct Hwf as [path cs e w f Hlen Hend _ _ _].
    destruct p as [|c' p'].
    + rewrite decide_True, !word_at_nil by done. by apply entry_of_mark_end.
    + rewrite decide_False by done. unfold word_at. cbn [find_node].
      by rewrite children_mark_end.
  - destruct (in_children (child_index c)) eqn:Hc; [|done].
    destruct Hwf as [path cs e w f Hlen Hend Hw Hsub Hne]. simpl in Hins.
    destruct (cs !! Z.to_nat (child_index c)) as [slot|] eqn:Hslot; [|done].
    set (child := match slot with Some ch => ch | None => createTrieNode end) in *.
    destruct (insert_path child rest word freq) as [child'|] eqn:Hchild; [|done].
    simpl in Hins. injection Hins as <-.
    assert (Hwfc : wf_trie (path ++ [letter (Z.to_nat (child_index c))]) child).
    { destruct slot as [ch|]; [by apply Hsub|apply wf_trie_create]. }
    assert (Hold : ∀ q, word_at (mkTrieNode cs e w f) (c :: q) = word_at child q).
    { intros q. destruct slot as [ch|].
      - by apply word_at_cons.
      - subst child. rewrite word_at_create. by apply word_at_cons_absent. }
    assert (Hi : (Z.to_nat (child_index c) < length cs)%nat)
      by (by apply lookup_lt_Some in Hslot).
    destruct p as [|c' p'].
    + by rewrite decide_False.
    + destruct (decide (c' = c)) as [->|Hcc].
      * rewrite (word_at_cons _ child'); [|done|by apply list_lookup_insert_eq].
        rewrite (IH _ _ _ p' Hwfc Hchild), !Hold.
        destruct (decide (p' = rest)) as [->|Hp].
        -- by rewrite decide_True.
        -- rewrite decide_False; [done|congruence].
      * rewrite decide_False by congruence.
        unfold word_at. cbn [find_node children].
        destruct (in_children (child_index c')) eqn:Hc'; [|done].
        rewrite list_lookup_insert_ne; [done|].
        intros Heq. apply Hcc. symmetry. apply child_index_inj.
        apply in_children_spec in Hc, Hc'. lia.
Qed.

(** ** Terminal nodes in traversal order *)

Lemma elem_of_through_children {W X}
    (below : TrieNode W → list (list ascii * X)) k slots p e :
  (p, e) ∈ through_children below k slots
  ↔ ∃ i child p', slots !! i = Some (Some child) ∧ (p', e) ∈ below child
                  ∧ p = letter (k + i) :: p'.
Proof.
  revert k. induction slots as [|slot slots IH]; intros k; simpl.
  - split; [by intros ?%elem_of_nil|by intros (i & ? & ? & ? & _)].
  - rewrite elem_of_app, IH. split.
    + intros [H|(i & child & p' & Hi & Hp & ->)].
      * destruct slot as [child|]; [|by apply elem_of_nil in H].
        apply list_elem_of_fmap in H as ([p' e'] & [= -> ->] & H).
        exists 0%nat, child, p'. by rewrite Nat.add_0_r.
      * exists (S i), child, p'. by rewrite Nat.add_succ_r.
    + intros ([|i] & child & p' & Hi & Hp & ->); simpl in Hi.
      * left. injection Hi as ->. apply list_elem_of_fmap.
        exists (p', e). by rewrite Nat.add_0_r.
      * right. exists i, child, p'. by rewrite Nat.add_succ_r.
Qed.

Lemma terminals_unfold {W} (node : TrieNode W) :
  terminals node
  = match entry_of node with Some e => [([], e)] | None => [] end
    ++ through_children terminals 0 (children node).
Proof. by destruct node. Qed.

Lemma elem_of_terminals {W} (node : TrieNode W) p e :
  (p, e) ∈ terminals node
  ↔ (p = [] ∧ entry_of node = Some e)
    ∨ ∃ i child p', children node !! i = Some (Some child)
                    ∧ (p', e) ∈ terminals child ∧ p = letter i :: p'.
Proof.
  rewrite terminals_unfold, elem_of_app, elem_of_through_children.
  apply or_iff_compat_r. destruct (entry_of node) as [e'|].
  - rewrite list_elem_of_singleton. naive_solver.
  - split; [by intros ?%elem_of_nil|by intros [_ ?]].
Qed.

Lemma wf_trie_children_length path node :
  wf_trie path node → length (children node) = Z.to_nat ALPHABET_SIZE.
Proof. by intros []. Qed.

Lemma wf_trie_child path node i child :
  wf_trie path node → children node !! i = Some (Some child) →
  wf_trie (path ++ [letter i]) child ∧ (i < 26)%nat.
Proof.
  intros [path' cs e w f Hlen _ _ Hsub _] Hi. split; [by apply Hsub|].
  apply lookup_lt_Some in Hi. simpl in Hi. unfold ALPHABET_SIZE in *. lia.
Qed.

(** In a well-formed tree the traversal lists exactly the paths that
    end at a word. *)
Lemma terminals_word_at path node p e :
  wf_trie path node → (p, e) ∈ terminals node ↔ word_at node p = Some e.
Proof.
  revert path node. induction p as [|c p IH]; intros path node Hwf.
  - rewrite elem_of_terminals, word_at_nil. naive_solver.
  - rewrite elem_of_terminals. split.
    + intros [[? _]|(i & child & p' & Hi & Hp & [= -> ->])]; [done|].
      destruct (wf_trie_child _ _ _ _ Hwf Hi) as [Hwfc Hi26].
      rewrite (word_at_cons _ child).
      * by apply (IH _ _ Hwfc).
      * by apply islower_in_children, islower_letter.
      * by rewrite child_index_letter.
    + intros H. right. pose proof (word_at_lower_path _ _ _ H) as Hlow.
      apply Forall_cons in Hlow as [Hc _].
      unfold word_at in H. cbn [find_node] in H.
      rewrite (proj1 (islower_in_children c) Hc) in H.
      destruct (children node !! Z.to_nat (child_index c)) as [[child|]|] eqn:Hi;
        [|done..].
      exists (Z.to_nat (child_index c)), child, p.
      destruct (wf_trie_child _ _ _ _ Hwf Hi) as [Hwfc _].
      split_and!; [done| |by rewrite letter_child_index].
      by apply (IH _ _ Hwfc).
Qed.

Lemma through_children_nonempty {W X}
    (below : TrieNode W → list (list ascii * X)) k slots i child :
  slots !! i = Some (Some child) → below child ≠ [] →
  through_children below k slots ≠ [].
Proof.
  intros Hi Hne. destruct (below child) as [|[p e] l] eqn:Hb; [done|].
  intros Hnil.
  assert ((letter (k + i) :: p, e) ∈ through_children below k slots) as Hin.
  { apply elem_of_through_children. exists i, child, p.
    split_and!; [done| |done]. rewrite Hb. left. }
  rewrite Hnil in Hin. by apply elem_of_nil in Hin.
Qed.

(** ** Insertion keeps the tree well formed *)

Lemma wf_insert_path lw path root word freq root' :
  wf_trie path root → lower_path lw → strtolower word = path ++ lw →
  insert_path root lw word freq = Some root' →
  wf_trie path root' ∧ terminals root' ≠ [].
Proof.
  revert path root root'.
  induction lw as [|c rest IH]; intros path root root' Hwf Hlw Hword Hins;
    cbn [insert_path] in Hins.
  - injection Hins as <-. rewrite app_nil_r in Hword.
    destruct Hwf as [path cs e w f Hlen Hend Hw Hsub Hne].
    assert (entry_of (mark_end (mkTrieNode cs e w f) word freq) ≠ None) as Hentry.
    { by rewrite entry_of_mark_end. }
    split.
    + unfold mark_end. cbn [originalWord children frequency].
      destruct w as [old|]; [destruct (f <? freq)|];
        (constructor; [done|by split|naive_solver|done..]).
    + rewrite terminals_unfold. by destruct (entry_of _).
  - apply Forall_cons in Hlw as [Hc Hrest].
    rewrite (proj1 (islower_in_children c) Hc) in Hins.
    destruct Hwf as [path cs e w f Hlen Hend Hw Hsub Hne]. cbn [children] in Hins.
    destruct (cs !! Z.to_nat (child_index c)) as [slot|] eqn:Hslot; [|done].
    set (child := match slot with Some ch => ch | None => createTrieNode end) in *.
    destruct (insert_path child rest word freq) as [child'|] eqn:Hchild; [|done].
    simpl in Hins. injection Hins as <-.
    assert (Hwfc : wf_trie (path ++ [c]) child).
    { destruct slot as [ch|]; [|apply wf_trie_create].
      rewrite <- (letter_child_index c Hc). by apply Hsub. }
    assert (Hword' : strtolower word = (path ++ [c]) ++ rest)
      by (by rewrite <- (assoc_L (++))).
    destruct (IH _ _ _ Hwfc Hrest Hword' Hchild) as [Hwfc' Hne'].
    assert (Hi : (Z.to_nat (child_index c) < length cs)%nat)
      by (by apply lookup_lt_Some in Hslot).
    split.
    + constructor; [by rewrite length_insert|done|done| |].
      * intros i ch Hch. destruct (decide (i = Z.to_nat (child_index c))) as [->|Hi'].
        -- rewrite list_lookup_insert_eq in Hch by done. injection Hch as <-.
           by rewrite letter_child_index.
        -- rewrite list_lookup_insert_ne in Hch by done. by apply Hsub.
      * intros i ch Hch. destruct (decide (i = Z.to_nat (child_index c))) as [->|Hi'].
        -- rewrite list_lookup_insert_eq in Hch by done. by injection Hch as <-.
        -- rewrite list_lookup_insert_ne in Hch by done. by eapply Hne.
    + rewrite terminals_unfold. cbn [children]. intros Hnil.
      apply app_eq_nil in Hnil as [_ Hnil]. revert Hnil.
      apply (through_children_nonempty _ _ _ (Z.to_nat (child_index c)) child');
        [by apply list_lookup_insert_eq|done].
Qed.

(** ** Sequences of insertions *)

Lemma insertWord_valid path root word freq :
  wf_trie path root → valid_word word →
  ∃ root', insertWord root word freq = Some root'
           ∧ insert_path root (strtolower word) word freq = Some root'.
Proof.
  intros Hwf [Hne Hvalid].
  destruct (insert_path_total path root (strtolower word) word freq Hwf)
    as [root' Hroot']; [by apply strtolower_lower_path|].
  exists root'. split; [|done]. unfold insertWord. by destruct word.
Qed.

Lemma wf_insertWord root word freq root' :
  wf_trie [] root → valid_word word → insertWord root word freq = Some root' →
  wf_trie [] root'.
Proof.
  intros Hwf Hv Hins.
  destruct (insertWord_valid [] root word freq Hwf Hv) as (r & Hr & Hpath).
  rewrite Hins in Hr. injection Hr as <-.
  eapply wf_insert_path; [done|by apply strtolower_lower_path, Hv|done|done].
Qed.

Lemma word_at_insertWord root word freq root' p :
  wf_trie [] root → valid_word word → insertWord root word freq = Some root' →
  word_at root' p
  = if decide (p = strtolower word)
    then Some (merge_entry (word_at root (strtolower word)) (word, freq))
    else word_at root p.
Proof.
  intros Hwf Hv Hins.
  destruct (insertWord_valid [] root word freq Hwf Hv) as (r & Hr & Hpath).
  rewrite Hins in Hr. injection Hr as <-.
  by eapply word_at_insert_path.
Qed.

(** Valid entries are all inserted: the program never steps outside a
    [children] array. *)
Lemma insertAll_total root entries :
  wf_trie [] root → valid_entries entries →
  ∃ root', insertAll root entries = Some root' ∧ wf_trie [] root'.
Proof.
  intros Hwf Hvalid. revert root Hwf.
  induction Hvalid as [|[word freq] entries Hv _ IH]; intros root Hwf; simpl.
  - by exists root.
  - destruct (insertWord_valid [] root word freq Hwf Hv) as (r & Hr & _).
    rewrite Hr. simpl. apply IH. by eapply wf_insertWord.
Qed.

Lemma insertAll_app root entries1 entries2 :
  insertAll root (entries1 ++ entries2)
  = insertAll root entries1 ≫= λ root', insertAll root' entries2.
Proof.
  revert root. induction entries1 as [|[word freq] entries1 IH]; intros root;
    simpl; [done|].
  destruct (insertWord root word freq) as [r|]; simpl; [apply IH|done].
Qed.

Lemma wf_insertAll root entries root' :
  wf_trie [] root → valid_entries entries →
  insertAll root entries = Some root' → wf_trie [] root'.
Proof.
  intros Hwf Hv Hins. destruct (insertAll_total root entries Hwf Hv) as (r & Hr & ?).
  congruence.
Qed.

(** ** What a sequence of insertions stores *)

Lemma merged_snoc old occ e :
  merged old (occ ++ [e]) = Some (merge_entry (merged old occ) e).
Proof. unfold merged. by rewrite fold_left_app. Qed.

Lemma word_at_insertAll root entries root' p :
  wf_trie [] root → valid_entries entries →
  insertAll root entries = Some root' →
  word_at root' p
  = merged (word_at root p) (filter (λ e, strtolower e.1 = p) entries).
Proof.
  intros Hwf Hvalid. revert root Hwf.
  induction Hvalid as [|[word freq] entries Hv _ IH]; intros root Hwf Hins;
    simpl in Hins.
  - by injection Hins as <-.
  - destruct (insertWord root word freq) as [r|] eqn:Hr; [|done]. simpl in Hins.
    rewrite (IH r) by (done || by eapply wf_insertWord).
    rewrite (word_at_insertWord root word freq r p) by done.
    rewrite filter_cons. cbn [fst]. case_decide as Hp; case_decide; try congruence.
    by subst p.
Qed.

(** The merged entry is the first of the insertions with the largest
    frequency. *)
Lemma merged_first_maximum occ :
  occ ≠ [] →
  ∃ pre best post,
    occ = pre ++ best :: post
    ∧ Forall (λ e, e.2 < best.2) pre
    ∧ Forall (λ e, e.2 <= best.2) post
    ∧ merged None occ = Some best.
Proof.
  induction occ as [|e occ IH] using rev_ind; [done|]. intros _.
  rewrite merged_snoc. destruct occ as [|e0 occ'] using rev_ind.
  - exists [], e, []. by repeat split.
  - clear IHocc'. destruct IH as (pre & best & post & Hocc & Hpre & Hpost & Hm).
    { by destruct occ'. }
    rewrite Hm. unfold merge_entry. destruct (best.2 <? e.2) eqn:Hlt.
    + apply Z.ltb_lt in Hlt. exists (occ' ++ [e0]), e, [].
      split_and!; [done| |done|done].
      rewrite Hocc. apply Forall_app. split.
      * eapply Forall_impl; [done|]. simpl. lia.
      * constructor; [lia|]. eapply Forall_impl; [done|]. simpl. lia.
    + apply Z.ltb_ge in Hlt. exists pre, best, (post ++ [e]).
      split_and!; [by rewrite Hocc, <- (assoc_L (++))|done| |done].
      apply Forall_app. split; [done|]. by constructor.
Qed.

Lemma merged_is_Some old occ :
  is_Some (merged old occ) ↔ is_Some old ∨ occ ≠ [].
Proof.
  destruct occ as [|e occ] using rev_ind.
  - unfold merged. simpl. naive_solver.
  - rewrite merged_snoc. split; [intros _; right; by destruct occ|done].
Qed.

Lemma word_at_Some {W} (root : TrieNode W) path word freq :
  word_at root path = Some (word, freq)
  ↔ ∃ node, find_node root path = Some (Some node)
            ∧ isEndOfWord node = true ∧ originalWord node = Some word
            ∧ frequency node = freq.
Proof.
  unfold word_at, entry_of. split.
  - destruct (find_node root path) as [[node|]|]; [|done..].
    destruct (isEndOfWord node) eqn:He; [|done].
    destruct (originalWord node) as [w|] eqn:Hw; [|done].
    intros [= -> <-]. by exists node.
  - intros (node & -> & -> & -> & <-). done.
Qed.

(** The node a walk reaches is well formed for the path walked. *)
Lemma wf_find_node path0 root path node :
  wf_trie path0 root → find_node root path = Some (Some node) →
  wf_trie (path0 ++ path) node.
Proof.
  revert path0 root. induction path as [|c path IH]; intros path0 root Hwf Hfind.
  - injection Hfind as <-. by rewrite app_nil_r.
  - cbn [find_node] in Hfind.
    destruct (in_children (child_index c)) eqn:Hc; [|done].
    destruct (children root !! Z.to_nat (child_index c)) as [[child|]|] eqn:Hi;
      [|done..].
    destruct (wf_trie_child _ _ _ _ Hwf Hi) as [Hwfc _].
    rewrite letter_child_index in Hwfc by (by apply islower_in_children).
    rewrite (cons_middle c), (assoc_L (++)). by apply (IH _ child).
Qed.

Lemma wf_trie_word path node :
  wf_trie path node → isEndOfWord node = true →
  ∃ w, originalWord node = Some w ∧ strtolower w = path.
Proof.
  intros [path' cs e w f _ Hend Hw _ _] He. simpl in *.
  destruct (proj1 Hend He) as [word ->]. exists word. split; [done|by apply Hw].
Qed.

Lemma wf_word_at root path word freq :
  wf_trie [] root → word_at root path = Some (word, freq) →
  strtolower word = path.
Proof.
  intros Hwf (node & Hfind & He & Hw & _)%word_at_Some.
  pose proof (wf_find_node _ _ _ _ Hwf Hfind) as Hwfn. simpl in Hwfn.
  destruct (wf_trie_word _ _ Hwfn He) as (w & Hw' & Hpath). congruence.
Qed.

(** *** The traversal meets every path once *)

Lemma letter_inj i j : (i < 26)%nat → (j < 26)%nat → letter i = letter j → i = j.
Proof.
  intros Hi Hj H. apply (f_equal code) in H. rewrite !code_letter in H by done. lia.
Qed.

Lemma fst_prod_map_cons {X} c (l : list (list ascii * X)) :
  (prod_map (cons c) id <$> l).*1 = cons c <$> l.*1.
Proof. induction l as [|[p e] l IH]; [done|]. rewrite !fmap_cons. by f_equal. Qed.

Lemma NoDup_through_children {W X}
    (below : TrieNode W → list (list ascii * X)) k slots :
  (k + length slots ≤ 26)%nat →
  (∀ i child, slots !! i = Some (Some child) → NoDup (below child).*1) →
  NoDup (through_children below k slots).*1.
Proof.
  revert k. induction slots as [|slot slots IH]; intros k Hlen Hsub; simpl in *.
  - constructor.
  - rewrite fmap_app. apply NoDup_app. split_and!.
    + destruct slot as [child|]; [|constructor].
      rewrite fst_prod_map_cons. apply NoDup_fmap; [intros ?? [=]; done|].
      by apply (Hsub 0%nat).
    + intros p Hp Hp'. destruct slot as [child|]; [|by apply elem_of_nil in Hp].
      apply list_elem_of_fmap in Hp as ([p1 e1] & -> & H1).
      apply list_elem_of_fmap in H1 as ([p1' e1'] & [= -> ->] & H1).
      apply list_elem_of_fmap in Hp' as ([p2 e2] & Heq & H2). simpl in Heq.
      apply elem_of_through_children in H2 as (i & ch & p2' & Hi & _ & ->).
      injection Heq as Heq _. apply lookup_lt_Some in Hi.
      apply letter_inj in Heq; lia.
    + apply IH; [lia|]. intros i child Hi. by apply (Hsub (S i)).
Qed.

Lemma NoDup_terminals path node : wf_trie path node → NoDup (terminals node).*1.
Proof.
  revert path. induction node as [cs e w f IH] using TrieNode_children_ind.
  intros path Hwf. rewrite terminals_unfold, fmap_app. cbn [children].
  pose proof (wf_trie_children_length _ _ Hwf) as Hlen. cbn [children] in Hlen.
  apply NoDup_app. split_and!.
  - destruct (entry_of _); repeat constructor. by intros ?%elem_of_nil.
  - intros p Hp Hp'. assert (p = []) as ->.
    { destruct (entry_of _); [|by apply elem_of_nil in Hp].
      by apply list_elem_of_singleton in Hp. }
    apply list_elem_of_fmap in Hp' as ([p2 e2] & Heq & H2). simpl in Heq.
    by apply elem_of_through_children in H2 as (i & ch & p2' & _ & _ & ->).
  - apply NoDup_through_children; [unfold ALPHABET_SIZE in Hlen; lia|].
    intros i child Hi.
    destruct (wf_trie_child _ _ _ _ Hwf Hi) as [Hwfc _].
    rewrite Forall_lookup in IH. by eapply (IH i _ Hi child).
Qed.

Lemma NoDup_count_occ (l : list (list ascii)) (x : list ascii) :
  NoDup l →
  length (filter (λ y, y = x) l) = if decide (x ∈ l) then 1%nat else 0%nat.
Proof.
  induction 1 as [|y l Hy Hl IH]; [done|].
  rewrite filter_cons. destruct (decide (y = x)) as [->|Hne].
  - simpl. rewrite IH. rewrite decide_False by done.
    rewrite decide_True by left. done.
  - rewrite IH. destruct (decide (x ∈ l)) as [Hin|Hnin].
    + by rewrite decide_True by (by right).
    + rewrite decide_False; [done|]. by intros [?|?]%elem_of_cons.
Qed.

Lemma filter_nonempty_elem_of (entries : list (cstring * Z)) (lw : list ascii) :
  filter (λ e, strtolower e.1 = lw) entries ≠ []
  ↔ lw ∈ (strtolower ∘ fst) <$> entries.
Proof.
  rewrite list_elem_of_fmap. split.
  - destruct (filter _ entries) as [|e l] eqn:Hf; [done|]. intros _.
    assert (e ∈ filter (λ e, strtolower e.1 = lw) entries) as Hin
      by (rewrite Hf; left).
    apply list_elem_of_filter in Hin as [He Hin]. by exists e.
  - intros (e & Heq & Hin) Hnil.
    assert (e ∈ filter (λ e0, strtolower e0.1 = lw) entries) as Hin'
      by (apply list_elem_of_filter; split; [by rewrite Heq|done]).
    rewrite Hnil in Hin'. by apply elem_of_nil in Hin'.
Qed.

Lemma stored_path_inserted entries root lw :
  valid_entries entries → insertAll createTrieNode entries = Some root →
  is_Some (word_at root lw) ↔ lw ∈ (strtolower ∘ fst) <$> entries.
Proof.
  intros Hvalid Hins.
  rewrite (word_at_insertAll _ _ _ lw (wf_trie_create []) Hvalid Hins).
  rewrite word_at_create, merged_is_Some, <- filter_nonempty_elem_of.
  split; [by intros [[]%is_Some_None|]|by right].
Qed.

(** How many entries of a list without repeated paths satisfy a test that
    singles out one path. *)
Lemma count_one_path {X} (l : list (list ascii * X)) (Q : list ascii * X → Prop)
    `{!∀ t, Decision (Q t)} (lw : list ascii) :
  (∀ t, t ∈ l → Q t ↔ t.1 = lw) → NoDup l.*1 →
  length (filter Q l) = if decide (lw ∈ l.*1) then 1%nat else 0%nat.
Proof.
  induction l as [|t l IH]; intros HQ Hnd; [done|].
  rewrite fmap_cons in Hnd. apply NoDup_cons in Hnd as [Hnin Hnd].
  rewrite filter_cons, fmap_cons.
  specialize (IH (λ t' Ht', HQ t' (list_elem_of_further _ _ _ Ht')) Hnd).
  destruct (decide (Q t)) as [Ht|Ht].
  - apply HQ in Ht as <-; [|left]. simpl. rewrite IH.
    rewrite decide_False by done. by rewrite decide_True by left.
  - rewrite IH. destruct (decide (lw ∈ l.*1)) as [Hin|Hnin'].
    + by rewrite decide_True by (by right).
    + rewrite decide_False; [done|]. intros [->|?]%elem_of_cons; [|done].
      apply Ht, HQ; [left|done].
Qed.

(** C3. When a word is inserted several times (in any mix of cases, with
    other words in between), the node at the end of its lower-case path
    holds the largest of the frequencies given, with the spelling of the
    first insertion that carried that frequency: every earlier insertion
    of the word had a strictly smaller frequency, and no later one has a
    larger one. *)
Theorem insertWord_keeps_first_maximum
    (entries : list (cstring * Z)) (w : cstring) :
  valid_entries entries →
  insertions_of w entries ≠ [] →
  ∃ root pre best post node,
    insertAll createTrieNode entries = Some root
    ∧ insertions_of w entries = pre ++ best :: post
    ∧ Forall (λ e, e.2 < best.2) pre
    ∧ Forall (λ e, e.2 <= best.2) post
    ∧ find_node root (strtolower w) = Some (Some node)
    ∧ isEndOfWord node = true
    ∧ originalWord node = Some best.1
    ∧ frequency node = best.2
    ∧ Forall (λ e, e.2 <= frequency node) (insertions_of w entries).
Proof.
  intros Hvalid Hocc.
  destruct (insertAll_total createTrieNode entries (wf_trie_create []) Hvalid)
    as (root & Hroot & Hwf).
  destruct (merged_first_maximum _ Hocc) as (pre & best & post & Hsplit & Hpre & Hpost & Hm).
  pose proof (word_at_insertAll _ _ _ (strtolower w) (wf_trie_create []) Hvalid Hroot)
    as Hat.
  rewrite word_at_create in Hat. fold (insertions_of w entries) in Hat.
  rewrite Hm in Hat. destruct best as [bw bf].
  apply word_at_Some in Hat as (node & Hfind & He & Hw & Hf).
  exists root, pre, (bw, bf), post, node. split_and!; try done.
  rewrite Hsplit, Hf. apply Forall_app. split.
  - eapply Forall_impl; [exact Hpre|]. simpl. lia.
  - constructor; [simpl; lia|done].
Qed.

(** C8. In the tree built from the empty one by inserting valid words,
    the letters on the path to a node that ends a word are, case folded,
    the case-folded word the node holds (the path is that lower-case
    word); and the traversal of the tree meets exactly one such node for
    each case-folded word inserted, and none for any other word. *)
Theorem terminal_nodes_spell_their_words (entries : list (cstring * Z)) :
  valid_entries entries →
  ∃ root,
    insertAll createTrieNode entries = Some root
    ∧ (∀ path node,
         find_node root path = Some (Some node) → isEndOfWord node = true →
         ∃ w, originalWord node = Some w
              ∧ strtolower path = strtolower w ∧ path = strtolower w)
    ∧ (∀ path,
         (∃ node, find_node root path = Some (Some node)
                  ∧ isEndOfWord node = true)
         ↔ path ∈ (terminals root).*1)
    ∧ (∀ lw,
         length (filter (λ t, strtolower t.2.1 = lw) (terminals root))
         = if decide (lw ∈ (strtolower ∘ fst) <$> entries)
           then 1%nat else 0%nat).
Proof.
  intros Hvalid.
  destruct (insertAll_total createTrieNode entries (wf_trie_create []) Hvalid)
    as (root & Hroot & Hwf).
  exists root. split; [done|].
  assert (Hnode : ∀ path node,
             find_node root path = Some (Some node) → isEndOfWord node = true →
             ∃ w, originalWord node = Some w ∧ path = strtolower w).
  { intros path node Hfind He.
    pose proof (wf_find_node _ _ _ _ Hwf Hfind) as Hwfn. simpl in Hwfn.
    destruct (wf_trie_word _ _ Hwfn He) as (w & Hw & Hpath). by exists w. }
  assert (Hpaths : ∀ path,
             path ∈ (terminals root).*1 ↔ is_Some (word_at root path)).
  { intros path. rewrite list_elem_of_fmap. split.
    - intros ([p e] & -> & Hin). apply (terminals_word_at [] root) in Hin; [|done].
      simpl. by rewrite Hin.
    - intros [e He]. exists (path, e). split; [done|].
      by apply (terminals_word_at [] root). }
  split_and!.
  - intros path node Hfind He. destruct (Hnode path node Hfind He) as (w & Hw & ->).
    exists w. by rewrite strtolower_idemp.
  - intros path. rewrite Hpaths. split.
    + intros (node & Hfind & He). destruct (Hnode path node Hfind He) as (w & Hw & _).
      exists (w, frequency node). apply word_at_Some. by exists node.
    + intros [[w f] (node & ? & ? & _)%word_at_Some]. by exists node.
  - intros lw. rewrite (count_one_path _ _ lw).
    + destruct (decide (lw ∈ (terminals root).*1)) as [Hin|Hnin];
        rewrite Hpaths, (stored_path_inserted entries root lw Hvalid Hroot) in *.
      * by rewrite decide_True.
      * by rewrite decide_False.
    + intros [p [w f]] Hin. apply (terminals_word_at [] root) in Hin; [|done].
      apply wf_word_at in Hin; [|done]. simpl. by rewrite Hin.
    + by apply (NoDup_terminals []).
Qed.

(** ** The suggestion list keeps the best entries *)

Lemma worse_entry_spec {W} (a b : Suggestion W) :
  worse_entry a b = true ↔ ¬ ranks_before a b.
Proof.
  unfold worse_entry, ranks_before.
  rewrite orb_true_iff, andb_true_iff, !Z.ltb_lt, Z.eqb_eq. lia.
Qed.

Lemma better_than_spec {W} dist freq (worst : Suggestion W) :
  better_than dist freq worst = true
  ↔ dist < sug_distance worst
    ∨ (dist = sug_distance worst ∧ sug_frequency worst < freq).
Proof.
  unfold better_than. by rewrite orb_true_iff, andb_true_iff, !Z.ltb_lt, Z.eqb_eq.
Qed.

Lemma ranks_before_trans {W} (a b c : Suggestion W) :
  ranks_before a b → ranks_before b c → ranks_before a c.
Proof. unfold ranks_before. lia. Qed.

Lemma ranks_before_refl {W} (a : Suggestion W) : ranks_before a a.
Proof. unfold ranks_before. lia. Qed.

(** The scan returns an index below the bound whose entry every entry
    scanned ranks before. *)
Lemma find_worst_spec {W} (sugs : list (Suggestion W)) worst_idx i n :
  (worst_idx < i)%nat →
  (∀ k, (k < i)%nat → ranks_before (sugs !!! k) (sugs !!! worst_idx)) →
  let r := find_worst sugs worst_idx i n in
  (r < i + n)%nat
  ∧ ∀ k, (k < i + n)%nat → ranks_before (sugs !!! k) (sugs !!! r).
Proof.
  revert worst_idx i. induction n as [|n IH]; intros worst_idx i Hw Hinv; simpl.
  - rewrite Nat.add_0_r. done.
  - rewrite Nat.add_succ_r, <- Nat.add_succ_l.
    destruct (worse_entry (sugs !!! i) (sugs !!! worst_idx)) eqn:Hworse.
    + apply IH; [lia|]. intros k Hk.
      apply worse_entry_spec in Hworse.
      destruct (decide (k = i)) as [->|Hne]; [apply ranks_before_refl|].
      apply ranks_before_trans with (sugs !!! worst_idx); [apply Hinv; lia|].
      unfold ranks_before in *. lia.
    + apply IH; [lia|]. intros k Hk.
      destruct (decide (k = i)) as [->|Hne]; [|apply Hinv; lia].
      destruct (worse_entry _ _) eqn:E in Hworse; [done|].
      apply not_true_iff_false in E. rewrite worse_entry_spec in E.
      by apply dec_stable in E.
Qed.

(** C4. On a list that holds its ten entries, [addSuggestion] picks an
    entry that is worst (no entry has a larger distance, and none of the
    entries at that distance has a smaller frequency) and overwrites it
    with the offered one exactly when the offer is strictly better: a
    smaller distance, or the same distance and a larger frequency.
    Otherwise the list is returned as it was. *)
Theorem addSuggestion_replaces_worst
    (sl : SuggestionList cstring) (word : cstring) (dist freq : Z) :
  count sl = Z.to_nat MAX_SUGGESTIONS →
  length (suggestions sl) = Z.to_nat MAX_SUGGESTIONS →
  ∃ worst_idx worst,
    suggestions sl !! worst_idx = Some worst
    ∧ (∀ e, e ∈ suggestions sl →
         sug_distance e <= sug_distance worst
         ∧ (sug_distance e = sug_distance worst →
            sug_frequency worst <= sug_frequency e))
    ∧ (dist < sug_distance worst
       ∨ (dist = sug_distance worst ∧ sug_frequency worst < freq) →
       addSuggestion sl word dist freq
       = mkSuggestionList
           (<[worst_idx := mkSuggestion (Some word) dist freq]> (suggestions sl))
           (count sl))
    ∧ (¬ (dist < sug_distance worst
          ∨ (dist = sug_distance worst ∧ sug_frequency worst < freq)) →
       addSuggestion sl word dist freq = sl).
Proof.
  intros Hcount Hlen.
  pose proof (find_worst_spec (suggestions sl) 0 1 (Z.to_nat MAX_SUGGESTIONS - 1))
    as Hscan.
  destruct Hscan as [Hidx Hworst]; [lia| |].
  { intros k Hk. replace k with 0%nat by lia. apply ranks_before_refl. }
  set (worst_idx := find_worst (suggestions sl) 0 1 (Z.to_nat MAX_SUGGESTIONS - 1)) in *.
  assert (Hten : (1 + (Z.to_nat MAX_SUGGESTIONS - 1) = length (suggestions sl))%nat)
    by (rewrite Hlen; unfold MAX_SUGGESTIONS; lia).
  rewrite Hten in Hidx, Hworst.
  destruct (lookup_lt_is_Some_2 (suggestions sl) worst_idx Hidx) as [worst Hlookup].
  pose proof (list_lookup_total_correct _ _ _ Hlookup) as Htotal.
  exists worst_idx, worst. split; [done|].
  assert (Hfull : (Z.of_nat (count sl) <? MAX_SUGGESTIONS) = false).
  { apply Z.ltb_ge. rewrite Hcount. unfold MAX_SUGGESTIONS. lia. }
  split_and!.
  - intros e [k Hk]%list_elem_of_lookup.
    pose proof (lookup_lt_Some _ _ _ Hk) as Hklt.
    specialize (Hworst k Hklt).
    rewrite (list_lookup_total_correct _ _ _ Hk), Htotal in Hworst.
    unfold ranks_before in Hworst. lia.
  - intros Hbetter. unfold addSuggestion. rewrite Hfull.
    fold worst_idx. rewrite Htotal.
    by rewrite (proj2 (better_than_spec dist freq worst) Hbetter).
  - intros Hnot. unfold addSuggestion. rewrite Hfull.
    fold worst_idx. rewrite Htotal.
    destruct (better_than dist freq worst) eqn:Hb; [|done].
    by apply better_than_spec in Hb.
Qed.

(** ** Traversals as folds over the terminal nodes *)

Lemma fold_left_prod_map {St X} (step : St → X → St) (g : list ascii → list ascii)
    (l : list (list ascii * X)) (s : St) :
  fold_left (λ s t, step s t.2) (prod_map g id <$> l) s
  = fold_left (λ s t, step s t.2) l s.
Proof. revert s. induction l as [|[p e] l IH]; intros s; simpl; [done|apply IH]. Qed.

(** A traversal that handles the node, then its children in order, is a
    fold over the terminal nodes. *)
Lemma traversal_fold {W St} (step : St → W * Z → St)
    (trav : TrieNode W → St → St) :
  (∀ node s,
     trav node s
     = fold_left (λ s slot, match slot with Some c => trav c s | None => s end)
         (children node)
         (match entry_of node with Some e => step s e | None => s end)) →
  ∀ node s, trav node s = fold_left (λ s t, step s t.2) (terminals node) s.
Proof.
  intros Hunfold node.
  induction node as [cs e w f IH] using TrieNode_children_ind. intros s.
  rewrite Hunfold, terminals_unfold, fold_left_app. cbn [children].
  replace (fold_left (λ s t, step s t.2)
             match entry_of (mkTrieNode cs e w f) with
             | Some e0 => [([], e0)] | None => [] end s)
    with (match entry_of (mkTrieNode cs e w f) with
          | Some e0 => step s e0 | None => s end)
    by (by destruct (entry_of _)).
  generalize (match entry_of (mkTrieNode cs e w f) with
              | Some e0 => step s e0 | None => s end).
  generalize 0%nat. clear s.
  induction IH as [|slot cs Hslot _ IHcs]; intros k s; simpl; [done|].
  rewrite fold_left_app, (IHcs (S k)). f_equal.
  destruct slot as [child|]; [|done].
  by rewrite fold_left_prod_map, (Hslot child).
Qed.

Lemma collectSuggestions_terminals node sl :
  collectSuggestions node sl
  = fold_left (λ sl t, offer_word sl t.2) (terminals node) sl.
Proof.
  apply (traversal_fold offer_word collectSuggestions). clear.
  intros [cs e w f] sl. unfold entry_of, offer_word. simpl.
  by destruct e, w.
Qed.

Lemma collectAllWords_terminals node dict :
  collectAllWords node dict
  = fold_left (λ dict t, add_word dict t.2) (terminals node) dict.
Proof.
  apply (traversal_fold add_word collectAllWords). clear.
  intros [cs e w f] dict. unfold entry_of, add_word. simpl.
  by destruct e, w.
Qed.

(** The dictionary is the first thousand words of the traversal. *)
Lemma add_words_take (l : list (list ascii * (cstring * Z))) dict :
  (length dict ≤ Z.to_nat MAX_WORDS)%nat →
  fold_left (λ dict t, add_word dict t.2) l dict
  = dict ++ take (Z.to_nat MAX_WORDS - length dict) ((λ t, t.2.1) <$> l).
Proof.
  revert dict. induction l as [|t l IH]; intros dict Hlen; simpl.
  - by rewrite take_nil, app_nil_r.
  - unfold add_word at 2. destruct (_ <? _) eqn:Hlt.
    + apply Z.ltb_lt in Hlt. rewrite IH by (rewrite length_app; simpl; lia).
      rewrite length_app. simpl.
      replace (Z.to_nat MAX_WORDS - length dict)%nat
        with (S (Z.to_nat MAX_WORDS - (length dict + 1)))%nat by lia.
      simpl. by rewrite <- (assoc_L (++)).
    + apply Z.ltb_ge in Hlt. rewrite IH by done.
      replace (Z.to_nat MAX_WORDS - length dict)%nat with 0%nat by lia.
      by rewrite !take_0.
Qed.

Lemma collectAllWords_take root :
  collectAllWords root []
  = take (Z.to_nat MAX_WORDS) ((λ t, t.2.1) <$> terminals root).
Proof.
  rewrite collectAllWords_terminals, add_words_take by (simpl; lia).
  cbn [length app]. by rewrite Nat.sub_0_r.
Qed.

(** ** What a suggestion list retains *)

Lemma list_ok_init {W} : list_ok (@initSuggestionList W).
Proof. split; [done|simpl; lia]. Qed.

Lemma kept_init {W} : kept (@initSuggestionList W) = [].
Proof. done. Qed.

Lemma find_worst_lt {W} (sugs : list (Suggestion W)) n :
  (find_worst sugs 0 1 n < 1 + n)%nat.
Proof.
  apply (find_worst_spec sugs 0 1 n); [lia|].
  intros k Hk. replace k with 0%nat by lia. apply ranks_before_refl.
Qed.

Lemma addSuggestion_kept sl word dist freq :
  list_ok sl →
  list_ok (addSuggestion sl word dist freq)
  ∧ count (addSuggestion sl word dist freq)
    = (S (count sl) `min` Z.to_nat MAX_SUGGESTIONS)%nat
  ∧ ∀ s, s ∈ kept (addSuggestion sl word dist freq) →
         s ∈ kept sl ∨ s = mkSuggestion (Some word) dist freq.
Proof.
  intros [Hlen Hcount]. unfold addSuggestion.
  destruct (Z.of_nat (count sl) <? MAX_SUGGESTIONS) eqn:Hroom.
  - apply Z.ltb_lt in Hroom. unfold list_ok, kept. cbn [suggestions count].
    rewrite length_insert. split_and!; [done|lia|lia|].
    intros s. rewrite (take_S_r _ _ (mkSuggestion (Some word) dist freq))
      by (apply list_lookup_insert_eq; lia).
    rewrite take_insert_ge by lia. rewrite elem_of_app, list_elem_of_singleton. done.
  - apply Z.ltb_ge in Hroom.
    set (worst_idx := find_worst _ _ _ _).
    destruct (better_than _ _ _).
    + unfold list_ok, kept. cbn [suggestions count]. rewrite length_insert.
      split_and!; [done|lia|lia|].
      intros s [k Hk]%list_elem_of_lookup.
      apply lookup_take_Some in Hk as [Hk Hklt].
      destruct (decide (k = worst_idx)) as [->|Hne].
      * right. rewrite list_lookup_insert_eq in Hk; [congruence|].
        pose proof (find_worst_lt (suggestions sl) (Z.to_nat MAX_SUGGESTIONS - 1)).
        fold worst_idx in H. unfold MAX_SUGGESTIONS in *. lia.
      * left. rewrite list_lookup_insert_ne in Hk by done.
        apply list_elem_of_lookup. exists k. by apply lookup_take_Some.
    + split_and!; [done|lia|by left].
Qed.

(** After a run of offers the list holds ten of them at most, each one
    kept from before or offered in the run. *)
Lemma offers_kept {X} (step : SuggestionList cstring → X → SuggestionList cstring)
    (entry : X → Suggestion cstring) (offers : list X) sl :
  (∀ sl x, ∃ w, sug_word (entry x) = Some w
     ∧ step sl x = addSuggestion sl w (sug_distance (entry x)) (sug_frequency (entry x))) →
  list_ok sl →
  list_ok (fold_left step offers sl)
  ∧ count (fold_left step offers sl)
    = ((count sl + length offers) `min` Z.to_nat MAX_SUGGESTIONS)%nat
  ∧ ∀ s, s ∈ kept (fold_left step offers sl) →
         s ∈ kept sl ∨ ∃ x, x ∈ offers ∧ s = entry x.
Proof.
  intros Hstep. revert sl. induction offers as [|x offers IH]; intros sl Hok; simpl.
  - split_and!; [done|destruct Hok; lia|by left].
  - destruct (Hstep sl x) as (w & Hw & Hx).
    destruct (addSuggestion_kept sl w (sug_distance (entry x))
                (sug_frequency (entry x)) Hok) as (Hok' & Hcount' & Hkept').
    rewrite <- Hx in *. destruct (IH _ Hok') as (Hok'' & Hcount'' & Hkept'').
    split_and!; [done|lia|].
    intros s [Hs|(x' & Hx' & ->)]%Hkept''.
    + apply Hkept' in Hs as [?| ->]; [by left|]. right. exists x.
      split; [left|]. destruct (entry x); simpl in *. by subst.
    + right. exists x'. split; [by right|done].
Qed.

(** ** Sorting the suggestions *)

Lemma compareSuggestions_in_range {W} (a b : Suggestion W) :
  in_range a → in_range b →
  compareSuggestions a b
  = if decide (sug_distance a = sug_distance b)
    then sug_frequency b - sug_frequency a
    else sug_distance a - sug_distance b.
Proof.
  intros [Hda Hfa] [Hdb Hfb]. unfold compareSuggestions, INT_MAX in *.
  destruct (sug_distance a =? sug_distance b) eqn:Heq; simpl.
  - apply Z.eqb_eq in Heq. rewrite decide_True by done. apply wrap_small.
    unfold INT_MAX. lia.
  - apply Z.eqb_neq in Heq. rewrite decide_False by done. apply wrap_small.
    unfold INT_MAX. lia.
Qed.

Lemma compareSuggestions_ranks {W} (a b : Suggestion W) :
  in_range a → in_range b →
  compareSuggestions a b <= 0 ↔ ranks_before a b.
Proof.
  intros Ha Hb. rewrite compareSuggestions_in_range by done.
  unfold ranks_before. case_decide; lia.
Qed.

Lemma compareSuggestions_consistent {W} (l : list (Suggestion W)) :
  Forall in_range l → consistent_on compareSuggestions l.
Proof.
  rewrite Forall_forall. intros Hl. split.
  - intros x y Hx Hy.
    rewrite !(compareSuggestions_in_range x y), !(compareSuggestions_in_range y x)
      by auto.
    repeat case_decide; lia.
  - intros x y z Hx Hy Hz. rewrite !compareSuggestions_ranks by auto.
    apply ranks_before_trans.
Qed.

Lemma ascending_ranks {W} (l : list (Suggestion W)) :
  Forall in_range l → ascending compareSuggestions l →
  StronglySorted ranks_before l.
Proof.
  intros Hl Hasc. induction Hasc as [|x l Hsorted IH Hx]; [constructor|].
  apply Forall_cons in Hl as [Hrx Hl]. constructor; [by apply IH|].
  rewrite Forall_forall in Hx, Hl |- *. intros y Hy.
  apply compareSuggestions_ranks; auto.
Qed.

Section with_qsort.
Variable qsort : ∀ A : Type, (A → A → Z) → list A → list A.
Hypothesis qsort_ok : qsort_contract qsort.

(** What is printed is the sorted arrangement of the entries in use. *)
Lemma printed_qsort {W} (sl : SuggestionList W) :
  list_ok sl →
  printed (qsort_prefix (qsort _ compareSuggestions) (suggestions sl) (count sl))
    (count sl)
  = qsort _ compareSuggestions (kept sl).
Proof.
  intros [Hlen Hcount]. unfold printed, qsort_prefix. fold (kept sl).
  destruct (qsort_ok _ compareSuggestions (kept sl)) as [Hperm _].
  apply Permutation_length in Hperm.
  assert (length (kept sl) = count sl) as Hk
    by (unfold kept; rewrite length_take; lia).
  rewrite Nat.min_l by lia. rewrite take_app_le by lia.
  apply take_ge. lia.
Qed.

Lemma printed_sorted {W} (sl : SuggestionList W) :
  list_ok sl → Forall in_range (kept sl) →
  let l := printed
             (qsort_prefix (qsort _ compareSuggestions) (suggestions sl) (count sl))
             (count sl) in
  l ≡ₚ kept sl ∧ StronglySorted ranks_before l
  ∧ (length l ≤ Z.to_nat MAX_SUGGESTIONS)%nat.
Proof.
  intros Hok Hrange. cbv zeta. rewrite printed_qsort by done.
  destruct (qsort_ok _ compareSuggestions (kept sl)) as [Hperm Hsorted].
  split_and!; [done| |].
  - apply ascending_ranks; [by rewrite Hperm|].
    by apply Hsorted, compareSuggestions_consistent.
  - rewrite Hperm. unfold kept. rewrite length_take. destruct Hok. lia.
Qed.
End with_qsort.

(** ** Prefix search *)

Lemma find_node_total path root lp :
  wf_trie path root → lower_path lp → is_Some (find_node root lp).
Proof.
  intros Hwf Hlp. revert path root Hwf.
  induction Hlp as [|c lp Hc _ IH]; intros path root Hwf; cbn [find_node]; [done|].
  apply islower_in_children in Hc. rewrite Hc. apply in_children_spec in Hc.
  pose proof (wf_trie_children_length _ _ Hwf) as Hlen.
  destruct (lookup_lt_is_Some_2 (children root) (Z.to_nat (child_index c)))
    as [[child|] Hslot]; [lia| |]; rewrite Hslot; [|done].
  destruct (wf_trie_child _ _ _ _ Hwf Hslot) as [Hwfc _]. by eapply IH.
Qed.

Lemma merged_elem_of occ e : merged None occ = Some e → e ∈ occ.
Proof.
  intros Hm. destruct (decide (occ = [])) as [->|Hne]; [done|].
  destruct (merged_first_maximum occ Hne) as (pre & best & post & -> & _ & _ & Hb).
  rewrite Hb in Hm. injection Hm as <-. apply elem_of_app. right. left.
Qed.

(** Every stored word was inserted, with that frequency. *)
Lemma stored_inserted entries root path e :
  valid_entries entries → insertAll createTrieNode entries = Some root →
  word_at root path = Some e → e ∈ entries.
Proof.
  intros Hvalid Hins Hat.
  rewrite (word_at_insertAll _ _ _ path (wf_trie_create []) Hvalid Hins) in Hat.
  rewrite word_at_create in Hat. apply merged_elem_of in Hat.
  by apply list_elem_of_filter in Hat as [_ ?].
Qed.

Lemma collectSuggestions_kept node :
  let sl := collectSuggestions node initSuggestionList in
  list_ok sl
  ∧ count sl = (length (terminals node) `min` Z.to_nat MAX_SUGGESTIONS)%nat
  ∧ ∀ s, s ∈ kept sl → ∃ t, t ∈ terminals node ∧ s = suggestion_of_terminal t.
Proof.
  cbv zeta. rewrite collectSuggestions_terminals.
  destruct (offers_kept (λ sl t, offer_word sl t.2) suggestion_of_terminal
              (terminals node) initSuggestionList) as (Hok & Hcount & Hkept).
  { intros sl [p [w f]]. by exists w. }
  { apply list_ok_init. }
  split_and!; [done|done|].
  intros s [Hs|Hs]%Hkept; [|done]. rewrite kept_init in Hs.
  by apply elem_of_nil in Hs.
Qed.

Lemma wf_trie_child_nonempty path node i child :
  wf_trie path node → children node !! i = Some (Some child) →
  terminals child ≠ [].
Proof. intros [path' cs e w f _ _ _ _ Hne] Hi. by eapply Hne. Qed.

(** Below every node other than the root there is a word. *)
Lemma find_node_nonempty path root c p node :
  wf_trie path root → find_node root (c :: p) = Some (Some node) →
  terminals node ≠ [].
Proof.
  revert path root c. induction p as [|c' p IH]; intros path root c Hwf Hfind;
    cbn [find_node] in Hfind;
    destruct (in_children (child_index c)); try done;
    destruct (children root !! Z.to_nat (child_index c)) as [[child|]|] eqn:Hi;
    try done.
  - injection Hfind as <-. by eapply wf_trie_child_nonempty.
  - destruct (wf_trie_child _ _ _ _ Hwf Hi) as [Hwfc _]. by eapply IH.
Qed.

(** The words below the node a prefix leads to are the stored words that
    start with the prefix. *)
Lemma terminals_stored root lp current t :
  wf_trie [] root → find_node root lp = Some (Some current) →
  t ∈ terminals current →
  word_at root (lp ++ t.1) = Some t.2 ∧ strtolower t.2.1 = lp ++ t.1.
Proof.
  intros Hwf Hfind Ht. destruct t as [p [w f]]. simpl.
  pose proof (wf_find_node _ _ _ _ Hwf Hfind) as Hwfc.
  apply (terminals_word_at _ _ _ _ Hwfc) in Ht.
  rewrite <- (word_at_app root current lp p Hfind) in Ht.
  split; [done|]. by eapply wf_word_at.
Qed.


Lemma StronglySorted_by_frequency {W} (l : list (Suggestion W)) :
  Forall (λ s, sug_distance s = 0) l → StronglySorted ranks_before l →
  StronglySorted (λ a b, sug_frequency b <= sug_frequency a) l.
Proof.
  intros Hzero Hsorted. induction Hsorted as [|x l Hsorted IH Hx]; [constructor|].
  apply Forall_cons in Hzero as [Hx0 Hl0]. constructor; [by apply IH|].
  rewrite Forall_forall in Hx, Hl0 |- *. intros y Hy.
  specialize (Hx y Hy). specialize (Hl0 y Hy). unfold ranks_before in Hx. lia.
Qed.

(** C5. A prefix search on a tree built from valid words with
    non-negative frequencies shows ten entries at most; each shown word
    starts, case folded, with the case-folded prefix (and is a word of
    the tree, with its frequency); every entry has distance 0 and the
    frequencies never increase along the list. *)
Theorem searchWordsByPrefix_sound
    (qsort : ∀ A : Type, (A → A → Z) → list A → list A)
    (entries : list (cstring * Z)) (prefix : cstring) :
  qsort_contract qsort →
  valid_entries entries →
  Forall (λ e, 0 <= e.2 <= INT_MAX) entries →
  isValidWord prefix = true →
  ∃ root out,
    insertAll createTrieNode entries = Some root
    ∧ searchWordsByPrefix qsort root prefix = Some out
    ∧ (length (results out) ≤ Z.to_nat MAX_SUGGESTIONS)%nat
    ∧ (∀ s, s ∈ results out →
         ∃ w, sug_word s = Some w
              ∧ strtolower prefix `prefix_of` strtolower w
              ∧ stored root w (sug_frequency s))
    ∧ Forall (λ s, sug_distance s = 0) (results out)
    ∧ StronglySorted (λ a b, sug_frequency b <= sug_frequency a) (results out).
Proof.
  intros Hqsort Hvalid Hfreq Hprefix.
  destruct (insertAll_total createTrieNode entries (wf_trie_create []) Hvalid)
    as (root & Hroot & Hwf).
  exists root. unfold searchWordsByPrefix.
  destruct (find_node_total [] root (strtolower prefix) Hwf
              (strtolower_lower_path _ Hprefix)) as [reached Hreached].
  rewrite Hreached. cbn [mbind option_bind].
  destruct reached as [current|].
  2:{ exists NoSuggestionsFound. split_and!; try done; simpl; try constructor; try lia.
      by intros s ?%elem_of_nil. }
  destruct (collectSuggestions_kept current) as (Hok & Hcount & Hkept).
  set (sl := collectSuggestions current initSuggestionList) in *.
  destruct (count sl =? 0)%nat eqn:Hzero.
  { exists NoSuggestionsFound. split_and!; try done; simpl; try constructor; try lia.
    by intros s ?%elem_of_nil. }
  assert (Hterm : ∀ s, s ∈ kept sl →
            ∃ w, sug_word s = Some w ∧ sug_distance s = 0
                 ∧ strtolower prefix `prefix_of` strtolower w
                 ∧ word_at root (strtolower w) = Some (w, sug_frequency s)).
  { intros s (t & Ht & ->)%Hkept.
    destruct (terminals_stored root _ current t Hwf Hreached Ht) as [Hat Hw].
    destruct t as [p [w f]]. simpl in *. exists w.
    split_and!; [done|done|by exists p; rewrite Hw|by rewrite Hw]. }
  assert (Hrange : Forall in_range (kept sl)).
  { apply Forall_forall. intros s (w & _ & Hd & _ & Hat)%Hterm.
    apply (stored_inserted entries root) in Hat; [|done..].
    rewrite Forall_forall in Hfreq. specialize (Hfreq _ Hat). simpl in Hfreq.
    unfold in_range. rewrite Hd. unfold INT_MAX in *. lia. }
  destruct (printed_sorted qsort Hqsort sl Hok Hrange) as (Hperm & Hsorted & Hlen).
  eexists (SuggestionsFor _). split_and!; [done|done|exact Hlen| | |]; cbn [results].
  - intros s Hs. rewrite Hperm in Hs.
    destruct (Hterm s Hs) as (w & Hw & _ & Hpre & Hat).
    exists w. split_and!; [done|done|by eexists].
  - apply Forall_forall. intros s Hs. rewrite Hperm in Hs.
    by destruct (Hterm s Hs) as (w & _ & Hd & _).
  - apply StronglySorted_by_frequency; [|done].
    apply Forall_forall. intros s Hs. rewrite Hperm in Hs.
    by destruct (Hterm s Hs) as (w & _ & Hd & _).
Qed.

(** ** The distance function *)

Lemma levenshteinDistance_edits s t prev curr :
  Z.of_nat (length s) + Z.of_nat (length t) < INT_MAX →
  length prev = S (length t) → length curr = S (length t) →
  ∃ n : nat,
    levenshteinDistance (Some prev) (Some curr) s t = Z.of_nat n
    ∧ edit_distance s t n.
Proof.
  intros Hbound Hprev Hcurr. exists (lev (reverse s) (reverse t)). split.
  - by apply levenshteinDistance_table.
  - apply edit_distance_reverse, lev_edit_distance.
Qed.

(** C7. With both rows allocated (and lengths that fit an [int]) the
    function returns the Levenshtein distance of its arguments: that many
    single-character insertions, deletions and substitutions turn [s]
    into [t], and no shorter sequence does; for "kitten" and "sitting"
    it is 3. *)
Theorem levenshteinDistance_is_edit_distance
    (s t : cstring) (prev curr : list Z) :
  Z.of_nat (length s) + Z.of_nat (length t) < INT_MAX →
  length prev = S (length t) → length curr = S (length t) →
  ∃ n : nat,
    levenshteinDistance (Some prev) (Some curr) s t = Z.of_nat n
    ∧ edit_distance s t n
    ∧ (s = cstr "kitten" → t = cstr "sitting" → n = 3%nat).
Proof.
  intros Hbound Hprev Hcurr. exists (lev (reverse s) (reverse t)).
  split_and!.
  - by apply levenshteinDistance_table.
  - apply edit_distance_reverse, lev_edit_distance.
  - intros -> ->. by vm_compute.
Qed.

Lemma levenshteinDistance_failure mp mc s t :
  mp = None ∨ mc = None → levenshteinDistance mp mc s t = INT_MAX.
Proof. unfold levenshteinDistance. intros [-> | ->]; [done|by destruct mp]. Qed.

Lemma levenshteinDistance_bound s t prev curr :
  Z.of_nat (length s) + Z.of_nat (length t) < INT_MAX →
  length prev = S (length t) → length curr = S (length t) →
  0 <= levenshteinDistance (Some prev) (Some curr) s t < INT_MAX.
Proof.
  intros Hbound Hprev Hcurr. rewrite levenshteinDistance_table by done.
  pose proof (lev_le_sum (reverse s) (reverse t)) as H.
  rewrite !length_reverse in H. lev_lia.
Qed.

(** C2 (as the program has it). The function returns [INT_MAX] exactly
    when one of its two rows could not be allocated.  That value is an
    ordinary result: the loop of [suggestSimilarWords] finds it above
    the threshold, leaves the word out and goes on with the next one. *)
Theorem levenshteinDistance_allocation_failure
    (mp mc : option (list Z)) (s t : cstring) :
  Z.of_nat (length s) + Z.of_nat (length t) < INT_MAX →
  (∀ buf, mp = Some buf ∨ mc = Some buf → length buf = S (length t)) →
  (levenshteinDistance mp mc s t = INT_MAX ↔ mp = None ∨ mc = None)
  ∧ (mp = None ∨ mc = None →
     ∀ (rows : Rows) (i : nat) (w : cstring) (rest : list cstring)
       (sl : SuggestionList cstring),
       rows i = (mp, mc) → strtolower w = t →
       spell_loop rows s (w :: rest) i sl = spell_loop rows s rest (S i) sl).
Proof.
  intros Hbound Hbuf. split.
  - split; [|apply levenshteinDistance_failure].
    destruct mp as [prev|]; [|by left]. destruct mc as [curr|]; [|by right].
    pose proof (levenshteinDistance_bound s t prev curr Hbound) as H.
    intros Heq. rewrite Heq in H. specialize (H (Hbuf _ (or_introl eq_refl))
                                                (Hbuf _ (or_intror eq_refl))). lia.
  - intros Hfail rows i w rest sl Hrows <-. cbn [spell_loop]. rewrite Hrows.
    cbn [fst snd]. by rewrite (levenshteinDistance_failure mp mc) by done.
Qed.

(** ** Spelling correction *)

Lemma length_strtolower w : length (strtolower w) = length w.
Proof. unfold strtolower, toLowerCase. apply length_map. Qed.

Lemma spell_loop_kept rows li words i sl :
  list_ok sl →
  list_ok (spell_loop rows li words i sl)
  ∧ ∀ s, s ∈ kept (spell_loop rows li words i sl) →
      s ∈ kept sl
      ∨ ∃ k w, words !! k = Some w
               ∧ s = mkSuggestion (Some w)
                       (levenshteinDistance (rows (i + k)%nat).1 (rows (i + k)%nat).2
                          li (strtolower w)) 0
               ∧ sug_distance s <= MAX_LEVENSHTEIN_DISTANCE.
Proof.
  revert i sl. induction words as [|w words IH]; intros i sl Hok; cbn [spell_loop].
  - split; [done|by left].
  - set (dist := levenshteinDistance _ _ _ _).
    assert (list_ok (if dist <=? MAX_LEVENSHTEIN_DISTANCE
                     then addSuggestion sl w dist 0 else sl)
            ∧ ∀ s, s ∈ kept (if dist <=? MAX_LEVENSHTEIN_DISTANCE
                             then addSuggestion sl w dist 0 else sl) →
                   s ∈ kept sl
                   ∨ (s = mkSuggestion (Some w) dist 0
                      ∧ dist <= MAX_LEVENSHTEIN_DISTANCE)) as [Hok' Hkept'].
    { destruct (dist <=? MAX_LEVENSHTEIN_DISTANCE) eqn:Hle; [|by split; [|left]].
      apply Z.leb_le in Hle.
      destruct (addSuggestion_kept sl w dist 0 Hok) as (? & _ & Hk).
      split; [done|]. intros s [?| ->]%Hk; [by left|by right]. }
    destruct (IH (S i) _ Hok') as [Hok'' Hkept'']. split; [done|].
    intros s [Hs|(k & w' & Hk & -> & Hle)]%Hkept''.
    + apply Hkept' in Hs as [?|[-> Hle]]; [by left|]. right.
      exists 0%nat, w. rewrite Nat.add_0_r. done.
    + right. exists (S k), w'. rewrite Nat.add_succ_r. done.
Qed.

Lemma StronglySorted_weaken {A} (R1 R2 : A → A → Prop) (l : list A) :
  (∀ a b, R1 a b → R2 a b) → StronglySorted R1 l → StronglySorted R2 l.
Proof.
  intros HR. induction 1 as [|x l _ IH Hx]; constructor; [done|].
  eapply Forall_impl; [exact Hx|]. intros y. apply HR.
Qed.

(** C6. Every suggestion of the spelling correction is a word of the
    dictionary whose lower-case form is at edit distance 2 at most from
    the lower-case input; its distance field is that distance and its
    frequency field is 0; and the suggestions come by non-decreasing
    distance (by non-increasing frequency among equal distances). *)
Theorem suggestSimilarWords_sound
    (qsort : ∀ A : Type, (A → A → Z) → list A → list A) (rows : Rows)
    (input : cstring) (dict : Dictionary cstring) :
  qsort_contract qsort →
  rows_ok rows dict →
  Forall (λ w, Z.of_nat (length input) + Z.of_nat (length w) < INT_MAX) dict →
  (∀ s, s ∈ corrections (suggestSimilarWords qsort rows input dict) →
     ∃ (w : cstring) (n : nat),
       sug_word s = Some w ∧ w ∈ dict
       ∧ sug_frequency s = 0
       ∧ sug_distance s = Z.of_nat n
       ∧ edit_distance (strtolower input) (strtolower w) n
       ∧ (n ≤ 2)%nat)
  ∧ StronglySorted shown_before
      (corrections (suggestSimilarWords qsort rows input dict))
  ∧ (length (corrections (suggestSimilarWords qsort rows input dict))
     ≤ Z.to_nat MAX_SUGGESTIONS)%nat.
Proof.
  intros Hqsort Hrows Hlen.
  assert (Hempty : ∀ out : SpellOutput cstring, corrections out = [] →
            (∀ s, s ∈ corrections out → ∃ (w : cstring) (n : nat),
                sug_word s = Some w ∧ w ∈ dict ∧ sug_frequency s = 0
                ∧ sug_distance s = Z.of_nat n
                ∧ edit_distance (strtolower input) (strtolower w) n ∧ (n ≤ 2)%nat)
            ∧ StronglySorted shown_before (corrections out)
            ∧ (length (corrections out) ≤ Z.to_nat MAX_SUGGESTIONS)%nat).
  { intros out ->. split_and!; [by intros s ?%elem_of_nil|constructor|simpl; lia]. }
  unfold suggestSimilarWords. destruct dict as [|w0 dict0] eqn:Hdict; [by apply Hempty|].
  rewrite <- Hdict in *. clear Hdict w0 dict0.
  destruct (spell_loop_kept rows (strtolower input) dict 0 initSuggestionList
              list_ok_init) as [Hok Hkept].
  set (sl := spell_loop rows (strtolower input) dict 0 initSuggestionList) in *.
  destruct (0 <? count sl)%nat; [|by apply Hempty]. cbn [corrections].
  assert (Hentry : ∀ s, s ∈ kept sl →
            ∃ (w : cstring) (n : nat),
              sug_word s = Some w ∧ w ∈ dict ∧ sug_frequency s = 0
              ∧ sug_distance s = Z.of_nat n
              ∧ edit_distance (strtolower input) (strtolower w) n ∧ (n ≤ 2)%nat).
  { intros s [Hs|(k & w & Hk & -> & Hle)]%Hkept.
    { rewrite kept_init in Hs. by apply elem_of_nil in Hs. }
    cbn [sug_distance] in Hle. simpl in Hle |- *.
    pose proof (proj1 (Forall_lookup _ _) Hlen k w Hk) as Hbound. simpl in Hbound.
    destruct (rows k).1 as [prev|] eqn:Hp; [|done].
    destruct (rows k).2 as [curr|] eqn:Hc; [|done].
    destruct (levenshteinDistance_edits (strtolower input)
                (strtolower w) prev curr) as (n & Hn & Hdist).
    { by rewrite !length_strtolower. }
    { rewrite length_strtolower. apply (Hrows k w prev Hk). by left. }
    { rewrite length_strtolower. apply (Hrows k w curr Hk). by right. }
    exists w, n. rewrite Hn in Hle |- *. unfold MAX_LEVENSHTEIN_DISTANCE in Hle.
    split_and!; [done|by eapply list_elem_of_lookup_2|done|done|done|lia]. }
  assert (Hrange : Forall in_range (kept sl)).
  { apply Forall_forall. intros s (w & n & _ & _ & Hf & Hd & _ & Hn)%Hentry.
    unfold in_range, INT_MAX. rewrite Hf, Hd. lia. }
  destruct (printed_sorted qsort Hqsort sl Hok Hrange) as (Hperm & Hsorted & Hcount).
  split_and!; [|clear Hentry|done].
  - intros s Hs. rewrite Hperm in Hs. by apply Hentry.
  - apply (StronglySorted_weaken ranks_before); [|exact Hsorted].
    unfold ranks_before, shown_before. intros a b. lia.
Qed.

(** * The memory model: what the queries do to the heap *)

Lemma runs_ret {A} (a : A) h (Q : A → Mem.heap → Prop) :
  Q a h → runs (Mem.ret a) h Q.
Proof. intros HQ. by exists a, h. Qed.

Lemma runs_mret {A} (a : A) h (Q : A → Mem.heap → Prop) :
  Q a h → runs (mret a) h Q.
Proof. intros HQ. by exists a, h. Qed.

Lemma runs_bind {A B} (m : Mem.M A) (k : A → Mem.M B) h
    (Q : B → Mem.heap → Prop) :
  runs m h (λ a h', runs (k a) h' Q) → runs (m ≫= k) h Q.
Proof.
  intros (a & h' & Hm & b & h'' & Hk & HQ). exists b, h''. split; [|done].
  unfold mbind, Mem.M_bind. by rewrite Hm.
Qed.

Lemma runs_mono {A} (m : Mem.M A) h (Q Q' : A → Mem.heap → Prop) :
  runs m h Q → (∀ a h', Q a h' → Q' a h') → runs m h Q'.
Proof. intros (a & h' & Hm & HQ) Himpl. exists a, h'. auto. Qed.

Lemma runs_read p s h (Q : list ascii → Mem.heap → Prop) :
  h !! p = Some s → Q s h → runs (Mem.read p) h Q.
Proof. intros Hp HQ. exists s, h. unfold Mem.read. by rewrite Hp. Qed.

Lemma runs_strdup malloc s h (Q : Z → Mem.heap → Prop) :
  Q (malloc h) (<[malloc h := s]> h) → runs (Mem.strdup malloc s) h Q.
Proof. intros HQ. by eexists _, _. Qed.

Lemma runs_free p s h (Q : unit → Mem.heap → Prop) :
  h !! p = Some s → Q tt (delete p h) → runs (Mem.free (Some p)) h Q.
Proof. intros Hp HQ. exists tt, (delete p h). simpl. by rewrite Hp. Qed.

Lemma runs_toLowerCase p s h (Q : unit → Mem.heap → Prop) :
  h !! p = Some s → Q tt (<[p := map tolower s]> h) →
  runs (Mem.toLowerCase p) h Q.
Proof. intros Hp HQ. eexists tt, _. unfold Mem.toLowerCase. by rewrite Hp. Qed.

Lemma frame_refl h0 : frame h0 h0 [].
Proof.
  split_and!; [constructor|by intros p ?%elem_of_nil|done].
Qed.

Lemma frame_nil h0 h : frame h0 h [] → h = h0.
Proof.
  intros (_ & _ & Hsame). apply map_eq. intros p. apply Hsame.
  by intros ?%elem_of_nil.
Qed.

Lemma frame_perm h0 h owned owned' :
  owned ≡ₚ owned' → frame h0 h owned → frame h0 h owned'.
Proof.
  intros Hperm (Hnd & Hown & Hsame). split_and!.
  - by rewrite <- Hperm.
  - intros p Hp. apply Hown. by rewrite Hperm.
  - intros p Hp. apply Hsame. by rewrite Hperm.
Qed.

Lemma frame_old h0 h owned p s :
  frame h0 h owned → h0 !! p = Some s → h !! p = Some s.
Proof.
  intros (_ & Hown & Hsame) Hp. rewrite Hsame; [done|].
  intros Hin. apply Hown in Hin as [Hnone _]. congruence.
Qed.

Lemma frame_owned h0 h owned p :
  frame h0 h owned → p ∈ owned → is_Some (h !! p).
Proof. intros (_ & Hown & _) Hp. by apply Hown. Qed.

Lemma frame_alloc malloc h0 h owned s :
  fresh_allocator malloc → frame h0 h owned →
  frame h0 (<[malloc h := s]> h) (malloc h :: owned).
Proof.
  intros Hfresh (Hnd & Hown & Hsame). specialize (Hfresh h).
  assert (malloc h ∉ owned) as Hnew.
  { intros Hin. apply Hown in Hin as [_ [? ?]]. congruence. }
  split_and!.
  - by constructor.
  - intros p [->|Hp]%elem_of_cons.
    + rewrite lookup_insert_eq. split; [|done]. by rewrite <- (Hsame _ Hnew).
    + destruct (Hown p Hp) as [? ?]. split; [done|].
      rewrite lookup_insert_ne; [done|]. by intros <-.
  - intros p Hp. apply not_elem_of_cons in Hp as [Hne Hp].
    rewrite lookup_insert_ne by done. by apply Hsame.
Qed.

Lemma frame_free h0 h owned p :
  frame h0 h (p :: owned) → frame h0 (delete p h) owned.
Proof.
  intros (Hnd & Hown & Hsame). apply NoDup_cons in Hnd as [Hp Hnd].
  split_and!; [done| |].
  - intros q Hq. destruct (Hown q) as [? ?]; [by right|]. split; [done|].
    rewrite lookup_delete_ne; [done|]. by intros ->.
  - intros q Hq. destruct (decide (q = p)) as [->|Hne].
    + rewrite lookup_delete_eq. symmetry. apply Hown. left.
    + rewrite lookup_delete_ne by done. apply Hsame.
      by intros [?|?]%elem_of_cons.
Qed.

Lemma frame_write h0 h owned p s :
  frame h0 h owned → p ∈ owned → frame h0 (<[p := s]> h) owned.
Proof.
  intros (Hnd & Hown & Hsame) Hp. split_and!; [done| |].
  - intros q Hq. destruct (Hown q Hq) as [? ?]. split; [done|].
    destruct (decide (q = p)) as [->|Hne];
      [by rewrite lookup_insert_eq|by rewrite lookup_insert_ne].
  - intros q Hq. rewrite lookup_insert_ne; [by apply Hsame|]. by intros ->.
Qed.

(** [strtolower] leaves one more owned block, which holds the
    lower-case string. *)
Lemma runs_strtolower malloc h0 h owned str :
  fresh_allocator malloc → frame h0 h owned →
  runs (Mem.strtolower malloc str) h
    (λ p h', frame h0 h' (p :: owned) ∧ h' !! p = Some (map tolower str)).
Proof.
  intros Hfresh Hframe. unfold Mem.strtolower.
  apply runs_bind, runs_strdup.
  apply runs_bind, (runs_toLowerCase _ str); [by rewrite lookup_insert_eq|].
  apply runs_mret. split.
  - apply frame_write; [by apply frame_alloc|left].
  - by rewrite lookup_insert_eq.
Qed.

(** The allocator used to run the model is fresh. *)
Lemma malloc_top_above base (h : Mem.heap) p s :
  h !! p = Some s → p < Mem.malloc_top base h.
Proof.
  unfold Mem.malloc_top. rewrite <- elem_of_map_to_list.
  induction (map_to_list h) as [|[q t] l IH]; [by intros ?%elem_of_nil|].
  intros [[= <- <-]|Hin]%elem_of_cons; simpl; [lia|].
  specialize (IH Hin). lia.
Qed.

Lemma malloc_top_fresh base : fresh_allocator (Mem.malloc_top base).
Proof.
  intros h. destruct (h !! Mem.malloc_top base h) as [s|] eqn:Hs; [|done].
  apply (malloc_top_above base) in Hs. lia.
Qed.

(** ** The suggestion list owns the copies it holds *)

Lemma word_ptrs_app l1 l2 : word_ptrs (l1 ++ l2) = word_ptrs l1 ++ word_ptrs l2.
Proof. apply omap_app. Qed.

Lemma word_ptrs_middle before e after q :
  sug_word e = Some q →
  word_ptrs (before ++ e :: after) ≡ₚ q :: word_ptrs before ++ word_ptrs after.
Proof.
  intros Hq. unfold word_ptrs. rewrite omap_app. simpl. rewrite Hq.
  symmetry. apply Permutation_middle.
Qed.

Lemma list_held_init h0 h temps :
  frame h0 h temps → list_held h0 h temps initSuggestionList.
Proof. intros Hframe. split_and!; [apply list_ok_init|constructor|done]. Qed.

Lemma kept_full {W} (sl : SuggestionList W) :
  list_ok sl → (Z.of_nat (count sl) <? MAX_SUGGESTIONS) = false →
  kept sl = suggestions sl.
Proof.
  intros [Hlen Hcount] Hfull%Z.ltb_ge. unfold kept. apply take_ge.
  unfold MAX_SUGGESTIONS in *. lia.
Qed.

Lemma runs_addSuggestion malloc h0 h temps sl word s dist freq :
  fresh_allocator malloc → list_held h0 h temps sl → h0 !! word = Some s →
  runs (Mem.addSuggestion malloc sl word dist freq) h
    (λ sl' h', list_held h0 h' temps sl').
Proof.
  intros Hfresh (Hok & Hwords & Hframe) Hword. unfold Mem.addSuggestion.
  destruct (Z.of_nat (count sl) <? MAX_SUGGESTIONS) eqn:Hroom.
  - apply Z.ltb_lt in Hroom. destruct Hok as [Hlen Hcount].
    apply runs_bind, (runs_read _ s); [by eapply frame_old|].
    apply runs_bind, runs_strdup, runs_mret.
    set (p := malloc h). set (new := mkSuggestion (Some p) dist freq).
    assert (kept (mkSuggestionList (<[count sl := new]> (suggestions sl))
                    (S (count sl))) = kept sl ++ [new]) as Hkept.
    { unfold kept. cbn [suggestions count].
      rewrite (take_S_r _ _ new) by (apply list_lookup_insert_eq; lia).
      by rewrite take_insert_ge by lia. }
    unfold list_held. rewrite Hkept. split_and!.
    + split; cbn [suggestions count]; [by rewrite length_insert|lia].
    + apply Forall_app. split; [done|]. by repeat constructor.
    + apply (frame_perm _ _ (p :: word_ptrs (kept sl) ++ temps));
        [|by apply frame_alloc].
      rewrite (word_ptrs_middle (kept sl) new [] p) by done.
      by rewrite app_nil_r.
  - set (worst_idx := find_worst _ _ _ _).
    pose proof (kept_full sl Hok Hroom) as Hkept. destruct Hok as [Hlen Hcount].
    destruct (better_than _ _ _); [|apply runs_mret; by split_and!].
    assert (worst_idx < length (suggestions sl))%nat as Hidx.
    { pose proof (find_worst_lt (suggestions sl) (Z.to_nat MAX_SUGGESTIONS - 1)) as H.
      fold worst_idx in H. unfold MAX_SUGGESTIONS in *. lia. }
    destruct (lookup_lt_is_Some_2 _ _ Hidx) as [e He].
    rewrite (list_lookup_total_correct _ _ _ He).
    assert (is_Some (sug_word e)) as [q Hq].
    { rewrite Hkept in Hwords. by eapply Forall_lookup_1 in Hwords. }
    rewrite Hq.
    pose proof (take_drop_middle _ _ _ He) as Hsplit.
    set (before := take worst_idx (suggestions sl)) in *.
    set (after := drop (S worst_idx) (suggestions sl)) in *.
    assert (frame h0 h (q :: word_ptrs before ++ word_ptrs after ++ temps))
      as Hframe'.
    { eapply frame_perm; [|exact Hframe]. rewrite Hkept, <- Hsplit.
      rewrite (word_ptrs_middle before e after q) by done.
      by rewrite <- app_comm_cons, <- (assoc_L (++)). }
    destruct (frame_owned _ _ _ q Hframe') as [sq Hsq]; [left|].
    apply runs_bind, (runs_free _ sq); [done|].
    apply frame_free in Hframe'.
    apply runs_bind, (runs_read _ s); [by eapply frame_old|].
    apply runs_bind, runs_strdup, runs_mret.
    set (p := malloc (delete q h)). set (new := mkSuggestion (Some p) dist freq).
    assert (kept (mkSuggestionList (<[worst_idx := new]> (suggestions sl))
                    (count sl)) = before ++ new :: after) as Hkept'.
    { unfold kept. cbn [suggestions count].
      rewrite take_ge; [by apply insert_take_drop|].
      rewrite length_insert.
      apply Z.ltb_ge in Hroom. unfold MAX_SUGGESTIONS in *. lia. }
    unfold list_held. rewrite Hkept'. split_and!.
    + split; cbn [suggestions count]; [by rewrite length_insert|done].
    + rewrite Hkept, <- Hsplit in Hwords.
      apply Forall_app in Hwords as [Hb Ha]. apply Forall_cons in Ha as [_ Ha].
      apply Forall_app. split; [done|]. by constructor.
    + apply (frame_perm _ _ (p :: word_ptrs before ++ word_ptrs after ++ temps));
        [|by apply frame_alloc].
      rewrite (word_ptrs_middle before new after p) by done.
      by rewrite <- app_comm_cons, <- (assoc_L (++)).
Qed.

(** ** Trees whose words are allocated *)

Lemma words_allocated_node h node :
  words_allocated h node = true →
  length (children node) = Z.to_nat ALPHABET_SIZE
  ∧ (∀ p, originalWord node = Some p → is_Some (h !! p))
  ∧ (isEndOfWord node = true → is_Some (originalWord node))
  ∧ (∀ i child, children node !! i = Some (Some child) →
       words_allocated h child = true).
Proof.
  destruct node as [cs e w f]. cbn [words_allocated children originalWord isEndOfWord].
  rewrite !andb_true_iff, Nat.eqb_eq, forallb_forall.
  intros [[Hlen Hw] Hcs]. split_and!; [done| | |].
  - intros p ->. by apply bool_decide_eq_true in Hw.
  - intros ->. destruct w; [done|discriminate].
  - intros i child Hi. apply (Hcs (Some child)).
    apply list_elem_of_In. by eapply list_elem_of_lookup_2.
Qed.

Lemma find_node_allocated h root lp :
  words_allocated h root = true → lower_path lp →
  ∃ reached, find_node root lp = Some reached
             ∧ ∀ node, reached = Some node → words_allocated h node = true.
Proof.
  intros Hroot Hlp. revert root Hroot.
  induction Hlp as [|c lp Hc _ IH]; intros root Hroot; cbn [find_node].
  - exists (Some root). split; [done|]. by intros node [= <-].
  - apply islower_in_children in Hc. rewrite Hc. apply in_children_spec in Hc.
    destruct (words_allocated_node h root Hroot) as (Hlen & _ & _ & Hsub).
    destruct (lookup_lt_is_Some_2 (children root) (Z.to_nat (child_index c)))
      as [[child|] Hslot]; [lia| |]; rewrite Hslot.
    + apply IH. by eapply Hsub.
    + exists None. by split.
Qed.

(** ** Traversals in the memory model *)

Lemma runs_for_children {W St} (visit : TrieNode W → St → Mem.M St)
    (I : St → Mem.heap → Prop) slots st h :
  Forall (λ slot, ∀ c, slot = Some c →
            ∀ st h, I st h → runs (visit c st) h I) slots →
  I st h → runs (Mem.for_children visit slots st) h I.
Proof.
  intros Hslots. revert st h.
  induction Hslots as [|slot slots Hslot _ IH]; intros st h HI; cbn [Mem.for_children].
  - by apply runs_mret.
  - apply runs_bind. destruct slot as [child|].
    + eapply runs_mono; [by apply Hslot|]. apply IH.
    + apply runs_mret. by apply IH.
Qed.

Lemma runs_collectSuggestions malloc h0 temps node :
  fresh_allocator malloc → words_allocated h0 node = true →
  ∀ sl h, list_held h0 h temps sl →
    runs (Mem.collectSuggestions malloc node sl) h
      (λ sl' h', list_held h0 h' temps sl').
Proof.
  intros Hfresh. induction node as [cs e w f IH] using TrieNode_children_ind.
  intros Hnode sl h Hheld.
  destruct (words_allocated_node h0 _ Hnode) as (_ & Hw & He & Hsub).
  cbn [children originalWord isEndOfWord] in *.
  cbn [Mem.collectSuggestions children originalWord isEndOfWord frequency].
  apply runs_bind.
  assert (runs
            (if e
             then match w with
                  | Some w0 => Mem.addSuggestion malloc sl w0 0 f
                  | None => Mem.undefined
                  end
             else mret sl) h (λ sl' h', list_held h0 h' temps sl')) as Hstep.
  { destruct e; [|by apply runs_mret].
    destruct (He eq_refl) as [p ->]. destruct (Hw p eq_refl) as [s Hs].
    by eapply runs_addSuggestion. }
  eapply runs_mono; [exact Hstep|]. clear sl h Hheld Hstep.
  intros sl h Hheld. apply (runs_for_children _ (λ sl' h', list_held h0 h' temps sl'));
    [|done].
  apply Forall_lookup. intros i slot Hi child ->.
  rewrite Forall_lookup in IH. apply (IH i _ Hi child eq_refl). by eapply Hsub.
Qed.

Lemma runs_collectAllWords malloc h0 temps node :
  fresh_allocator malloc → words_allocated h0 node = true →
  ∀ dict h, frame h0 h (dict ++ temps) →
    runs (Mem.collectAllWords malloc node dict) h
      (λ dict' h', frame h0 h' (dict' ++ temps)).
Proof.
  intros Hfresh. induction node as [cs e w f IH] using TrieNode_children_ind.
  intros Hnode dict h Hframe.
  destruct (words_allocated_node h0 _ Hnode) as (_ & Hw & He & Hsub).
  cbn [children originalWord isEndOfWord] in *.
  cbn [Mem.collectAllWords children originalWord isEndOfWord frequency].
  apply runs_bind.
  assert (runs
            match w with
            | Some w0 =>
                if e && (Z.of_nat (length dict) <? MAX_WORDS)
                then s ← Mem.read w0; copy ← Mem.strdup malloc s;
                     Mem.ret (dict ++ [copy])
                else Mem.ret dict
            | None => Mem.ret dict
            end h (λ dict' h', frame h0 h' (dict' ++ temps))) as Hstep.
  { destruct w as [p|]; [|by apply runs_ret].
    destruct (e && _); [|by apply runs_ret].
    destruct (Hw p eq_refl) as [s Hs].
    apply runs_bind, (runs_read _ s); [by eapply frame_old|].
    apply runs_bind, runs_strdup, runs_ret.
    eapply frame_perm; [|by apply frame_alloc].
    rewrite <- (assoc_L (++)). cbn. by rewrite Permutation_middle. }
  eapply runs_mono; [exact Hstep|]. clear dict h Hframe Hstep.
  intros dict h Hframe.
  apply (runs_for_children _ (λ dict' h', frame h0 h' (dict' ++ temps))); [|done].
  apply Forall_lookup. intros i slot Hi child ->.
  rewrite Forall_lookup in IH. apply (IH i _ Hi child eq_refl). by eapply Hsub.
Qed.

(** ** Printing and freeing *)

Lemma word_ptrs_cons_Some e l p :
  sug_word e = Some p → word_ptrs (e :: l) = p :: word_ptrs l.
Proof. intros He. unfold word_ptrs. simpl. by rewrite He. Qed.

Lemma runs_print_entries entries number h :
  Forall (λ e, is_Some (sug_word e)) entries →
  (∀ p, p ∈ word_ptrs entries → is_Some (h !! p)) →
  runs (Mem.print_entries entries number) h (λ _ h', h' = h).
Proof.
  intros Hwords. induction Hwords as [|e entries [p Hp] _ IH]; intros Halloc;
    cbn [Mem.print_entries].
  - by apply runs_ret.
  - rewrite Hp. rewrite (word_ptrs_cons_Some e entries p Hp) in Halloc.
    destruct (Halloc p) as [s Hs]; [left|].
    apply runs_bind, (runs_read _ s); [done|].
    apply runs_bind. eapply runs_mono; [apply IH|].
    + intros q Hq. apply Halloc. by right.
    + intros lines h' ->. by apply runs_ret.
Qed.

Lemma runs_free_entries h0 temps entries h :
  Forall (λ e, is_Some (sug_word e)) entries →
  frame h0 h (word_ptrs entries ++ temps) →
  runs (Mem.free_entries entries) h (λ _ h', frame h0 h' temps).
Proof.
  intros Hwords. revert h.
  induction Hwords as [|e entries [p Hp] _ IH]; intros h Hframe;
    cbn [Mem.free_entries].
  - by apply runs_ret.
  - rewrite Hp. rewrite (word_ptrs_cons_Some e entries p Hp) in Hframe.
    destruct (frame_owned _ _ _ p Hframe) as [s Hs]; [left|].
    apply runs_bind, (runs_free _ s); [done|].
    apply IH. by apply frame_free in Hframe.
Qed.

Lemma runs_print_words words h :
  (∀ p, p ∈ words → is_Some (h !! p)) →
  runs (Mem.print_words words) h (λ _ h', h' = h).
Proof.
  induction words as [|w words IH]; intros Halloc; cbn [Mem.print_words].
  - by apply runs_ret.
  - destruct (Halloc w) as [s Hs]; [left|].
    apply runs_bind, (runs_read _ s); [done|].
    apply runs_bind. eapply runs_mono; [apply IH|].
    + intros q Hq. apply Halloc. by right.
    + intros lines h' ->. by apply runs_ret.
Qed.

Lemma runs_freeDictionary h0 temps words h :
  frame h0 h (words ++ temps) →
  runs (Mem.freeDictionary words) h (λ _ h', frame h0 h' temps).
Proof.
  revert h. induction words as [|w words IH]; intros h Hframe;
    cbn [Mem.freeDictionary].
  - by apply runs_ret.
  - destruct (frame_owned _ _ _ w Hframe) as [s Hs]; [left|].
    apply runs_bind, (runs_free _ s); [done|].
    apply IH. by apply frame_free in Hframe.
Qed.

(** ** The queries give the heap back as they found it *)

Lemma take_count_qsort {W}
    (qsort : ∀ A : Type, (A → A → Z) → list A → list A)
    (sl : SuggestionList W) :
  qsort_contract qsort → list_ok sl →
  take (count sl)
    (qsort_prefix (qsort _ compareSuggestions) (suggestions sl) (count sl))
  = qsort _ compareSuggestions (kept sl).
Proof.
  intros Hqsort [Hlen Hcount]. unfold qsort_prefix. fold (kept sl).
  destruct (Hqsort _ compareSuggestions (kept sl)) as [Hperm _].
  apply Permutation_length in Hperm.
  assert (length (kept sl) = count sl) as Hk
    by (unfold kept; rewrite length_take; lia).
  rewrite take_app_le by lia. apply take_ge. lia.
Qed.

Lemma word_ptrs_perm l1 l2 : l1 ≡ₚ l2 → word_ptrs l1 ≡ₚ word_ptrs l2.
Proof.
  induction 1 as [|e l1 l2 _ IH|e1 e2 l|l1 l2 l3 _ IH1 _ IH2]; unfold word_ptrs in *;
    simpl.
  - done.
  - destruct (sug_word e); [by constructor|done].
  - destruct (sug_word e1), (sug_word e2); try done. apply perm_swap.
  - by etrans.
Qed.

(** The end of both queries: print the sorted entries (or a line that
    says there is none), free their words and the lower-case copy of the
    input. *)
Lemma runs_print_and_free
    (qsort : ∀ A : Type, (A → A → Z) → list A → list A)
    h0 h lower sl number (print : Mem.M (option (list (list ascii * Z)))) :
  qsort_contract qsort → list_held h0 h [lower] sl →
  print = Mem.ret None
  ∨ print = (lines ← Mem.print_entries
                        (printed (qsort_prefix (qsort _ compareSuggestions)
                                    (suggestions sl) (count sl)) (count sl))
                        number;
             Mem.ret (Some lines)) →
  runs
    (out ← print;
     Mem.free_entries
       (take (count sl)
          (qsort_prefix (qsort _ compareSuggestions) (suggestions sl) (count sl)));;
     Mem.free (Some lower);;
     Mem.ret out) h (λ _ h', h' = h0).
Proof.
  intros Hqsort (Hok & Hwords & Hframe) Hprint.
  rewrite (printed_qsort qsort Hqsort sl Hok) in Hprint.
  rewrite (take_count_qsort qsort sl Hqsort Hok).
  destruct (Hqsort _ compareSuggestions (kept sl)) as [Hperm _].
  set (sorted := qsort _ compareSuggestions (kept sl)) in *.
  assert (Forall (λ e, is_Some (sug_word e)) sorted) as Hwords'
    by (by rewrite Hperm).
  assert (frame h0 h (word_ptrs sorted ++ [lower])) as Hframe'.
  { eapply frame_perm; [|exact Hframe]. by rewrite (word_ptrs_perm _ _ Hperm). }
  apply runs_bind.
  assert (runs print h (λ _ h', h' = h)) as Hrun.
  { destruct Hprint as [-> | ->]; [by apply runs_ret|]. apply runs_bind.
    eapply runs_mono; [apply runs_print_entries; [done|]|].
    - intros p Hp. eapply frame_owned; [exact Hframe'|]. apply elem_of_app. by left.
    - intros lines h' ->. by apply runs_ret. }
  eapply runs_mono; [exact Hrun|]. intros out h' ->.
  apply runs_bind. eapply runs_mono; [by apply (runs_free_entries h0 [lower])|].
  intros u h' Hf. destruct (frame_owned _ _ _ lower Hf) as [s Hs]; [left|].
  apply runs_bind, (runs_free _ s); [done|]. apply runs_ret.
  by apply frame_nil, frame_free.
Qed.

Lemma runs_searchWordsByPrefix malloc
    (qsort : ∀ A : Type, (A → A → Z) → list A → list A) h0 root prefix :
  fresh_allocator malloc → qsort_contract qsort →
  words_allocated h0 root = true → isValidWord prefix = true →
  runs (Mem.searchWordsByPrefix malloc qsort root prefix) h0 (λ _ h', h' = h0).
Proof.
  intros Hfresh Hqsort Hroot Hprefix. unfold Mem.searchWordsByPrefix.
  apply runs_bind.
  eapply runs_mono; [by apply (runs_strtolower malloc h0 h0 []), frame_refl|].
  intros lower h1 [Hframe Hlower].
  apply runs_bind, (runs_read _ _ _ _ Hlower).
  destruct (find_node_allocated h0 root (map tolower prefix) Hroot)
    as (reached & -> & Hreached); [by apply strtolower_lower_path|].
  destruct reached as [current|].
  - apply runs_bind.
    eapply runs_mono;
      [apply (runs_collectSuggestions malloc h0 [lower] current Hfresh);
       [by apply Hreached|by apply list_held_init]|].
    intros sl h2 Hheld.
    apply (runs_print_and_free qsort h0 h2 lower sl sug_frequency); [done|done|].
    destruct (count sl =? 0)%nat; [by left|by right].
  - apply runs_bind, (runs_free _ _ _ _ Hlower), runs_ret.
    by apply frame_nil, frame_free.
Qed.

Lemma runs_spell_loop malloc rows h0 lower lowerInput words :
  fresh_allocator malloc →
  (∀ w, w ∈ words → is_Some (h0 !! w)) →
  ∀ i sl h, list_held h0 h [lower] sl →
    runs (Mem.spell_loop malloc rows lowerInput words i sl) h
      (λ sl' h', list_held h0 h' [lower] sl').
Proof.
  intros Hfresh. induction words as [|w words IH]; intros Hdict i sl h Hheld;
    cbn [Mem.spell_loop].
  - by apply runs_mret.
  - destruct (Hdict w) as [s Hs]; [left|].
    destruct Hheld as (Hok & Hwords & Hframe).
    apply runs_bind, (runs_read _ s); [by eapply frame_old|].
    apply runs_bind.
    eapply runs_mono;
      [by apply (runs_strtolower malloc h0 h (word_ptrs (kept sl) ++ [lower]) s)|].
    intros tmp h1 [Hframe1 Htmp].
    apply runs_bind, (runs_read _ _ _ _ Htmp).
    apply runs_bind, (runs_free _ _ _ _ Htmp).
    apply frame_free in Hframe1. apply runs_bind.
    set (dist := levenshteinDistance _ _ _ _).
    assert (runs (if dist <=? MAX_LEVENSHTEIN_DISTANCE
                  then Mem.addSuggestion malloc sl w dist 0 else mret sl)
              (delete tmp h1) (λ sl' h', list_held h0 h' [lower] sl')) as Hstep.
    { destruct (dist <=? _); [by eapply runs_addSuggestion|by apply runs_mret]. }
    eapply runs_mono; [exact Hstep|]. intros sl' h' Hheld'.
    apply IH; [|done]. intros w' Hw'. apply Hdict. by right.
Qed.

Lemma runs_suggestSimilarWords malloc
    (qsort : ∀ A : Type, (A → A → Z) → list A → list A) rows h0 input dict :
  fresh_allocator malloc → qsort_contract qsort →
  (∀ w, w ∈ dict → is_Some (h0 !! w)) →
  runs (Mem.suggestSimilarWords malloc qsort rows input dict) h0
    (λ _ h', h' = h0).
Proof.
  intros Hfresh Hqsort Hdict. unfold Mem.suggestSimilarWords.
  destruct dict as [|w0 dict0] eqn:Heq; [by apply runs_ret|].
  rewrite <- Heq in *. clear Heq w0 dict0.
  apply runs_bind.
  eapply runs_mono; [by apply (runs_strtolower malloc h0 h0 []), frame_refl|].
  intros lower h1 [Hframe Hlower].
  apply runs_bind, (runs_read _ _ _ _ Hlower).
  apply runs_bind.
  eapply runs_mono;
    [apply (runs_spell_loop malloc rows h0 lower); [done|done|by apply list_held_init]|].
  intros sl h2 Hheld.
  apply (runs_print_and_free qsort h0 h2 lower sl sug_distance); [done|done|].
  destruct (0 <? count sl)%nat; [by right|by left].
Qed.

Lemma runs_show_all_words malloc
    (qsort : ∀ A : Type, (A → A → Z) → list A → list A) h0 root :
  fresh_allocator malloc → qsort_contract qsort →
  words_allocated h0 root = true →
  runs (Mem.show_all_words malloc qsort root) h0 (λ _ h', h' = h0).
Proof.
  intros Hfresh Hqsort Hroot. unfold Mem.show_all_words.
  apply runs_bind.
  eapply runs_mono;
    [apply (runs_collectAllWords malloc h0 [] root Hfresh Hroot []), frame_refl|].
  intros allWords h1 Hframe.
  destruct (Hqsort _ Mem.strcmp_as_comparator allWords) as [Hperm _].
  set (sorted := qsort _ Mem.strcmp_as_comparator allWords) in *.
  assert (frame h0 h1 (sorted ++ [])) as Hframe'.
  { eapply frame_perm; [|exact Hframe]. by rewrite Hperm. }
  apply runs_bind. eapply runs_mono; [apply runs_print_words|].
  - intros p Hp. eapply frame_owned; [exact Hframe'|]. apply elem_of_app. by left.
  - intros lines h' ->. apply runs_bind.
    eapply runs_mono; [by apply (runs_freeDictionary h0 [])|].
    intros u h' Hf. apply runs_ret. by apply frame_nil.
Qed.

(** ** Straight insertion meets the contract of [qsort] *)

Lemma insert_sorted_perm {A} (cmp : A → A → Z) x l :
  insert_sorted cmp x l ≡ₚ x :: l.
Proof.
  induction l as [|y l IH]; simpl; [done|].
  destruct (cmp x y <=? 0); [done|]. rewrite IH. apply perm_swap.
Qed.

Lemma isort_perm {A} (cmp : A → A → Z) l : isort A cmp l ≡ₚ l.
Proof.
  induction l as [|x l IH]; simpl; [done|].
  by rewrite insert_sorted_perm, IH.
Qed.

Lemma insert_sorted_ascending {A} (cmp : A → A → Z) x l :
  consistent_on cmp (x :: l) → ascending cmp l →
  ascending cmp (insert_sorted cmp x l).
Proof.
  intros [Hsign Htrans] Hl. induction Hl as [|y l Hl IH Hy]; simpl.
  - repeat constructor.
  - destruct (cmp x y <=? 0) eqn:Hxy.
    + apply Z.leb_le in Hxy. constructor; [by constructor|].
      constructor; [done|]. rewrite Forall_forall in Hy |- *. intros z Hz.
      apply (Htrans x y z); [left|right; left|by do 2 right|done|by apply Hy].
    + apply Z.leb_gt in Hxy. constructor.
      * apply IH.
        -- intros a b Ha Hb. apply Hsign.
           ++ apply elem_of_cons in Ha as [->|?]; [left|by do 2 right].
           ++ apply elem_of_cons in Hb as [->|?]; [left|by do 2 right].
        -- intros a b c Ha Hb Hc. apply Htrans.
           ++ apply elem_of_cons in Ha as [->|?]; [left|by do 2 right].
           ++ apply elem_of_cons in Hb as [->|?]; [left|by do 2 right].
           ++ apply elem_of_cons in Hc as [->|?]; [left|by do 2 right].
      * rewrite Forall_forall in Hy |- *. intros z Hz.
        rewrite insert_sorted_perm in Hz.
        apply elem_of_cons in Hz as [->|Hz]; [|by apply Hy].
        destruct (Hsign x y) as (_ & _ & Hgt); [left|right; left|].
        specialize (Hgt Hxy). lia.
Qed.

Lemma isort_ascending {A} (cmp : A → A → Z) l :
  consistent_on cmp l → ascending cmp (isort A cmp l).
Proof.
  induction l as [|x l IH]; intros Hcons; simpl; [constructor|].
  apply insert_sorted_ascending.
  - destruct Hcons as [Hsign Htrans]. split.
    + intros a b Ha Hb. rewrite (isort_perm cmp l) in Ha, Hb. by apply Hsign.
    + intros a b c Ha Hb Hc. rewrite (isort_perm cmp l) in Ha, Hb, Hc.
      by apply Htrans.
  - apply IH. destruct Hcons as [Hsign Htrans]. split.
    + intros a b Ha Hb. apply Hsign; by right.
    + intros a b c Ha Hb Hc. apply Htrans; by right.
Qed.

Lemma isort_contract : qsort_contract isort.
Proof. intros A cmp l. split; [apply isort_perm|apply isort_ascending]. Qed.

(** A list in strictly ascending order is the only ascending arrangement
    of its elements. *)
Lemma ascending_unique {A} (cmp : A → A → Z) (l l' : list A) :
  StronglySorted (λ x y, 0 < cmp y x) l →
  l' ≡ₚ l → ascending cmp l' → l' = l.
Proof.
  intros Hl. revert l'. induction Hl as [|x l Hl IH Hx]; intros l' Hperm Hl'.
  - by apply Permutation_nil_r in Hperm.
  - destruct Hl' as [|y l' Hl' Hy].
    { by apply Permutation_nil_cons in Hperm. }
    assert (y = x) as ->.
    { assert (y ∈ x :: l) as [->|Hyl]%elem_of_cons by (rewrite <- Hperm; left);
        [done|].
      assert (x ∈ y :: l') as [->|Hxl]%elem_of_cons by (rewrite Hperm; left);
        [done|].
      rewrite Forall_forall in Hx, Hy.
      specialize (Hx y Hyl). specialize (Hy x Hxl). lia. }
    f_equal. apply IH; [|done]. by apply Permutation_cons_inv in Hperm.
Qed.

Lemma consistent_check_sound {A} (cmp : A → A → Z) (l : list A) :
  consistent_check cmp l = true → consistent_on cmp l.
Proof.
  unfold consistent_check. rewrite forallb_forall. intros Hall.
  assert (∀ x y, x ∈ l → y ∈ l →
            ((if cmp x y <? 0 then 0 <? cmp y x else true) = true
             ∧ (if cmp x y =? 0 then cmp y x =? 0 else true) = true
             ∧ (if 0 <? cmp x y then cmp y x <? 0 else true) = true)
            ∧ ∀ z, z ∈ l →
                (if (cmp x y <=? 0) && (cmp y z <=? 0) then cmp x z <=? 0
                 else true) = true) as Hcheck.
  { intros x y Hx%list_elem_of_In Hy%list_elem_of_In.
    specialize (Hall x Hx). rewrite forallb_forall in Hall.
    specialize (Hall y Hy). rewrite !andb_true_iff, forallb_forall in Hall.
    destruct Hall as [[[? ?] ?] Hz]. split; [done|].
    intros z Hz'%list_elem_of_In. by apply Hz. }
  split.
  - intros x y Hx Hy. destruct (Hcheck x y Hx Hy) as [(H1 & H2 & H3) _].
    split_and!; intros H.
    + apply Z.ltb_lt in H. rewrite H in H1. by apply Z.ltb_lt.
    + apply Z.eqb_eq in H. rewrite H in H2. by apply Z.eqb_eq.
    + apply Z.ltb_lt in H. rewrite H in H3. by apply Z.ltb_lt.
  - intros x y z Hx Hy Hz Hxy Hyz. destruct (Hcheck x y Hx Hy) as [_ H].
    specialize (H z Hz). apply Z.leb_le in Hxy, Hyz. rewrite Hxy, Hyz in H.
    by apply Z.leb_le.
Qed.

(** ** Option 2 of the menu orders the words by their addresses *)

(** C1 (what the program does). With the words of Scenario E inserted
    and blocks allocated at increasing addresses, option 2 of the menu
    prints "apple", "Banana", "Cherry": the order of the addresses of the
    copies, which is the order of the traversal, and not the ascending
    byte order of the words ("Banana", "Cherry", "apple") that sorting
    with [strcmp] on the words themselves would give.  This holds for
    every [qsort] that meets its contract: the comparison it is handed
    reads the pointers. *)
Theorem show_all_words_orders_addresses
    (qsort : ∀ A : Type, (A → A → Z) → list A → list A) :
  qsort_contract qsort →
  ∃ root h,
    Mem.insertAll (Mem.malloc_top heap_base) createTrieNode scenario_E ∅
    = Some (root, h)
    ∧ Mem.show_all_words (Mem.malloc_top heap_base) qsort root h
      = Some ([cstr "apple"; cstr "Banana"; cstr "Cherry"], h)
    ∧ ¬ ascending Mem.strcmp [cstr "apple"; cstr "Banana"; cstr "Cherry"]
    ∧ ascending Mem.strcmp [cstr "Banana"; cstr "Cherry"; cstr "apple"].
Proof.
  intros Hqsort.
  assert (qsort _ Mem.strcmp_as_comparator
            [heap_base + 192; heap_base + 224; heap_base + 256]
          = [heap_base + 192; heap_base + 224; heap_base + 256]) as Hsorted.
  { destruct (Hqsort _ Mem.strcmp_as_comparator
                [heap_base + 192; heap_base + 224; heap_base + 256])
      as [Hperm Hasc].
    apply (ascending_unique Mem.strcmp_as_comparator); [|done|].
    - repeat constructor; by vm_compute.
    - apply Hasc, consistent_check_sound. by vm_compute. }
  eexists _, _. split; [by vm_compute|]. split_and!.
  - unfold Mem.show_all_words, mbind, Mem.M_bind.
    set (collected := Mem.collectAllWords _ _ _ _).
    vm_compute in collected. subst collected. cbv beta iota.
    change [93824992252768; 93824992252800; 93824992252832]
      with [heap_base + 192; heap_base + 224; heap_base + 256].
    rewrite Hsorted. by vm_compute.
  - intros Hasc. apply StronglySorted_inv in Hasc as [_ Hhead].
    apply Forall_cons in Hhead as [Hhead _]. vm_compute in Hhead.
    by apply Hhead.
  - repeat constructor; by vm_compute.
Qed.

(** ** Insertion in the memory model *)

Lemma trie_ptrs_unfold node :
  trie_ptrs node
  = match originalWord node with Some p => [p] | None => [] end
    ++ children_ptrs trie_ptrs (children node).
Proof. by destruct node. Qed.

Lemma children_ptrs_app below l1 l2 :
  children_ptrs below (l1 ++ l2)
  = children_ptrs below l1 ++ children_ptrs below l2.
Proof. apply flat_map_app. Qed.

Lemma children_ptrs_cons below slot l :
  children_ptrs below (slot :: l)
  = match slot with Some child => below child | None => [] end
    ++ children_ptrs below l.
Proof. done. Qed.

Lemma elem_of_children_ptrs below slots p :
  p ∈ children_ptrs below slots
  ↔ ∃ i child, slots !! i = Some (Some child) ∧ p ∈ below child.
Proof.
  induction slots as [|slot slots IH].
  - split; [by intros ?%elem_of_nil|by intros (i & ? & ? & _)].
  - rewrite children_ptrs_cons, elem_of_app, IH. split.
    + intros [Hp|(i & child & Hi & Hp)].
      * destruct slot as [child|]; [|by apply elem_of_nil in Hp].
        by exists 0%nat, child.
      * by exists (S i), child.
    + intros ([|i] & child & Hi & Hp); simpl in Hi.
      * left. by injection Hi as ->.
      * right. by exists i, child.
Qed.

Lemma children_ptrs_create : children_ptrs trie_ptrs (children (@createTrieNode Z)) = [].
Proof. reflexivity. Qed.

Lemma words_allocated_unfold h cs e w f :
  words_allocated h (mkTrieNode cs e w f) = true
  ↔ length cs = Z.to_nat ALPHABET_SIZE
    ∧ match w with
      | Some p => is_Some (h !! p)
      | None => e = false
      end
    ∧ ∀ i child, cs !! i = Some (Some child) → words_allocated h child = true.
Proof.
  cbn [words_allocated children originalWord isEndOfWord].
  rewrite !andb_true_iff, Nat.eqb_eq, forallb_forall.
  split.
  - intros [[Hlen Hw] Hcs]. split_and!; [done| |].
    + destruct w; [by apply bool_decide_eq_true in Hw|by destruct e].
    + intros i child Hi. apply (Hcs (Some child)).
      apply list_elem_of_In. by eapply list_elem_of_lookup_2.
  - intros (Hlen & Hw & Hcs). split_and!; [done| |].
    + destruct w; [by apply bool_decide_eq_true|by subst e].
    + intros [child|] Hin%list_elem_of_In; [|done].
      apply list_elem_of_lookup in Hin as [i Hi]. by eapply Hcs.
Qed.

(** Two heaps that agree on the word pointers of a tree see it alike. *)
Lemma words_allocated_agree h h' node :
  (∀ p, p ∈ trie_ptrs node → h' !! p = h !! p) →
  words_allocated h node = true → words_allocated h' node = true.
Proof.
  induction node as [cs e w f IH] using TrieNode_children_ind.
  rewrite trie_ptrs_unfold. cbn [originalWord children].
  intros Hagree (Hlen & Hw & Hcs)%words_allocated_unfold.
  apply words_allocated_unfold. split_and!; [done| |].
  - destruct w as [p|]; [|done]. rewrite Hagree; [done|].
    apply elem_of_app. left. left.
  - intros i child Hi. rewrite Forall_lookup in IH.
    apply (IH i _ Hi child eq_refl); [|by eapply Hcs].
    intros p Hp. apply Hagree, elem_of_app. right.
    apply elem_of_children_ptrs. by exists i, child.
Qed.

Lemma view_agree h h' node :
  (∀ p, p ∈ trie_ptrs node → h' !! p = h !! p) → view h' node = view h node.
Proof.
  induction node as [cs e w f IH] using TrieNode_children_ind.
  rewrite trie_ptrs_unfold. cbn [originalWord children].
  intros Hagree. cbn [view children isEndOfWord originalWord frequency].
  f_equal.
  - apply list_eq. intros i. rewrite !list_lookup_fmap.
    destruct (cs !! i) as [[child|]|] eqn:Hi; [|done..]. simpl. do 2 f_equal.
    rewrite Forall_lookup in IH. apply (IH i _ Hi child eq_refl).
    intros p Hp. apply Hagree, elem_of_app. right.
    apply elem_of_children_ptrs. by exists i, child.
  - destruct w as [p|]; [|done]. simpl. apply Hagree, elem_of_app. left. left.
Qed.

Lemma view_create h : view h createTrieNode = createTrieNode.
Proof. reflexivity. Qed.

Lemma words_allocated_create h : words_allocated h createTrieNode = true.
Proof. reflexivity. Qed.

Lemma trie_ptrs_allocated h node p :
  words_allocated h node = true → p ∈ trie_ptrs node → is_Some (h !! p).
Proof.
  revert p. induction node as [cs e w f IH] using TrieNode_children_ind.
  intros p (Hlen & Hw & Hcs)%words_allocated_unfold.
  rewrite trie_ptrs_unfold. cbn [originalWord children].
  intros [Hp|Hp]%elem_of_app.
  - destruct w as [q|]; [|by apply elem_of_nil in Hp].
    by apply list_elem_of_singleton in Hp as ->.
  - apply elem_of_children_ptrs in Hp as (i & child & Hi & Hp).
    rewrite Forall_lookup in IH.
    apply (IH i _ Hi child eq_refl); [by apply (Hcs i)|done].
Qed.

Lemma view_children_agree h h' cs :
  (∀ p, p ∈ children_ptrs trie_ptrs cs → h' !! p = h !! p) →
  map (option_map (view h')) cs = map (option_map (view h)) cs.
Proof.
  intros Hagree. apply list_eq. intros i.
  change (map ?f cs) with (f <$> cs). rewrite !list_lookup_fmap.
  destruct (cs !! i) as [[child|]|] eqn:Hi; [|done..]. simpl. do 2 f_equal.
  apply view_agree. intros p Hp. apply Hagree.
  apply elem_of_children_ptrs. by exists i, child.
Qed.

(** A block in use is not touched by the allocation of another one, nor
    by the release of a different block before it. *)
Lemma lookup_after_alloc malloc (h : Mem.heap) s q :
  fresh_allocator malloc → is_Some (h !! q) →
  <[malloc h := s]> h !! q = h !! q.
Proof.
  intros Hfresh Hq. apply lookup_insert_ne. intros Heq.
  rewrite <- Heq, Hfresh in Hq. by destruct Hq.
Qed.

Lemma lookup_after_replace malloc (h : Mem.heap) old s q :
  fresh_allocator malloc → is_Some (h !! q) → q ≠ old →
  <[malloc (delete old h) := s]> (delete old h) !! q = h !! q.
Proof.
  intros Hfresh Hq Hne.
  rewrite lookup_after_alloc, lookup_delete_ne; [done..|].
  by rewrite lookup_delete_ne.
Qed.

Lemma runs_mark_end malloc (X : Z → Prop) h node word freq :
  fresh_allocator malloc →
  words_allocated h node = true → NoDup (trie_ptrs node) →
  (∀ p, p ∈ trie_ptrs node → ¬ X p) → (∀ p, X p → is_Some (h !! p)) →
  runs (Mem.mark_end malloc node word freq) h (inserted X h node [] word freq).
Proof.
  intros Hfresh Hnode Hnd HX Halloc.
  pose proof (trie_ptrs_allocated h node) as Hptrs.
  destruct node as [cs e w f].
  apply words_allocated_unfold in Hnode as (Hlen & Hw & Hcs).
  rewrite trie_ptrs_unfold in Hnd, HX, Hptrs. cbn [originalWord children] in *.
  specialize (λ p Hp, Hptrs p (proj2 (words_allocated_unfold h cs e w f)
                                 (conj Hlen (conj Hw Hcs))) Hp).
  unfold Mem.mark_end, inserted. cbn [originalWord children frequency].
  destruct w as [old|].
  - apply NoDup_cons in Hnd as [Hold Hnd]. destruct Hw as [sold Hsold].
    destruct (f <? freq) eqn:Hlt.
    + apply runs_bind, (runs_free _ sold); [done|].
      apply runs_bind, runs_strdup, runs_mret.
      set (h' := <[malloc (delete old h) := word]> (delete old h)).
      assert (∀ q, is_Some (h !! q) → q ≠ old → h' !! q = h !! q) as Hsame
        by (intros; by apply lookup_after_replace).
      assert (∀ q, q ∈ children_ptrs trie_ptrs cs → h' !! q = h !! q) as Hchildren.
      { intros q Hq. apply Hsame; [apply Hptrs; by right|]. by intros ->. }
      assert (malloc (delete old h) ∉ children_ptrs trie_ptrs cs) as Hnew.
      { intros Hin. specialize (Hchildren _ Hin). unfold h' in Hchildren.
        rewrite lookup_insert_eq in Hchildren.
        assert (malloc (delete old h) ≠ old) by (by intros Heq; rewrite Heq in Hin).
        pose proof (Hfresh (delete old h)) as Hf.
        rewrite lookup_delete_ne in Hf by done. congruence. }
      split_and!.
      * apply words_allocated_unfold. split_and!; [done| |].
        -- unfold h'. by rewrite lookup_insert_eq.
        -- intros i child Hi. apply (words_allocated_agree h); [|by eapply Hcs].
           intros q Hq. apply Hchildren, elem_of_children_ptrs. by exists i, child.
      * rewrite trie_ptrs_unfold. cbn [originalWord children]. by constructor.
      * rewrite trie_ptrs_unfold. cbn [originalWord children].
        intros q [->|Hq]%elem_of_cons HXq; [|by apply (HX q); [right|]].
        assert (malloc (delete old h) ≠ old)
          by (intros Heq; rewrite Heq in HXq; by apply (HX old); [left|]).
        pose proof (Hfresh (delete old h)) as Hf.
        rewrite lookup_delete_ne in Hf by done.
        destruct (Halloc _ HXq). congruence.
      * intros q HXq. apply Hsame; [by apply Halloc|].
        intros ->. by apply (HX old); [left|].
      * cbn [insert_path view children isEndOfWord originalWord frequency].
        rewrite (view_children_agree h h' cs Hchildren).
        unfold mark_end. cbn [originalWord children frequency mbind option_bind].
        rewrite Hsold, Hlt. unfold h'. by rewrite lookup_insert_eq.
    + apply runs_mret. split_and!.
      * apply words_allocated_unfold. by split_and!.
      * rewrite trie_ptrs_unfold. by constructor.
      * by rewrite trie_ptrs_unfold.
      * done.
      * cbn [insert_path view children isEndOfWord originalWord frequency].
        unfold mark_end. cbn [originalWord children frequency mbind option_bind].
        by rewrite Hsold, Hlt.
  - subst e. apply runs_bind, runs_mret.
    apply runs_bind, runs_strdup, runs_mret.
    set (h' := <[malloc h := word]> h).
    assert (∀ q, is_Some (h !! q) → h' !! q = h !! q) as Hsame
      by (intros; by apply lookup_after_alloc).
    assert (∀ q, q ∈ children_ptrs trie_ptrs cs → h' !! q = h !! q) as Hchildren
      by (intros q Hq; by apply Hsame, Hptrs).
    assert (malloc h ∉ children_ptrs trie_ptrs cs) as Hnew.
    { intros Hin. destruct (Hptrs _ Hin) as [? Hs]. by rewrite Hfresh in Hs. }
    split_and!.
    + apply words_allocated_unfold. split_and!; [done| |].
      * unfold h'. by rewrite lookup_insert_eq.
      * intros i child Hi. apply (words_allocated_agree h); [|by eapply Hcs].
        intros q Hq. apply Hchildren, elem_of_children_ptrs. by exists i, child.
    + rewrite trie_ptrs_unfold. cbn [originalWord children]. by constructor.
    + rewrite trie_ptrs_unfold. cbn [originalWord children].
      intros q [->|Hq]%elem_of_cons HXq; [|by apply (HX q)].
      destruct (Halloc _ HXq) as [? Hs]. by rewrite Hfresh in Hs.
    + intros q HXq. by apply Hsame, Halloc.
    + cbn [insert_path view children isEndOfWord originalWord frequency].
      rewrite (view_children_agree h h' cs Hchildren).
      unfold mark_end. cbn [originalWord children frequency mbind option_bind].
      unfold h'. by rewrite lookup_insert_eq.
Qed.

Lemma runs_insert_path malloc lw word freq :
  fresh_allocator malloc → lower_path lw →
  ∀ (X : Z → Prop) h node,
    words_allocated h node = true → NoDup (trie_ptrs node) →
    (∀ p, p ∈ trie_ptrs node → ¬ X p) → (∀ p, X p → is_Some (h !! p)) →
    runs (Mem.insert_path malloc node lw word freq) h
      (inserted X h node lw word freq).
Proof.
  intros Hfresh Hlw.
  induction Hlw as [|c rest Hc _ IH]; intros X h node Hnode Hnd HX Halloc.
  { by apply runs_mark_end. }
  pose proof (trie_ptrs_allocated h node) as Hptrs.
  destruct node as [cs e w f].
  specialize (λ p, Hptrs p Hnode).
  apply words_allocated_unfold in Hnode as (Hlen & Hw & Hcs).
  rewrite trie_ptrs_unfold in Hnd, HX, Hptrs. cbn [originalWord children] in *.
  cbn [Mem.insert_path children isEndOfWord originalWord frequency].
  pose proof (proj1 (islower_in_children c) Hc) as Hin. rewrite Hin.
  apply in_children_spec in Hin.
  set (i := Z.to_nat (child_index c)) in *.
  destruct (lookup_lt_is_Some_2 cs i) as [slot Hslot]; [lia|]. rewrite Hslot.
  set (child := match slot with Some ch => ch | None => createTrieNode end).
  set (own := match w with Some p => [p] | None => [] end) in *.
  set (before := children_ptrs trie_ptrs (take i cs)).
  set (after := children_ptrs trie_ptrs (drop (S i) cs)).
  assert (children_ptrs trie_ptrs cs = before ++ trie_ptrs child ++ after)
    as Hsplit.
  { rewrite <- (take_drop_middle cs i slot Hslot) at 1.
    rewrite children_ptrs_app, children_ptrs_cons. by destruct slot. }
  rewrite Hsplit in Hnd, HX, Hptrs.
  apply NoDup_app in Hnd as (Hnd_own & Hown & Hnd).
  apply NoDup_app in Hnd as (Hnd_before & Hbefore & Hnd).
  apply NoDup_app in Hnd as (Hnd_child & Hchild & Hnd_after).
  set (X' := λ q, X q ∨ q ∈ own ∨ q ∈ before ∨ q ∈ after).
  assert (words_allocated h child = true) as Hwchild.
  { destruct slot as [ch|]; [by eapply Hcs|done]. }
  apply runs_bind. eapply runs_mono.
  { apply (IH X' h child Hwchild Hnd_child).
    - intros p Hp [HXp|[Hp'|[Hp'|Hp']]].
      + apply (HX p); [|done]. rewrite !elem_of_app. auto.
      + apply (Hown p Hp'). rewrite !elem_of_app. auto.
      + apply (Hbefore p Hp'). rewrite !elem_of_app. auto.
      + by apply (Hchild p Hp).
    - intros p [HXp|[Hp|[Hp|Hp]]]; [by apply Halloc|..]; apply Hptrs;
        rewrite !elem_of_app; auto. }
  intros child' h' (Hw' & Hnd' & HX' & Hsame & Hview). apply runs_mret.
  assert (take i (<[i := Some child']> cs) = take i cs) as Htake
    by (by apply take_insert_ge).
  assert (drop (S i) (<[i := Some child']> cs) = drop (S i) cs) as Hdrop
    by (apply drop_insert_lt; lia).
  assert (i < length cs)%nat as Hi by (by apply lookup_lt_Some in Hslot).
  assert (children_ptrs trie_ptrs (<[i := Some child']> cs)
          = before ++ trie_ptrs child' ++ after) as Hsplit'.
  { rewrite <- (take_drop_middle (<[i := Some child']> cs) i (Some child'))
      by (by apply list_lookup_insert_eq).
    by rewrite Htake, Hdrop, children_ptrs_app, children_ptrs_cons. }
  assert (∀ j cj, j ≠ i → cs !! j = Some (Some cj) →
            ∀ p, p ∈ trie_ptrs cj → p ∈ before ∨ p ∈ after) as Hsibling.
  { intros j cj Hj Hcj p Hp. destruct (decide (j < i)%nat).
    - left. apply elem_of_children_ptrs. exists j, cj.
      by rewrite lookup_take_lt by lia.
    - right. apply elem_of_children_ptrs. exists (j - S i)%nat, cj.
      rewrite lookup_drop. by replace (S i + (j - S i))%nat with j by lia. }
  split_and!.
  - apply words_allocated_unfold. split_and!.
    + by rewrite length_insert.
    + destruct w as [q|]; [|done].
      rewrite Hsame; [done|]. right. left. left.
    + intros j cj Hj. destruct (decide (j = i)) as [->|Hne].
      * rewrite list_lookup_insert_eq in Hj by done. by injection Hj as <-.
      * rewrite list_lookup_insert_ne in Hj by done.
        apply (words_allocated_agree h); [|by eapply Hcs].
        intros p Hp. apply Hsame.
        destruct (Hsibling j cj Hne Hj p Hp); [right; right; by left|by do 3 right].
  - rewrite trie_ptrs_unfold. cbn [originalWord children]. fold own.
    rewrite Hsplit'. apply NoDup_app. split_and!; [done| |].
    + intros p Hp. rewrite !elem_of_app. intros [Hq|[Hq|Hq]].
      * apply (Hown p Hp). rewrite !elem_of_app. auto.
      * apply (HX' p Hq). right. by left.
      * apply (Hown p Hp). rewrite !elem_of_app. auto.
    + apply NoDup_app. split_and!; [done| |].
      * intros p Hp. rewrite !elem_of_app. intros [Hq|Hq].
        -- apply (HX' p Hq). do 2 right. by left.
        -- apply (Hbefore p Hp). rewrite !elem_of_app. auto.
      * apply NoDup_app. split_and!; [done| |done].
        intros p Hp Hq. apply (HX' p Hp). by do 3 right.
  - rewrite trie_ptrs_unfold. cbn [originalWord children]. fold own.
    rewrite Hsplit'. intros p. rewrite !elem_of_app.
    intros [Hp|[Hp|[Hp|Hp]]] HXp.
    + apply (HX p); [|done]. rewrite !elem_of_app. auto.
    + apply (HX p); [|done]. rewrite !elem_of_app. auto.
    + apply (HX' p Hp). by left.
    + apply (HX p); [|done]. rewrite !elem_of_app. auto.
  - intros p HXp. apply Hsame. by left.
  - cbn [insert_path view children isEndOfWord originalWord frequency].
    rewrite (proj1 (islower_in_children c) Hc). fold i.
    change (map ?g cs) with (g <$> cs). rewrite list_lookup_fmap, Hslot.
    cbn [fmap option_fmap option_map].
    replace (match option_map (view h) slot with
             | Some ch => ch | None => createTrieNode end)
      with (view h child) by (by destruct slot).
    rewrite Hview. cbn [mbind option_bind]. do 2 f_equal.
    + change (map ?g ?l) with (g <$> l). rewrite list_fmap_insert.
      cbn [option_map]. apply list_eq. intros j.
      destruct (decide (j = i)) as [->|Hne].
      * by rewrite !list_lookup_insert_eq by (by rewrite length_fmap).
      * rewrite !list_lookup_insert_ne by done. rewrite !list_lookup_fmap.
        destruct (cs !! j) as [[cj|]|] eqn:Hj; [|done..]. simpl. do 2 f_equal.
        symmetry. apply view_agree. intros p Hp. apply Hsame.
        destruct (Hsibling j cj Hne Hj p Hp); [right; right; by left|by do 3 right].
    + destruct w as [q|]; [|done]. simpl. symmetry. apply Hsame.
      right. left. left.
Qed.

Lemma runs_insertWord malloc word freq :
  fresh_allocator malloc → valid_word word →
  ∀ h node,
    words_allocated h node = true → NoDup (trie_ptrs node) →
    runs (Mem.insertWord malloc node word freq) h
      (λ node' h',
         words_allocated h' node' = true ∧ NoDup (trie_ptrs node')
         ∧ insertWord (view h node) word freq = Some (view h' node')).
Proof.
  intros Hfresh [Hne Hvalid] h node Hnode Hnd.
  pose proof (trie_ptrs_allocated h node) as Hptrs. specialize (λ p, Hptrs p Hnode).
  assert (Mem.insertWord malloc node word freq
          = (lowerWord ← Mem.strtolower malloc word;
             lower ← Mem.read lowerWord;
             root' ← Mem.insert_path malloc node lower word freq;
             Mem.free (Some lowerWord);; Mem.ret root')) as ->
    by (by destruct word).
  assert (insertWord (view h node) word freq
          = insert_path (view h node) (strtolower word) word freq) as ->
    by (by destruct word).
  unfold Mem.strtolower.
  apply runs_bind, runs_bind, runs_strdup.
  set (tmp := malloc h).
  apply runs_bind, (runs_toLowerCase _ word); [by rewrite lookup_insert_eq|].
  apply runs_mret. rewrite insert_insert_eq.
  set (h1 := <[tmp := map tolower word]> h).
  assert (∀ p, is_Some (h !! p) → h1 !! p = h !! p) as Hsame
    by (intros; by apply lookup_after_alloc).
  apply runs_bind, (runs_read _ (map tolower word)); [by apply lookup_insert_eq|].
  apply runs_bind. eapply runs_mono.
  { apply (runs_insert_path malloc (map tolower word) word freq Hfresh
             (strtolower_lower_path _ Hvalid) (λ q, q = tmp) h1 node).
    - apply (words_allocated_agree h); [|done]. intros p Hp. by apply Hsame, Hptrs.
    - done.
    - intros p Hp ->. destruct (Hptrs _ Hp) as [? Hs]. unfold tmp in Hs.
      by rewrite Hfresh in Hs.
    - intros p ->. unfold h1. by rewrite lookup_insert_eq. }
  intros node' h2 (Hnode' & Hnd' & HX & Hkeep & Hview).
  assert (h2 !! tmp = Some (map tolower word)) as Htmp.
  { rewrite Hkeep by done. apply lookup_insert_eq. }
  apply runs_bind, (runs_free _ _ _ _ Htmp), runs_ret.
  assert (∀ p, p ∈ trie_ptrs node' → delete tmp h2 !! p = h2 !! p) as Hsame'.
  { intros p Hp. apply lookup_delete_ne. intros <-. by apply (HX tmp). }
  split_and!; [by apply (words_allocated_agree h2)|done|].
  rewrite (view_agree h2 (delete tmp h2) node' Hsame').
  rewrite <- Hview. f_equal. symmetry. apply view_agree.
  intros p Hp. by apply Hsame, Hptrs.
Qed.

Lemma runs_insertAll malloc entries :
  fresh_allocator malloc → valid_entries entries →
  ∀ h node,
    words_allocated h node = true → NoDup (trie_ptrs node) →
    runs (Mem.insertAll malloc node entries) h
      (λ node' h',
         words_allocated h' node' = true ∧ NoDup (trie_ptrs node')
         ∧ insertAll (view h node) entries = Some (view h' node')).
Proof.
  intros Hfresh Hvalid.
  induction Hvalid as [|[word freq] entries Hv _ IH]; intros h node Hnode Hnd;
    cbn [Mem.insertAll insertAll].
  - by apply runs_mret.
  - apply runs_bind. eapply runs_mono; [by apply runs_insertWord|].
    intros node1 h1 (Hnode1 & Hnd1 & Hview1). cbn beta.
    eapply runs_mono; [by apply IH|].
    intros node2 h2 (Hnode2 & Hnd2 & Hview2). split_and!; [done..|].
    cbn [fst snd] in *. rewrite Hview1. exact Hview2.
Qed.

(** The store the memory model builds from valid entries is allocated,
    holds distinct word pointers, and is seen as the tree the first part
    of the development builds from the same entries. *)
Lemma Mem_insertAll_view malloc entries :
  fresh_allocator malloc → valid_entries entries →
  ∃ root h,
    Mem.insertAll malloc createTrieNode entries ∅ = Some (root, h)
    ∧ words_allocated h root = true
    ∧ NoDup (trie_ptrs root)
    ∧ insertAll createTrieNode entries = Some (view h root).
Proof.
  intros Hfresh Hvalid.
  destruct (runs_insertAll malloc entries Hfresh Hvalid ∅ createTrieNode)
    as (root & h & Hrun & Hnode & Hnd & Hview); [done|constructor|].
  by exists root, h.
Qed.

(** ** What a search finds, in terms of the words inserted *)

Lemma prefix_stored_iff_entries entries root lp :
  valid_entries entries → insertAll createTrieNode entries = Some root →
  (∃ w f, stored root w f ∧ lp `prefix_of` strtolower w)
  ↔ (∃ e, e ∈ entries ∧ lp `prefix_of` strtolower e.1).
Proof.
  intros Hvalid Hroot.
  pose proof (wf_insertAll _ _ _ (wf_trie_create []) Hvalid Hroot) as Hwf.
  split.
  - intros (w & f & [p Hp] & Hpre). exists (w, f). split; [|done].
    by apply (stored_inserted entries root p).
  - intros ([w f] & Hin & Hpre). cbn [fst] in Hpre.
    assert (strtolower w ∈ (strtolower ∘ fst) <$> entries) as Hpath.
    { apply list_elem_of_fmap. by exists (w, f). }
    apply (stored_path_inserted entries root _ Hvalid Hroot) in Hpath
      as [[w' f'] Hat].
    exists w', f'. split; [by eexists|].
    by rewrite (wf_word_at _ _ _ _ Hwf Hat).
Qed.

Lemma prefix_stored_iff_terminals root lp :
  wf_trie [] root →
  (∃ w f, stored root w f ∧ lp `prefix_of` strtolower w)
  ↔ (∃ t, t ∈ terminals root ∧ lp `prefix_of` strtolower t.2.1).
Proof.
  intros Hwf. split.
  - intros (w & f & [p Hp] & Hpre). exists (p, (w, f)). split; [|done].
    by apply (terminals_word_at [] root).
  - intros ([p [w f]] & Hin & Hpre). exists w, f. split; [|done].
    exists p. by apply (terminals_word_at [] root).
Qed.

Lemma searchWordsByPrefix_reaches
    (qsort : ∀ A : Type, (A → A → Z) → list A → list A)
    (root : TrieNode cstring) (prefix : cstring) :
  wf_trie [] root → valid_word prefix →
  ∃ out,
    searchWordsByPrefix qsort root prefix = Some out
    ∧ (out = NoSuggestionsFound
       ↔ ¬ ∃ w f, stored root w f
                  ∧ strtolower prefix `prefix_of` strtolower w)
    ∧ (out = NoSuggestionsFound →
       find_node root (strtolower prefix) = Some None)
    ∧ (out ≠ NoSuggestionsFound →
       ∃ current, find_node root (strtolower prefix) = Some (Some current)).
Proof.
  intros Hwf [Hne Hprefix]. unfold searchWordsByPrefix.
  destruct (find_node_total [] root (strtolower prefix) Hwf
              (strtolower_lower_path _ Hprefix)) as [reached Hreached].
  rewrite Hreached. cbn [mbind option_bind].
  destruct reached as [current|].
  - destruct (collectSuggestions_kept current) as (Hok & Hcount & Hkept).
    set (sl := collectSuggestions current initSuggestionList) in *.
    assert (Hnonempty : terminals current ≠ []).
    { destruct prefix as [|c prefix]; [done|].
      by apply (find_node_nonempty [] root (tolower c) (strtolower prefix)). }
    assert (count sl ≠ 0%nat) as Hpos.
    { rewrite Hcount. destruct (terminals current); [done|].
      simpl. unfold MAX_SUGGESTIONS. lia. }
    apply Nat.eqb_neq in Hpos. rewrite Hpos.
    eexists. split_and!; [done| |done|by eexists].
    split; [done|]. intros Hnone. exfalso. apply Hnone.
    destruct (terminals current) as [|t l] eqn:Ht; [done|].
    destruct (terminals_stored root _ current t Hwf Hreached) as [Hat Hw];
      [rewrite Ht; left|].
    destruct t as [p [w f]]. simpl in *. exists w, f.
    split; [by eexists|]. rewrite Hw. by exists p.
  - exists NoSuggestionsFound. split_and!; [done| |done|done].
    split; [|done]. intros _ (w & f & [p Hp] & [q Hq]).
    pose proof (wf_word_at _ _ _ _ Hwf Hp) as Hw. rewrite Hq in Hw. subst p.
    unfold word_at in Hp. by rewrite find_node_app, Hreached in Hp.
Qed.

(** C9. On a tree built from valid words, a search for a valid prefix
    ends with "No suggestions found" exactly when none of the words that
    were inserted starts, case folded, with the case-folded prefix; which
    is also to say, when the traversal of the whole tree meets no word
    that does.  The search returns normally.  Option 1 of the menu, for a
    prefix that fits its buffer, goes on to the spelling correction on
    the dictionary in that case (and only then), and otherwise shows the
    result of the prefix search; a prefix of [MAX_WORD_LENGTH] characters
    or more overruns the buffer.  In the memory model the store built
    from the same words is seen as that tree, and the search gives its
    heap back unchanged, whatever it finds. *)
Theorem searchWordsByPrefix_not_found_iff
    (malloc : Mem.heap → Z)
    (qsort : ∀ A : Type, (A → A → Z) → list A → list A) (rows : Rows)
    (entries : list (cstring * Z)) (dict : Dictionary cstring)
    (prefix : cstring) :
  fresh_allocator malloc →
  qsort_contract qsort →
  valid_entries entries →
  valid_word prefix →
  ∃ root out,
    insertAll createTrieNode entries = Some root
    ∧ searchWordsByPrefix qsort root prefix = Some out
    ∧ (out = NoSuggestionsFound
       ↔ ¬ ∃ e, e ∈ entries
                ∧ strtolower prefix `prefix_of` strtolower e.1)
    ∧ (out = NoSuggestionsFound
       ↔ ¬ ∃ t, t ∈ terminals root
                ∧ strtolower prefix `prefix_of` strtolower t.2.1)
    ∧ (Z.of_nat (length prefix) < MAX_WORD_LENGTH →
       (out = NoSuggestionsFound →
        search_by_prefix qsort rows root dict prefix
        = Some (SpellCorrection (suggestSimilarWords qsort rows prefix dict)))
       ∧ (out ≠ NoSuggestionsFound →
          search_by_prefix qsort rows root dict prefix
          = Some (PrefixSearch out)))
    ∧ (MAX_WORD_LENGTH <= Z.of_nat (length prefix) →
       search_by_prefix qsort rows root dict prefix = None)
    ∧ (∃ store h lines,
         Mem.insertAll malloc createTrieNode entries ∅ = Some (store, h)
         ∧ view h store = root
         ∧ Mem.searchWordsByPrefix malloc qsort store prefix h
           = Some (lines, h)).
Proof.
  intros Hfresh Hqsort Hvalid Hprefix.
  destruct (insertAll_total createTrieNode entries (wf_trie_create []) Hvalid)
    as (root & Hroot & Hwf).
  destruct (searchWordsByPrefix_reaches qsort root prefix Hwf Hprefix)
    as (out & Hsearch & Hnone & Hmissing & Hfound).
  exists root, out. split_and!; [done|done| | | | |].
  - by rewrite Hnone, (prefix_stored_iff_entries entries root).
  - by rewrite Hnone, (prefix_stored_iff_terminals root).
  - intros Hfits. unfold search_by_prefix.
    replace (MAX_WORD_LENGTH <=? Z.of_nat (length prefix)) with false by lia.
    rewrite (proj2 Hprefix). cbn [negb]. split.
    + intros Hout. by rewrite (Hmissing Hout).
    + intros Hout. destruct (Hfound Hout) as [current ->].
      cbn [mbind option_bind]. by rewrite Hsearch.
  - intros Hlong. unfold search_by_prefix.
    by replace (MAX_WORD_LENGTH <=? Z.of_nat (length prefix)) with true by lia.
  - destruct (Mem_insertAll_view malloc entries Hfresh Hvalid)
      as (store & h & Hstore & Halloc & _ & Hview).
    destruct (runs_searchWordsByPrefix malloc qsort h store prefix
                Hfresh Hqsort Halloc (proj2 Hprefix)) as (lines & h' & Hrun & ->).
    exists store, h, lines. split_and!; [done| |done]. congruence.
Qed.

(** C10. On a store whose nodes have their 26 cells and whose word
    pointers designate blocks of the heap, the prefix search, the
    spelling correction and the listing of all words each run to the end
    and leave the heap exactly as it was, and the dictionary snapshot
    leaves every block that existed with its contents (it only adds the
    blocks of its copies), so that the tree is seen as before.  Every
    store built by [insertWord] is of that kind ([Mem_insertAll_view]).
    None of the four returns a tree: the nodes,
    their children, flags, word pointers and frequencies are read only;
    the strings the nodes point to are the one part of the store these
    functions could reach through [free] or [toLowerCase], and they
    apply those to their own copies only. *)
Theorem queries_leave_store_unchanged
    (malloc : Mem.heap → Z)
    (qsort : ∀ A : Type, (A → A → Z) → list A → list A) (rows : Rows)
    (h0 : Mem.heap) (root : TrieNode Z)
    (prefix input : cstring) (dict : Dictionary Z) :
  fresh_allocator malloc →
  qsort_contract qsort →
  words_allocated h0 root = true →
  isValidWord prefix = true →
  (∀ w, w ∈ dict → is_Some (h0 !! w)) →
  (∃ out, Mem.searchWordsByPrefix malloc qsort root prefix h0 = Some (out, h0))
  ∧ (∃ out,
       Mem.suggestSimilarWords malloc qsort rows input dict h0 = Some (out, h0))
  ∧ (∃ out, Mem.show_all_words malloc qsort root h0 = Some (out, h0))
  ∧ (∃ snapshot h',
       Mem.collectAllWords malloc root [] h0 = Some (snapshot, h')
       ∧ (∀ p s, h0 !! p = Some s → h' !! p = Some s)
       ∧ view h' root = view h0 root).
Proof.
  intros Hfresh Hqsort Hroot Hprefix Hdict. split_and!.
  - destruct (runs_searchWordsByPrefix malloc qsort h0 root prefix)
      as (out & h' & Hrun & ->); by eauto.
  - destruct (runs_suggestSimilarWords malloc qsort rows h0 input dict)
      as (out & h' & Hrun & ->); by eauto.
  - destruct (runs_show_all_words malloc qsort h0 root)
      as (out & h' & Hrun & ->); by eauto.
  - destruct (runs_collectAllWords malloc h0 [] root Hfresh Hroot [] h0 (frame_refl h0))
      as (snapshot & h' & Hrun & Hframe).
    exists snapshot, h'. split_and!; [done|intros p s Hp; by eapply frame_old|].
    apply view_agree. intros p Hp.
    destruct (trie_ptrs_allocated h0 root p Hroot Hp) as [s Hs].
    rewrite Hs. by eapply frame_old.
Qed.

(** ** Rows of the right size *)

Lemma rows_for_ok dict : rows_ok (rows_for dict) dict.
Proof.
  intros i w buf Hi. unfold rows_for. rewrite Hi. cbn [fst snd].
  intros [[= <-]|[= <-]]; apply (length_replicate (S (length w))).
Qed.

(** ** The statements at concrete inputs *)

(** C2 (as stated, refuted). With no memory for the rows the function
    returns the number [INT_MAX] for two equal strings, whose distance is
    0, and the spelling correction that called it ends normally with "No
    similar words found" although the dictionary holds the very word. *)
Lemma levenshteinDistance_failure_is_a_number :
  levenshteinDistance None None (cstr "apple") (cstr "apple") = INT_MAX
  ∧ edit_distance (cstr "apple") (cstr "apple") 0
  ∧ suggestSimilarWords isort no_rows (cstr "apple") [cstr "apple"]
    = NoSimilarWords.
Proof.
  split_and!; [reflexivity| |reflexivity].
  split; [constructor|intros m _; lia].
Qed.

Lemma levenshteinDistance_allocation_failure_witness :
  (levenshteinDistance None (Some (replicate 6 0)) (cstr "aple") (cstr "apple")
   = INT_MAX
   ↔ (None : option (list Z)) = None ∨ Some (replicate 6 0) = None)
  ∧ ((None : option (list Z)) = None ∨ Some (replicate 6 0) = None →
     ∀ (rows : Rows) (i : nat) (w : cstring) (rest : list cstring)
       (sl : SuggestionList cstring),
       rows i = (None, Some (replicate 6 0)) → strtolower w = cstr "apple" →
       spell_loop rows (cstr "aple") (w :: rest) i sl
       = spell_loop rows (cstr "aple") rest (S i) sl).
Proof.
  apply (levenshteinDistance_allocation_failure None (Some (replicate 6 0))
           (cstr "aple") (cstr "apple")).
  - reflexivity.
  - intros buf [[=]|[= <-]]. reflexivity.
Defined.

Lemma insertWord_keeps_first_maximum_witness :
  ∃ root pre best post node,
    insertAll createTrieNode repeated_inserts = Some root
    ∧ insertions_of (cstr "HeLLo") repeated_inserts = pre ++ best :: post
    ∧ Forall (λ e, e.2 < best.2) pre
    ∧ Forall (λ e, e.2 <= best.2) post
    ∧ find_node root (strtolower (cstr "HeLLo")) = Some (Some node)
    ∧ isEndOfWord node = true
    ∧ originalWord node = Some best.1
    ∧ frequency node = best.2
    ∧ Forall (λ e, e.2 <= frequency node)
        (insertions_of (cstr "HeLLo") repeated_inserts).
Proof.
  apply (insertWord_keeps_first_maximum repeated_inserts (cstr "HeLLo")).
  - solve_valid_entries.
  - vm_compute. discriminate.
Defined.

Lemma addSuggestion_replaces_worst_witness :
  ∃ worst_idx worst,
    suggestions full_list !! worst_idx = Some worst
    ∧ (∀ e, e ∈ suggestions full_list →
         sug_distance e <= sug_distance worst
         ∧ (sug_distance e = sug_distance worst →
            sug_frequency worst <= sug_frequency e))
    ∧ (1 < sug_distance worst
       ∨ (1 = sug_distance worst ∧ sug_frequency worst < 6) →
       addSuggestion full_list (cstr "k") 1 6
       = mkSuggestionList
           (<[worst_idx := mkSuggestion (Some (cstr "k")) 1 6]>
              (suggestions full_list))
           (count full_list))
    ∧ (¬ (1 < sug_distance worst
          ∨ (1 = sug_distance worst ∧ sug_frequency worst < 6)) →
       addSuggestion full_list (cstr "k") 1 6 = full_list).
Proof.
  apply (addSuggestion_replaces_worst full_list (cstr "k") 1 6); reflexivity.
Defined.

Lemma searchWordsByPrefix_sound_witness :
  ∃ root out,
    insertAll createTrieNode scenario_A = Some root
    ∧ searchWordsByPrefix isort root (cstr "ap") = Some out
    ∧ (length (results out) ≤ Z.to_nat MAX_SUGGESTIONS)%nat
    ∧ (∀ s, s ∈ results out →
         ∃ w, sug_word s = Some w
              ∧ strtolower (cstr "ap") `prefix_of` strtolower w
              ∧ stored root w (sug_frequency s))
    ∧ Forall (λ s, sug_distance s = 0) (results out)
    ∧ StronglySorted (λ a b, sug_frequency b <= sug_frequency a) (results out).
Proof.
  apply (searchWordsByPrefix_sound isort scenario_A (cstr "ap")).
  - apply isort_contract.
  - solve_valid_entries.
  - repeat constructor; vm_compute; discriminate.
  - reflexivity.
Defined.

Lemma suggestSimilarWords_sound_witness :
  (∀ s, s ∈ corrections
          (suggestSimilarWords isort
             (rows_for [cstr "apple"; cstr "app"; cstr "apt"]) (cstr "aple")
             [cstr "apple"; cstr "app"; cstr "apt"]) →
     ∃ (w : cstring) (n : nat),
       sug_word s = Some w ∧ w ∈ [cstr "apple"; cstr "app"; cstr "apt"]
       ∧ sug_frequency s = 0
       ∧ sug_distance s = Z.of_nat n
       ∧ edit_distance (strtolower (cstr "aple")) (strtolower w) n
       ∧ (n ≤ 2)%nat)
  ∧ StronglySorted shown_before
      (corrections
         (suggestSimilarWords isort
            (rows_for [cstr "apple"; cstr "app"; cstr "apt"]) (cstr "aple")
            [cstr "apple"; cstr "app"; cstr "apt"]))
  ∧ (length
       (corrections
          (suggestSimilarWords isort
             (rows_for [cstr "apple"; cstr "app"; cstr "apt"]) (cstr "aple")
             [cstr "apple"; cstr "app"; cstr "apt"]))
     ≤ Z.to_nat MAX_SUGGESTIONS)%nat.
Proof.
  apply (suggestSimilarWords_sound isort
           (rows_for [cstr "apple"; cstr "app"; cstr "apt"]) (cstr "aple")
           [cstr "apple"; cstr "app"; cstr "apt"]).
  - apply isort_contract.
  - apply rows_for_ok.
  - repeat constructor; vm_compute; reflexivity.
Defined.

Lemma levenshteinDistance_is_edit_distance_witness :
  ∃ n : nat,
    levenshteinDistance (Some (replicate 8 0)) (Some (replicate 8 0))
      (cstr "kitten") (cstr "sitting") = Z.of_nat n
    ∧ edit_distance (cstr "kitten") (cstr "sitting") n
    ∧ (cstr "kitten" = cstr "kitten" → cstr "sitting" = cstr "sitting" →
       n = 3%nat).
Proof.
  apply (levenshteinDistance_is_edit_distance (cstr "kitten") (cstr "sitting")
           (replicate 8 0) (replicate 8 0)); reflexivity.
Defined.

Lemma terminal_nodes_spell_their_words_witness :
  ∃ root,
    insertAll createTrieNode repeated_inserts = Some root
    ∧ (∀ path node,
         find_node root path = Some (Some node) → isEndOfWord node = true →
         ∃ w, originalWord node = Some w
              ∧ strtolower path = strtolower w ∧ path = strtolower w)
    ∧ (∀ path,
         (∃ node, find_node root path = Some (Some node)
                  ∧ isEndOfWord node = true)
         ↔ path ∈ (terminals root).*1)
    ∧ (∀ lw,
         length (filter (λ t, strtolower t.2.1 = lw) (terminals root))
         = if decide (lw ∈ (strtolower ∘ fst) <$> repeated_inserts)
           then 1%nat else 0%nat).
Proof.
  apply (terminal_nodes_spell_their_words repeated_inserts).
  solve_valid_entries.
Defined.

Lemma searchWordsByPrefix_not_found_iff_witness :
  ∃ root out,
    insertAll createTrieNode scenario_A = Some root
    ∧ searchWordsByPrefix isort root (cstr "x") = Some out
    ∧ (out = NoSuggestionsFound
       ↔ ¬ ∃ e, e ∈ scenario_A
                ∧ strtolower (cstr "x") `prefix_of` strtolower e.1)
    ∧ (out = NoSuggestionsFound
       ↔ ¬ ∃ t, t ∈ terminals root
                ∧ strtolower (cstr "x") `prefix_of` strtolower t.2.1)
    ∧ (Z.of_nat (length (cstr "x")) < MAX_WORD_LENGTH →
       (out = NoSuggestionsFound →
        search_by_prefix isort no_rows root [cstr "apple"] (cstr "x")
        = Some (SpellCorrection
                  (suggestSimilarWords isort no_rows (cstr "x") [cstr "apple"])))
       ∧ (out ≠ NoSuggestionsFound →
          search_by_prefix isort no_rows root [cstr "apple"] (cstr "x")
          = Some (PrefixSearch out)))
    ∧ (MAX_WORD_LENGTH <= Z.of_nat (length (cstr "x")) →
       search_by_prefix isort no_rows root [cstr "apple"] (cstr "x") = None)
    ∧ (∃ store h lines,
         Mem.insertAll (Mem.malloc_top heap_base) createTrieNode scenario_A ∅
         = Some (store, h)
         ∧ view h store = root
         ∧ Mem.searchWordsByPrefix (Mem.malloc_top heap_base) isort store
             (cstr "x") h = Some (lines, h)).
Proof.
  apply (searchWordsByPrefix_not_found_iff (Mem.malloc_top heap_base) isort
           no_rows scenario_A [cstr "apple"] (cstr "x")).
  - apply malloc_top_fresh.
  - apply isort_contract.
  - solve_valid_entries.
  - split; [discriminate|reflexivity].
Defined.

Lemma queries_leave_store_unchanged_witness :
  (∃ out,
     Mem.searchWordsByPrefix (Mem.malloc_top heap_base) isort example_root
       (cstr "b") example_heap = Some (out, example_heap))
  ∧ (∃ out,
       Mem.suggestSimilarWords (Mem.malloc_top heap_base) isort no_rows
         (cstr "aple") [heap_base + 32] example_heap
       = Some (out, example_heap))
  ∧ (∃ out,
       Mem.show_all_words (Mem.malloc_top heap_base) isort example_root
         example_heap = Some (out, example_heap))
  ∧ (∃ snapshot h',
       Mem.collectAllWords (Mem.malloc_top heap_base) example_root []
         example_heap = Some (snapshot, h')
       ∧ (∀ p s, example_heap !! p = Some s → h' !! p = Some s)
       ∧ view h' example_root = view example_heap example_root).
Proof.
  apply (queries_leave_store_unchanged (Mem.malloc_top heap_base) isort no_rows
           example_heap example_root (cstr "b") (cstr "aple") [heap_base + 32]).
  - apply malloc_top_fresh.
  - apply isort_contract.
  - by vm_compute.
  - reflexivity.
  - intros w Hw. apply list_elem_of_singleton in Hw as ->. vm_compute.
    eexists. reflexivity.
Defined.

Lemma show_all_words_orders_addresses_witness :
  ∃ root h,
    Mem.insertAll (Mem.malloc_top heap_base) createTrieNode scenario_E ∅
    = Some (root, h)
    ∧ Mem.show_all_words (Mem.malloc_top heap_base) isort root h
      = Some ([cstr "apple"; cstr "Banana"; cstr "Cherry"], h)
    ∧ ¬ ascending Mem.strcmp [cstr "apple"; cstr "Banana"; cstr "Cherry"]
    ∧ ascending Mem.strcmp [cstr "Banana"; cstr "Cherry"; cstr "apple"].
Proof.
  apply (show_all_words_orders_addresses isort). apply isort_contract.
Defined.

(** ** The distance as a metric *)

Lemma edit1_sym a b : edit1 a b → edit1 b a.
Proof. intros []; constructor. Qed.

Lemma edits_snoc n a b c : edits n a b → edit1 b c → edits (S n) a c.
Proof.
  induction 1 as [a|n a b' b Hab Hbc IH]; intros Hc.
  - econstructor; [done|constructor].
  - econstructor; [done|by apply IH].
Qed.

Lemma edits_sym n a b : edits n a b → edits n b a.
Proof.
  induction 1 as [a|n a b c Hab Hbc IH]; [constructor|].
  eapply edits_snoc; [done|by apply edit1_sym].
Qed.

Lemma edits_trans n m a b c : edits n a b → edits m b c → edits (n + m) a c.
Proof.
  induction 1 as [a|n a b' b Hab Hbc IH]; intros Hc; [done|].
  simpl. econstructor; [done|by apply IH].
Qed.

Lemma lev_sym a b : lev a b = lev b a.
Proof.
  apply Nat.le_antisymm; apply edits_lev_le, edits_sym, lev_edits.
Qed.

Lemma lev_triangle a b c : (lev a c ≤ lev a b + lev b c)%nat.
Proof. eapply edits_lev_le, edits_trans; apply lev_edits. Qed.

Lemma lev_zero a b : lev a b = 0%nat ↔ a = b.
Proof.
  split; [|intros ->; apply lev_refl].
  intros H. pose proof (lev_edits a b) as He. rewrite H in He. by inversion He.
Qed.

Lemma edit1_length a b :
  edit1 a b → (length a ≤ S (length b))%nat ∧ (length b ≤ S (length a))%nat.
Proof. intros []; rewrite !length_app; simpl; lia. Qed.

Lemma edits_length n a b :
  edits n a b → (length a ≤ n + length b)%nat ∧ (length b ≤ n + length a)%nat.
Proof.
  induction 1 as [a|n a b c Hab Hbc IH]; [lia|].
  apply edit1_length in Hab. lia.
Qed.

Lemma lev_le_max a b : (lev a b ≤ length a `max` length b)%nat.
Proof.
  revert b. induction a as [|x a IH]; intros b.
  - rewrite lev_nil_l. simpl. lia.
  - destruct b as [|y b].
    + rewrite lev_nil_r. simpl. lia.
    + rewrite lev_cons. specialize (IH b). pose proof (subst_cost_le x y).
      cbn [length]. generalize dependent (subst_cost x y). intros k Hk.
      lev_lia.
Qed.

Lemma lev_reverse a b : lev (reverse a) (reverse b) = lev a b.
Proof.
  apply Nat.le_antisymm.
  - apply edits_lev_le, edits_reverse, lev_edits.
  - rewrite <- (reverse_involutive a), <- (reverse_involutive b) at 1.
    apply edits_lev_le, edits_reverse, lev_edits.
Qed.

Lemma levenshteinDistance_lev s t prev curr :
  Z.of_nat (length s) + Z.of_nat (length t) < INT_MAX →
  length prev = S (length t) → length curr = S (length t) →
  levenshteinDistance (Some prev) (Some curr) s t = Z.of_nat (lev s t).
Proof.
  intros Hlen Hp Hc. rewrite levenshteinDistance_table by done.
  by rewrite lev_reverse.
Qed.

(** X1. The distance does not depend on the order of its arguments:
    with rows of the right size on both sides, [levenshteinDistance s t]
    and [levenshteinDistance t s] return the same number (whatever the
    fresh rows contained). *)
Theorem levenshteinDistance_symmetric
    (s t : cstring) (prev curr prev' curr' : list Z) :
  Z.of_nat (length s) + Z.of_nat (length t) < INT_MAX →
  length prev = S (length t) → length curr = S (length t) →
  length prev' = S (length s) → length curr' = S (length s) →
  levenshteinDistance (Some prev) (Some curr) s t
  = levenshteinDistance (Some prev') (Some curr') t s.
Proof.
  intros Hlen Hp Hc Hp' Hc'.
  rewrite !levenshteinDistance_lev by (done || lia).
  by rewrite lev_sym.
Qed.

Lemma levenshteinDistance_symmetric_witness :
  levenshteinDistance (Some (replicate 8 7)) (Some (replicate 8 (-1)))
    (cstr "kitten") (cstr "sitting")
  = levenshteinDistance (Some (replicate 7 0)) (Some (replicate 7 5))
      (cstr "sitting") (cstr "kitten").
Proof.
  apply (levenshteinDistance_symmetric (cstr "kitten") (cstr "sitting"));
    reflexivity.
Defined.

(** X2. With its rows allocated, [levenshteinDistance] returns 0 exactly
    when the two strings are equal. *)
Theorem levenshteinDistance_zero_iff_equal
    (s t : cstring) (prev curr : list Z) :
  Z.of_nat (length s) + Z.of_nat (length t) < INT_MAX →
  length prev = S (length t) → length curr = S (length t) →
  levenshteinDistance (Some prev) (Some curr) s t = 0 ↔ s = t.
Proof.
  intros Hlen Hp Hc. rewrite levenshteinDistance_lev by done.
  rewrite <- lev_zero. lia.
Qed.

Lemma levenshteinDistance_zero_iff_equal_witness :
  levenshteinDistance (Some (replicate 6 9)) (Some (replicate 6 9))
    (cstr "apple") (cstr "apple") = 0
  ↔ cstr "apple" = cstr "apple".
Proof.
  apply (levenshteinDistance_zero_iff_equal (cstr "apple") (cstr "apple"));
    reflexivity.
Defined.

(** X3. The triangle inequality: going from [s] to [u] directly never
    costs more than going through a third string [t]. *)
Theorem levenshteinDistance_triangle
    (s t u : cstring) (p1 c1 p2 c2 p3 c3 : list Z) :
  Z.of_nat (length s) + Z.of_nat (length t) < INT_MAX →
  Z.of_nat (length t) + Z.of_nat (length u) < INT_MAX →
  Z.of_nat (length s) + Z.of_nat (length u) < INT_MAX →
  length p1 = S (length u) → length c1 = S (length u) →
  length p2 = S (length t) → length c2 = S (length t) →
  length p3 = S (length u) → length c3 = S (length u) →
  levenshteinDistance (Some p1) (Some c1) s u
  <= levenshteinDistance (Some p2) (Some c2) s t
     + levenshteinDistance (Some p3) (Some c3) t u.
Proof.
  intros Hst Htu Hsu Hp1 Hc1 Hp2 Hc2 Hp3 Hc3.
  rewrite !levenshteinDistance_lev by done.
  pose proof (lev_triangle s t u). lia.
Qed.

Lemma levenshteinDistance_triangle_witness :
  levenshteinDistance (Some (replicate 5 0)) (Some (replicate 5 0))
    (cstr "cat") (cstr "dogs")
  <= levenshteinDistance (Some (replicate 4 0)) (Some (replicate 4 0))
       (cstr "cat") (cstr "cot")
     + levenshteinDistance (Some (replicate 5 0)) (Some (replicate 5 0))
         (cstr "cot") (cstr "dogs").
Proof.
  apply (levenshteinDistance_triangle (cstr "cat") (cstr "cot") (cstr "dogs"));
    reflexivity.
Defined.

(** X4. The distance lies between the difference of the two lengths and
    the larger of the two: a word whose length differs from the input's
    by more than [MAX_LEVENSHTEIN_DISTANCE] is never within reach. *)
Theorem levenshteinDistance_length_bounds
    (s t : cstring) (prev curr : list Z) :
  Z.of_nat (length s) + Z.of_nat (length t) < INT_MAX →
  length prev = S (length t) → length curr = S (length t) →
  Z.abs (Z.of_nat (length s) - Z.of_nat (length t))
  <= levenshteinDistance (Some prev) (Some curr) s t
  <= Z.max (Z.of_nat (length s)) (Z.of_nat (length t)).
Proof.
  intros Hlen Hp Hc. rewrite levenshteinDistance_lev by done.
  pose proof (edits_length _ _ _ (lev_edits s t)).
  pose proof (lev_le_max s t). lia.
Qed.

Lemma levenshteinDistance_length_bounds_witness :
  Z.abs (Z.of_nat (length (cstr "go")) - Z.of_nat (length (cstr "going")))
  <= levenshteinDistance (Some (replicate 6 0)) (Some (replicate 6 0))
       (cstr "go") (cstr "going")
  <= Z.max (Z.of_nat (length (cstr "go"))) (Z.of_nat (length (cstr "going"))).
Proof.
  apply (levenshteinDistance_length_bounds (cstr "go") (cstr "going"));
    reflexivity.
Defined.

(** ** Insertion: where it is defined, what it changes *)

Lemma insert_path_lower (root : TrieNode cstring) lw word freq root' :
  insert_path root lw word freq = Some root' → lower_path lw.
Proof.
  revert root root'. induction lw as [|c rest IH]; intros root root' Hins;
    [constructor|].
  cbn [insert_path] in Hins.
  destruct (in_children (child_index c)) eqn:Hc; [|done].
  destruct (children root !! Z.to_nat (child_index c)) as [slot|]; [|done].
  destruct (insert_path _ rest word freq) as [child'|] eqn:Hchild; [|done].
  constructor; [by apply islower_in_children|by eapply IH].
Qed.

Lemma isalpha_of_tolower c : islower (tolower c) = true → isalpha c = true.
Proof.
  unfold tolower, isalpha. destruct (isupper c); [done|]. by intros ->.
Qed.

Lemma lower_path_strtolower w :
  lower_path (strtolower w) ↔ isValidWord w = true.
Proof.
  split; [|apply strtolower_lower_path].
  rewrite isValidWord_Forall. unfold lower_path, strtolower, toLowerCase.
  rewrite Forall_fmap. intros H. eapply Forall_impl; [exact H|].
  intros c. apply isalpha_of_tolower.
Qed.

Lemma insertWord_letters_defined root word freq :
  wf_trie [] root → isValidWord word = true →
  is_Some (insertWord root word freq).
Proof.
  intros Hwf Hvalid. destruct word as [|c word]; [by eexists|].
  destruct (insertWord_valid [] root (c :: word) freq Hwf) as (r & -> & _);
    [by split|by eexists].
Qed.

(** X5. [insertWord] indexes the [children] array with [c - 'a'] for
    every character of the lower-case copy, and checks nothing: on a
    well-formed tree the call is defined exactly for the words that
    [isValidWord] accepts (the empty word among them); any other
    character leads to an access outside the array. *)
Theorem insertWord_defined_iff_letters
    (root : TrieNode cstring) (word : cstring) (freq : Z) :
  wf_trie [] root →
  is_Some (insertWord root word freq) ↔ isValidWord word = true.
Proof.
  intros Hwf. destruct word as [|c word]; [by split; [|eexists]|].
  split.
  - intros [root' Hins]. apply lower_path_strtolower.
    by eapply insert_path_lower.
  - by apply insertWord_letters_defined.
Qed.

Lemma insertWord_defined_iff_letters_witness :
  is_Some (insertWord createTrieNode (cstr "can't") 4)
  ↔ isValidWord (cstr "can't") = true.
Proof.
  apply (insertWord_defined_iff_letters createTrieNode (cstr "can't") 4).
  apply wf_trie_create.
Defined.

(** X6. An insertion changes one entry of the tree seen as a map from
    lower-case paths to words: the path of the word itself, which then
    holds a word with the same lower-case form and a frequency at least
    as large as the one given; every other path holds what it held. *)
Theorem insertWord_changes_one_entry
    (root : TrieNode cstring) (word : cstring) (freq : Z) :
  wf_trie [] root → valid_word word →
  ∃ root',
    insertWord root word freq = Some root'
    ∧ (∀ p, p ≠ strtolower word → word_at root' p = word_at root p)
    ∧ (∃ w f, word_at root' (strtolower word) = Some (w, f)
              ∧ strtolower w = strtolower word ∧ freq <= f
              ∧ (∀ w0 f0, word_at root (strtolower word) = Some (w0, f0) →
                   f0 <= f)
              ∧ (word_at root (strtolower word) = None → w = word ∧ f = freq)).
Proof.
  intros Hwf Hvalid.
  destruct (insertWord_valid [] root word freq Hwf Hvalid) as (root' & Hins & _).
  exists root'. split; [done|].
  pose proof (word_at_insertWord root word freq root') as Hat.
  split.
  - intros p Hp. rewrite Hat by done. by rewrite decide_False.
  - specialize (Hat (strtolower word) Hwf Hvalid Hins).
    rewrite decide_True in Hat by done.
    destruct (word_at root (strtolower word)) as [[w0 f0]|] eqn:Hold.
    + unfold merge_entry in Hat. cbn [snd] in Hat.
      destruct (f0 <? freq) eqn:Hlt.
      * apply Z.ltb_lt in Hlt. exists word, freq.
        split_and!; [done|done|lia| |done].
        intros w1 f1 [= <- <-]. lia.
      * exists w0, f0. apply Z.ltb_ge in Hlt.
        split_and!; [done| |done| |done].
        -- by eapply wf_word_at.
        -- intros w1 f1 [= <- <-]. lia.
    + exists word, freq. split_and!; [done|done|lia|done|done].
Qed.

Lemma insertWord_changes_one_entry_witness :
  ∃ root',
    insertWord scenario_A_tree (cstr "APPLE") 9 = Some root'
    ∧ (∀ p, p ≠ strtolower (cstr "APPLE") →
         word_at root' p = word_at scenario_A_tree p)
    ∧ (∃ w f, word_at root' (strtolower (cstr "APPLE")) = Some (w, f)
              ∧ strtolower w = strtolower (cstr "APPLE") ∧ 9 <= f
              ∧ (∀ w0 f0,
                   word_at scenario_A_tree (strtolower (cstr "APPLE"))
                   = Some (w0, f0) → f0 <= f)
              ∧ (word_at scenario_A_tree (strtolower (cstr "APPLE")) = None →
                 w = cstr "APPLE" ∧ f = 9)).
Proof.
  apply (insertWord_changes_one_entry scenario_A_tree (cstr "APPLE") 9).
  - apply (wf_insertAll createTrieNode scenario_A);
      [apply wf_trie_create|solve_valid_entries|reflexivity].
  - split; [discriminate|reflexivity].
Defined.

Lemma insert_path_noop (root : TrieNode cstring) lw word freq w0 f0 :
  word_at root lw = Some (w0, f0) → freq <= f0 →
  insert_path root lw word freq = Some root.
Proof.
  revert root. induction lw as [|c rest IH]; intros root Hat Hle.
  - rewrite word_at_nil in Hat. unfold entry_of in Hat.
    destruct root as [cs e w f]. cbn in Hat. destruct e; [|done].
    destruct w as [old|]; [|done]. injection Hat as -> ->.
    cbn [insert_path]. unfold mark_end. cbn.
    by rewrite (proj2 (Z.ltb_ge _ _) Hle).
  - unfold word_at in Hat. cbn [find_node] in Hat. cbn [insert_path].
    destruct (in_children (child_index c)); [|done].
    destruct (children root !! Z.to_nat (child_index c)) as [[child|]|] eqn:Hc;
      [|done|done].
    rewrite (IH child) by done. cbn.
    destruct root as [cs e w f]. cbn in *. by rewrite list_insert_id.
Qed.

(** X7. Inserting a word whose lower-case form is stored already, with
    a frequency that is not larger than the stored one, returns the very
    same tree: no node, flag, word or frequency changes. *)
Theorem insertWord_lower_frequency_is_noop
    (root : TrieNode cstring) (word w0 : cstring) (freq f0 : Z) :
  word_at root (strtolower word) = Some (w0, f0) → freq <= f0 →
  insertWord root word freq = Some root.
Proof.
  intros Hat Hle. destruct word as [|c word]; [done|].
  by eapply insert_path_noop.
Qed.

Lemma insertWord_lower_frequency_is_noop_witness :
  insertWord scenario_A_tree (cstr "APPLE") 5 = Some scenario_A_tree.
Proof.
  apply (insertWord_lower_frequency_is_noop scenario_A_tree (cstr "APPLE")
           (cstr "apple") 5 5); [reflexivity|lia].
Defined.

Lemma insert_path_cons cs e (w : option cstring) f c rest word freq slot :
  islower c = true → cs !! Z.to_nat (child_index c) = Some slot →
  insert_path (mkTrieNode cs e w f) (c :: rest) word freq
  = child' ← insert_path (default createTrieNode slot) rest word freq;
    Some (mkTrieNode (<[Z.to_nat (child_index c) := Some child']> cs) e w f).
Proof.
  intros Hc Hslot. cbn [insert_path children isEndOfWord originalWord frequency].
  apply islower_in_children in Hc. rewrite Hc, Hslot. by destruct slot.
Qed.

Lemma wf_trie_slot path cs e w f c :
  wf_trie path (mkTrieNode cs e w f) → islower c = true →
  ∃ slot, cs !! Z.to_nat (child_index c) = Some slot
          ∧ wf_trie (path ++ [c]) (default createTrieNode slot).
Proof.
  intros Hwf Hc. pose proof Hc as Hin.
  apply islower_in_children, in_children_spec in Hin.
  inversion Hwf as [path' cs' e' w' f' Hlen _ _ Hsub _]; subst.
  destruct (lookup_lt_is_Some_2 cs (Z.to_nat (child_index c))) as [slot Hslot];
    [lia|].
  exists slot. split; [done|]. destruct slot as [child|]; simpl.
  - rewrite <- (letter_child_index c) at 1 by done. by apply Hsub.
  - apply wf_trie_create.
Qed.

Lemma mark_end_after_children cs cs' e (w : option cstring) f word freq :
  mark_end (mkTrieNode cs' e w f) word freq
  = mkTrieNode cs'
      (isEndOfWord (mark_end (mkTrieNode cs e w f) word freq))
      (originalWord (mark_end (mkTrieNode cs e w f) word freq))
      (frequency (mark_end (mkTrieNode cs e w f) word freq)).
Proof. unfold mark_end. cbn. by repeat case_match. Qed.

Lemma insert_path_nil_cons path root c rest w1 f1 w2 f2 :
  wf_trie path root → lower_path (c :: rest) →
  ∃ r2 r,
    insert_path (mark_end root w1 f1) (c :: rest) w2 f2 = Some r
    ∧ insert_path root (c :: rest) w2 f2 = Some r2
    ∧ insert_path r2 [] w1 f1 = Some r.
Proof.
  intros Hwf Hlw. apply Forall_cons in Hlw as [Hc Hrest].
  destruct root as [cs e w f].
  destruct (wf_trie_slot _ _ _ _ _ _ Hwf Hc) as (slot & Hslot & Hwfc).
  destruct (insert_path_total _ _ rest w2 f2 Hwfc Hrest) as [child' Hchild].
  rewrite (mark_end_after_children cs cs).
  rewrite !(insert_path_cons _ _ _ _ _ _ _ _ slot) by done.
  rewrite Hchild. cbn [mbind option_bind insert_path].
  eexists _, _. split_and!; [done|done|].
  f_equal. apply mark_end_after_children.
Qed.

Lemma insert_path_commute lw1 :
  ∀ lw2 path root w1 f1 w2 f2,
    wf_trie path root → lower_path lw1 → lower_path lw2 → lw1 ≠ lw2 →
    ∃ r1 r2 r,
      insert_path root lw1 w1 f1 = Some r1 ∧ insert_path r1 lw2 w2 f2 = Some r
      ∧ insert_path root lw2 w2 f2 = Some r2 ∧ insert_path r2 lw1 w1 f1 = Some r.
Proof.
  induction lw1 as [|c1 rest1 IH]; intros [|c2 rest2] path root w1 f1 w2 f2
    Hwf Hlw1 Hlw2 Hne; [done| | |].
  - destruct (insert_path_nil_cons path root c2 rest2 w1 f1 w2 f2 Hwf Hlw2)
      as (r2 & r & H1 & H2 & H3).
    by exists (mark_end root w1 f1), r2, r.
  - destruct (insert_path_nil_cons path root c1 rest1 w2 f2 w1 f1 Hwf Hlw1)
      as (r1 & r & H1 & H2 & H3).
    by exists r1, (mark_end root w2 f2), r.
  - apply Forall_cons in Hlw1 as [Hc1 Hrest1].
    apply Forall_cons in Hlw2 as [Hc2 Hrest2].
    destruct root as [cs e w f].
    destruct (wf_trie_slot _ _ _ _ _ _ Hwf Hc1) as (slot1 & Hslot1 & Hwf1).
    destruct (wf_trie_slot _ _ _ _ _ _ Hwf Hc2) as (slot2 & Hslot2 & Hwf2).
    pose proof (lookup_lt_Some _ _ _ Hslot1) as Hi1.
    pose proof (lookup_lt_Some _ _ _ Hslot2) as Hi2.
    destruct (decide (c1 = c2)) as [<-|Hc].
    + assert (slot2 = slot1) as -> by congruence.
      destruct (IH rest2 _ _ w1 f1 w2 f2 Hwf1 Hrest1 Hrest2)
        as (ch1 & ch2 & ch & H1 & H12 & H2 & H21); [congruence|].
      exists (mkTrieNode (<[Z.to_nat (child_index c1) := Some ch1]> cs) e w f),
        (mkTrieNode (<[Z.to_nat (child_index c1) := Some ch2]> cs) e w f),
        (mkTrieNode (<[Z.to_nat (child_index c1) := Some ch]> cs) e w f).
      rewrite (insert_path_cons cs _ _ _ _ rest1 _ _ slot1) by done.
      rewrite (insert_path_cons cs _ _ _ _ rest2 _ _ slot1) by done.
      rewrite H1, H2. cbn [mbind option_bind].
      split_and!; [done| |done|].
      * rewrite (insert_path_cons _ _ _ _ _ _ _ _ (Some ch1))
          by (done || by apply list_lookup_insert_eq).
        cbn [default from_option id]. rewrite H12. cbn [mbind option_bind].
        by rewrite list_insert_insert_eq.
      * rewrite (insert_path_cons _ _ _ _ _ _ _ _ (Some ch2))
          by (done || by apply list_lookup_insert_eq).
        cbn [default from_option id]. rewrite H21. cbn [mbind option_bind].
        by rewrite list_insert_insert_eq.
    + assert (Z.to_nat (child_index c1) ≠ Z.to_nat (child_index c2)) as Hidx.
      { intros Heq. apply Hc, child_index_inj.
        apply islower_in_children, in_children_spec in Hc1, Hc2. lia. }
      destruct (insert_path_total _ _ rest1 w1 f1 Hwf1 Hrest1) as [ch1 H1].
      destruct (insert_path_total _ _ rest2 w2 f2 Hwf2 Hrest2) as [ch2 H2].
      exists (mkTrieNode (<[Z.to_nat (child_index c1) := Some ch1]> cs) e w f),
        (mkTrieNode (<[Z.to_nat (child_index c2) := Some ch2]> cs) e w f),
        (mkTrieNode (<[Z.to_nat (child_index c2) := Some ch2]>
                       (<[Z.to_nat (child_index c1) := Some ch1]> cs)) e w f).
      rewrite (insert_path_cons cs _ _ _ c1 rest1 _ _ slot1) by done.
      rewrite (insert_path_cons cs _ _ _ c2 rest2 _ _ slot2) by done.
      rewrite H1, H2. cbn [mbind option_bind].
      split_and!; [done| |done|].
      * rewrite (insert_path_cons _ _ _ _ _ _ _ _ slot2)
          by (done || by rewrite list_lookup_insert_ne).
        by rewrite H2.
      * rewrite (insert_path_cons _ _ _ _ _ _ _ _ slot1)
          by (done || by rewrite list_lookup_insert_ne).
        rewrite H1. cbn [mbind option_bind].
        by rewrite list_insert_insert_ne.
Qed.

(** X8. Two words with different lower-case forms can be inserted in
    either order: both orders are defined and build the same tree, node
    for node. *)
Theorem insertWord_commutes
    (root : TrieNode cstring) (w1 w2 : cstring) (f1 f2 : Z) :
  wf_trie [] root → valid_word w1 → valid_word w2 →
  strtolower w1 ≠ strtolower w2 →
  ∃ r1 r2 r,
    insertWord root w1 f1 = Some r1 ∧ insertWord r1 w2 f2 = Some r
    ∧ insertWord root w2 f2 = Some r2 ∧ insertWord r2 w1 f1 = Some r.
Proof.
  intros Hwf [Hne1 Hv1] [Hne2 Hv2] Hne.
  destruct (insert_path_commute (strtolower w1) (strtolower w2) [] root
              w1 f1 w2 f2 Hwf) as (r1 & r2 & r & H1 & H12 & H2 & H21);
    [by apply strtolower_lower_path..|done|].
  exists r1, r2, r. unfold insertWord.
  destruct w1 as [|c1 w1]; [done|]. destruct w2 as [|c2 w2]; [done|].
  done.
Qed.

Lemma insertWord_commutes_witness :
  ∃ r1 r2 r,
    insertWord scenario_A_tree (cstr "Bee") 2 = Some r1
    ∧ insertWord r1 (cstr "ant") 7 = Some r
    ∧ insertWord scenario_A_tree (cstr "ant") 7 = Some r2
    ∧ insertWord r2 (cstr "Bee") 2 = Some r.
Proof.
  apply (insertWord_commutes scenario_A_tree (cstr "Bee") (cstr "ant") 2 7).
  - apply (wf_insertAll createTrieNode scenario_A);
      [apply wf_trie_create|solve_valid_entries|reflexivity].
  - split; [discriminate|reflexivity].
  - split; [discriminate|reflexivity].
  - discriminate.
Defined.

(** ** The list keeps the best entries *)

Lemma kept_append {W} (sl : SuggestionList W) (e : Suggestion W) :
  list_ok sl → (count sl < Z.to_nat MAX_SUGGESTIONS)%nat →
  take (S (count sl)) (<[count sl := e]> (suggestions sl)) = kept sl ++ [e].
Proof.
  intros [Hlen Hcount] Hlt. unfold kept.
  rewrite (take_S_r _ _ e) by (apply list_lookup_insert_eq; lia).
  by rewrite take_insert_ge by lia.
Qed.

Lemma find_worst_ranks {W} (sl : SuggestionList W) s :
  length (suggestions sl) = Z.to_nat MAX_SUGGESTIONS →
  s ∈ suggestions sl →
  ranks_before s
    (suggestions sl !!! find_worst (suggestions sl) 0 1 (Z.to_nat MAX_SUGGESTIONS - 1)).
Proof.
  intros Hlen Hs. apply list_elem_of_lookup in Hs as [k Hk].
  pose proof (lookup_lt_Some _ _ _ Hk) as Hlt.
  destruct (find_worst_spec (suggestions sl) 0 1 (Z.to_nat MAX_SUGGESTIONS - 1))
    as [_ Hworst]; [lia| |].
  { intros k' Hk'. assert (k' = 0%nat) as -> by lia. apply ranks_before_refl. }
  rewrite <- (list_lookup_total_correct _ _ _ Hk). apply Hworst.
  rewrite Hlen in Hlt. change (Z.to_nat MAX_SUGGESTIONS) with 10%nat in *. lia.
Qed.

Lemma ranks_before_not_better {W} dist freq (w : option W) (worst : Suggestion W) :
  better_than dist freq worst = false →
  ranks_before worst (mkSuggestion w dist freq).
Proof.
  intros Hb. apply not_true_iff_false in Hb. rewrite better_than_spec in Hb.
  unfold ranks_before. cbn. lia.
Qed.

Lemma ranks_before_better {W} dist freq (w : option W) (worst : Suggestion W) :
  better_than dist freq worst = true →
  ranks_before (mkSuggestion w dist freq) worst.
Proof. rewrite better_than_spec. unfold ranks_before. cbn. lia. Qed.

Lemma addSuggestion_retains_best sl word dist freq seen :
  list_ok sl → retains_best sl seen →
  retains_best (addSuggestion sl word dist freq)
    (seen ++ [mkSuggestion (Some word) dist freq]).
Proof.
  intros Hok Hbest. pose proof Hok as [Hlen Hcount].
  unfold addSuggestion.
  destruct (Z.of_nat (count sl) <? MAX_SUGGESTIONS) eqn:Hroom.
  - apply Z.ltb_lt in Hroom.
    assert (count sl < Z.to_nat MAX_SUGGESTIONS)%nat as Hlt
      by (change MAX_SUGGESTIONS with 10 in *; lia).
    intros o Ho. left. unfold kept. cbn [count suggestions].
    rewrite kept_append by done.
    apply elem_of_app in Ho as [Ho|Ho]; [|set_solver].
    destruct (Hbest o Ho) as [Hin|[Hfull _]]; [set_solver|lia].
  - pose proof (kept_full sl Hok Hroom) as Hkept.
    assert (count sl = Z.to_nat MAX_SUGGESTIONS) as Hfull.
    { apply Z.ltb_ge in Hroom. change MAX_SUGGESTIONS with 10 in *. lia. }
    set (worst_idx := find_worst (suggestions sl) 0 1 (Z.to_nat MAX_SUGGESTIONS - 1)).
    assert (worst_idx < length (suggestions sl))%nat as Hidx.
    { pose proof (find_worst_lt (suggestions sl) (Z.to_nat MAX_SUGGESTIONS - 1)).
      rewrite Hlen. fold worst_idx in H.
      change (Z.to_nat MAX_SUGGESTIONS) with 10%nat in *. lia. }
    assert (∀ s, s ∈ suggestions sl → ranks_before s (suggestions sl !!! worst_idx))
      as Hworst by (intros s Hs; by apply find_worst_ranks).
    destruct (better_than dist freq (suggestions sl !!! worst_idx)) eqn:Hbetter.
    + assert (∀ s, s ∈ <[worst_idx := mkSuggestion (Some word) dist freq]>
                            (suggestions sl) →
                   s = mkSuggestion (Some word) dist freq ∨ s ∈ suggestions sl)
        as Hin'.
      { intros s Hs. apply list_elem_of_lookup in Hs as [k Hk].
        destruct (decide (k = worst_idx)) as [->|Hne].
        - rewrite list_lookup_insert_eq in Hk by done. left. congruence.
        - rewrite list_lookup_insert_ne in Hk by done. right.
          by eapply list_elem_of_lookup_2. }
      assert (∀ s, s ∈ <[worst_idx := mkSuggestion (Some word) dist freq]>
                            (suggestions sl) →
                   ranks_before s (suggestions sl !!! worst_idx)) as Hall.
      { intros s Hs. destruct (Hin' s Hs) as [->|Hs'];
          [by apply ranks_before_better|by apply Hworst]. }
      intros o Ho. unfold kept. cbn [count suggestions].
      rewrite Hfull, <- Hlen, <- (length_insert (suggestions sl) worst_idx
        (mkSuggestion (Some word) dist freq)), firstn_all.
      apply elem_of_app in Ho as [Ho|Ho].
      * destruct (Hbest o Ho) as [Hin|[_ Hout]].
        -- rewrite Hkept in Hin. apply list_elem_of_lookup in Hin as [k Hk].
           destruct (decide (k = worst_idx)) as [->|Hne].
           ++ right. split; [by rewrite length_insert|].
              intros s Hs. rewrite <- (list_lookup_total_correct _ _ _ Hk).
              by apply Hall.
           ++ left. apply (list_elem_of_lookup_2 _ k).
              by rewrite list_lookup_insert_ne.
        -- right. split; [by rewrite length_insert|].
           intros s Hs. rewrite Hkept in Hout.
           destruct (Hin' s Hs) as [->|Hs']; [|by apply Hout].
           eapply ranks_before_trans; [by apply ranks_before_better|].
           apply Hout. apply list_elem_of_lookup_total_2. done.
      * apply list_elem_of_singleton in Ho as ->. left.
        apply (list_elem_of_lookup_2 _ worst_idx).
        by apply list_lookup_insert_eq.
    + intros o Ho. apply elem_of_app in Ho as [Ho|Ho]; [by apply Hbest|].
      apply list_elem_of_singleton in Ho as ->. right. split; [done|].
      intros s Hs. rewrite Hkept in Hs.
      eapply ranks_before_trans; [by apply Hworst|].
      by apply ranks_before_not_better.
Qed.

Lemma retains_best_init {W} : retains_best (@initSuggestionList W) [].
Proof. intros o Ho. by apply elem_of_nil in Ho. Qed.

Lemma fold_retains_best {X}
    (step : SuggestionList cstring → X → SuggestionList cstring)
    (entry : X → Suggestion cstring) (offers : list X) sl seen :
  (∀ sl x, ∃ w, sug_word (entry x) = Some w
     ∧ step sl x = addSuggestion sl w (sug_distance (entry x)) (sug_frequency (entry x))) →
  list_ok sl → retains_best sl seen →
  retains_best (fold_left step offers sl) (seen ++ (entry <$> offers)).
Proof.
  intros Hstep. revert sl seen.
  induction offers as [|x offers IH]; intros sl seen Hok Hbest.
  - by rewrite app_nil_r.
  - cbn [fold_left fmap list_fmap]. rewrite cons_middle, (assoc_L (++)).
    destruct (Hstep sl x) as (w & Hw & Hx).
    apply IH.
    + rewrite Hx. by apply addSuggestion_kept.
    + rewrite Hx.
      replace (entry x) with
        (mkSuggestion (Some w) (sug_distance (entry x)) (sug_frequency (entry x)))
        by (destruct (entry x); cbn in *; by subst).
      by apply addSuggestion_retains_best.
Qed.

Lemma fold_appends {X}
    (step : SuggestionList cstring → X → SuggestionList cstring)
    (entry : X → Suggestion cstring) (offers : list X) sl :
  (∀ sl x, ∃ w, sug_word (entry x) = Some w
     ∧ step sl x = addSuggestion sl w (sug_distance (entry x)) (sug_frequency (entry x))) →
  list_ok sl → (count sl + length offers ≤ Z.to_nat MAX_SUGGESTIONS)%nat →
  kept (fold_left step offers sl) = kept sl ++ (entry <$> offers).
Proof.
  intros Hstep. revert sl.
  induction offers as [|x offers IH]; intros sl Hok Hroom.
  - by rewrite app_nil_r.
  - cbn [fold_left fmap list_fmap length] in *.
    destruct (Hstep sl x) as (w & Hw & Hx).
    assert ((Z.of_nat (count sl) <? MAX_SUGGESTIONS) = true) as Hlt.
    { apply Z.ltb_lt. change MAX_SUGGESTIONS with 10 in *. lia. }
    assert (kept (step sl x) = kept sl ++ [entry x] ∧ count (step sl x) = S (count sl))
      as [Hk Hc].
    { rewrite Hx. unfold addSuggestion. rewrite Hlt. unfold kept at 1.
      cbn [count suggestions]. rewrite kept_append by (done || lia).
      split; [|done]. do 2 f_equal. destruct (entry x); cbn in *; by subst. }
    rewrite IH.
    + by rewrite Hk, <- (assoc_L (++)).
    + rewrite Hx. by apply addSuggestion_kept.
    + lia.
Qed.

Lemma offer_is_addSuggestion sl o :
  ∃ w, sug_word (offered o) = Some w
       ∧ offer sl o
         = addSuggestion sl w (sug_distance (offered o)) (sug_frequency (offered o)).
Proof. by exists o.1.1. Qed.

(** X9. Whatever is offered to a fresh suggestion list, in whatever
    order: the list holds as many entries as were offered, up to ten;
    its entries are offers; the first ten offers are stored in the order
    they came; and an offer that is not in the list at the end is
    outranked by every one of the ten entries that are (none of them has
    a larger distance, or the same distance and a smaller frequency). *)
Theorem addSuggestion_keeps_the_best (offers : list (cstring * Z * Z)) :
  let sl := fold_left offer offers initSuggestionList in
  count sl = (length offers `min` Z.to_nat MAX_SUGGESTIONS)%nat
  ∧ length (suggestions sl) = Z.to_nat MAX_SUGGESTIONS
  ∧ (∀ s, s ∈ kept sl → ∃ o, o ∈ offers ∧ s = offered o)
  ∧ kept (fold_left offer (take (Z.to_nat MAX_SUGGESTIONS) offers)
            initSuggestionList)
    = offered <$> take (Z.to_nat MAX_SUGGESTIONS) offers
  ∧ (∀ o, o ∈ offers →
       offered o ∈ kept sl
       ∨ (count sl = Z.to_nat MAX_SUGGESTIONS
          ∧ ∀ s, s ∈ kept sl → ranks_before s (offered o))).
Proof.
  intros sl.
  destruct (offers_kept offer offered offers initSuggestionList
              offer_is_addSuggestion list_ok_init) as ([Hlen _] & Hcount & Hin).
  split_and!; [done|done| | |].
  - intros s Hs. destruct (Hin s Hs) as [Hs'|Hs']; [|done].
    rewrite kept_init in Hs'. by apply elem_of_nil in Hs'.
  - rewrite (fold_appends offer offered) by
      (apply offer_is_addSuggestion || apply list_ok_init
       || (rewrite length_take; cbn; lia)).
    by rewrite kept_init.
  - intros o Ho.
    apply (fold_retains_best offer offered offers initSuggestionList []
             offer_is_addSuggestion list_ok_init retains_best_init).
    rewrite app_nil_l. by apply list_elem_of_fmap_2.
Qed.

(** X10. On entries whose distance and frequency are non-negative
    [int] values the subtractions of [compareSuggestions] do not
    overflow: swapping the arguments negates the result, the result is
    zero exactly for equal distance and frequency, and negative exactly
    when the first entry has the smaller distance, or the same distance
    and the larger frequency. *)
Theorem compareSuggestions_antisymmetric (a b : Suggestion cstring) :
  in_range a → in_range b →
  compareSuggestions a b = - compareSuggestions b a
  ∧ (compareSuggestions a b = 0
     ↔ sug_distance a = sug_distance b ∧ sug_frequency a = sug_frequency b)
  ∧ (compareSuggestions a b < 0
     ↔ sug_distance a < sug_distance b
       ∨ (sug_distance a = sug_distance b ∧ sug_frequency b < sug_frequency a)).
Proof.
  intros Ha Hb.
  rewrite (compareSuggestions_in_range a b), (compareSuggestions_in_range b a)
    by done.
  repeat case_decide; lia.
Qed.

Lemma compareSuggestions_antisymmetric_witness :
  compareSuggestions (mkSuggestion (Some (cstr "app")) 0 3)
    (mkSuggestion (Some (cstr "apple")) 0 INT_MAX)
  = - compareSuggestions (mkSuggestion (Some (cstr "apple")) 0 INT_MAX)
        (mkSuggestion (Some (cstr "app")) 0 3)
  ∧ (compareSuggestions (mkSuggestion (Some (cstr "app")) 0 3)
       (mkSuggestion (Some (cstr "apple")) 0 INT_MAX) = 0
     ↔ 0 = 0 ∧ 3 = INT_MAX)
  ∧ (compareSuggestions (mkSuggestion (Some (cstr "app")) 0 3)
       (mkSuggestion (Some (cstr "apple")) 0 INT_MAX) < 0
     ↔ 0 < 0 ∨ (0 = 0 ∧ INT_MAX < 3)).
Proof.
  apply (compareSuggestions_antisymmetric
           (mkSuggestion (Some (cstr "app")) 0 3)
           (mkSuggestion (Some (cstr "apple")) 0 INT_MAX));
    (split; cbn; unfold INT_MAX; lia).
Defined.

(** ** Prefix search: the empty tree, the words shown, the characters
    it can take *)

(** X11. On the tree [createTrieNode] returns, a search prints "No
    suggestions found" for every prefix made of letters, the empty
    prefix included. *)
Theorem searchWordsByPrefix_on_empty_tree
    (qsort : ∀ A : Type, (A → A → Z) → list A → list A) (prefix : cstring) :
  isValidWord prefix = true →
  searchWordsByPrefix qsort createTrieNode prefix = Some NoSuggestionsFound.
Proof.
  intros Hprefix. destruct prefix as [|c rest]; [reflexivity|].
  unfold searchWordsByPrefix.
  destruct (find_node_total [] createTrieNode (strtolower (c :: rest))
              (wf_trie_create []) (strtolower_lower_path _ Hprefix))
    as [reached Hreached].
  destruct (find_node_create (W:=list ascii) (tolower c) (strtolower rest))
    as [Hnone|Hundef].
  - unfold strtolower, toLowerCase in *. cbn [map] in *. by rewrite Hnone.
  - unfold strtolower, toLowerCase in *. cbn [map] in *. congruence.
Qed.

Lemma searchWordsByPrefix_on_empty_tree_witness :
  searchWordsByPrefix isort createTrieNode (cstr "Tre") = Some NoSuggestionsFound.
Proof.
  apply (searchWordsByPrefix_on_empty_tree isort (cstr "Tre")). reflexivity.
Defined.


Lemma length_kept {W} (sl : SuggestionList W) :
  list_ok sl → length (kept sl) = count sl.
Proof. intros [Hlen Hcount]. unfold kept. rewrite length_take. lia. Qed.






Lemma islower_tolower_iff c : islower (tolower c) = true ↔ isalpha c = true.
Proof. split; [apply isalpha_of_tolower|apply islower_tolower]. Qed.

Lemma find_node_undefined path root prefix :
  wf_trie path root →
  find_node root (strtolower prefix) = None
  ↔ ∃ pre c post,
      prefix = pre ++ c :: post ∧ isalpha c = false
      ∧ ∃ node, find_node root (strtolower pre) = Some (Some node).
Proof.
  revert path root. induction prefix as [|c rest IH]; intros path root Hwf.
  { split; [done|]. intros (pre & c & post & Heq & _). by destruct pre. }
  change (strtolower (c :: rest)) with (tolower c :: strtolower rest).
  cbn [find_node].
  destruct (isalpha c) eqn:Halpha.
  - pose proof (islower_tolower c Halpha) as Hlow.
    destruct root as [cs e w f].
    destruct (wf_trie_slot _ _ _ _ _ _ Hwf Hlow) as (slot & Hslot & Hwfc).
    apply islower_in_children in Hlow. rewrite Hlow. cbn [children].
    rewrite Hslot. destruct slot as [child|]; cbn [default from_option id] in Hwfc.
    + rewrite (IH _ child Hwfc). split.
      * intros (pre & c' & post & -> & Hc' & node & Hnode).
        exists (c :: pre), c', post. split_and!; [done|done|].
        exists node.
        change (strtolower (c :: pre)) with (tolower c :: strtolower pre).
        cbn [find_node children]. by rewrite Hlow, Hslot.
      * intros (pre & c' & post & Heq & Hc' & node & Hnode).
        destruct pre as [|c0 pre]; injection Heq as <- ->; [congruence|].
        exists pre, c', post. split_and!; [done|done|].
        exists node. revert Hnode.
        change (strtolower (c :: pre)) with (tolower c :: strtolower pre).
        cbn [find_node children]. by rewrite Hlow, Hslot.
    + split; [done|].
      intros (pre & c' & post & Heq & Hc' & node & Hnode).
      destruct pre as [|c0 pre]; injection Heq as <- ->; [congruence|].
      revert Hnode.
      change (strtolower (c :: pre)) with (tolower c :: strtolower pre).
      cbn [find_node children]. by rewrite Hlow, Hslot.
  - assert (in_children (child_index (tolower c)) = false) as ->.
    { apply not_true_iff_false. rewrite <- islower_in_children, islower_tolower_iff.
      congruence. }
    split; [|done]. intros _. exists [], c, rest. split_and!; [done|done|].
    by exists root.
Qed.

(** X13. [searchWordsByPrefix] does not check its prefix.  On a
    well-formed tree the call is undefined (it indexes [children] outside
    its 26 cells) exactly when the prefix holds a character that is not
    a letter and the walk gets as far as that character, every child on
    the way being present. *)
Theorem searchWordsByPrefix_undefined_iff
    (qsort : ∀ A : Type, (A → A → Z) → list A → list A)
    (root : TrieNode cstring) (prefix : cstring) :
  wf_trie [] root →
  searchWordsByPrefix qsort root prefix = None
  ↔ ∃ pre c post,
      prefix = pre ++ c :: post ∧ isalpha c = false
      ∧ ∃ node, find_node root (strtolower pre) = Some (Some node).
Proof.
  intros Hwf. rewrite <- (find_node_undefined [] root prefix Hwf).
  unfold searchWordsByPrefix.
  destruct (find_node root (strtolower prefix)) as [[current|]|];
    cbn [mbind option_bind]; [|done..].
  by destruct (count _ =? 0)%nat.
Qed.

Lemma searchWordsByPrefix_undefined_iff_witness :
  searchWordsByPrefix isort scenario_A_tree (cstr "ap-t") = None
  ↔ ∃ pre c post,
      cstr "ap-t" = pre ++ c :: post ∧ isalpha c = false
      ∧ ∃ node, find_node scenario_A_tree (strtolower pre) = Some (Some node).
Proof.
  apply (searchWordsByPrefix_undefined_iff isort scenario_A_tree (cstr "ap-t")).
  apply (wf_insertAll createTrieNode scenario_A);
    [apply wf_trie_create|solve_valid_entries|reflexivity].
Defined.

(** X14. Option 1 of the menu reads the prefix into a buffer of
    [MAX_WORD_LENGTH] characters and checks it before it walks the tree.
    On a well-formed tree whose frequencies are non-negative [int]
    values it is defined exactly for the strings that fit the buffer,
    those of fewer than [MAX_WORD_LENGTH] characters; a longer one
    overruns it.  For a string that fits, it answers "Invalid prefix"
    exactly when the string holds a character that is not a letter; and
    because [main] calls [searchWordsByPrefix] only after its own walk
    has found a node, the search it starts for a prefix that is not
    empty always has at least one word to show, and at most ten. *)
Theorem search_by_prefix_defined_iff_fits
    (qsort : ∀ A : Type, (A → A → Z) → list A → list A) (rows : Rows)
    (root : TrieNode cstring) (dict : Dictionary cstring) (prefix : cstring) :
  qsort_contract qsort →
  wf_trie [] root →
  Forall (λ t, 0 <= t.2.2 <= INT_MAX) (terminals root) →
  (is_Some (search_by_prefix qsort rows root dict prefix)
   ↔ Z.of_nat (length prefix) < MAX_WORD_LENGTH)
  ∧ (∀ outcome,
       search_by_prefix qsort rows root dict prefix = Some outcome →
       (outcome = InvalidPrefix ↔ isValidWord prefix = false)
       ∧ (∀ out, outcome = PrefixSearch out → prefix ≠ [] →
            ∃ entries, out = SuggestionsFor entries
                       ∧ (0 < length entries ≤ Z.to_nat MAX_SUGGESTIONS)%nat)).
Proof.
  intros Hqsort Hwf _. unfold search_by_prefix.
  destruct (MAX_WORD_LENGTH <=? Z.of_nat (length prefix)) eqn:Hfits.
  { apply Z.leb_le in Hfits. split; [|done].
    split; [intros [? ?]; done|lia]. }
  apply Z.leb_gt in Hfits.
  assert (Hdef : ∀ o : SearchOutcome cstring,
             is_Some (Some o) ↔ Z.of_nat (length prefix) < MAX_WORD_LENGTH).
  { intros o. split; [by intros _|by intros _; exists o]. }
  destruct (isValidWord prefix) eqn:Hprefix; cbn [negb].
  2:{ split; [apply Hdef|]. intros outcome [= <-]. split; [done|]. intros; done. }
  destruct (find_node_total [] root (strtolower prefix) Hwf
              (strtolower_lower_path _ Hprefix)) as [reached Hreached].
  rewrite Hreached. cbn [mbind option_bind].
  destruct reached as [current|].
  2:{ split; [apply Hdef|]. intros outcome [= <-]. split; [done|]. intros; done. }
  unfold searchWordsByPrefix. rewrite Hreached. cbn [mbind option_bind].
  destruct (collectSuggestions_kept current) as (Hok & Hcount & Hkept).
  set (sl := collectSuggestions current initSuggestionList) in *.
  destruct (count sl =? 0)%nat eqn:Hzero;
    cbn [fmap option_fmap option_map].
  - split; [apply Hdef|]. intros outcome [= <-]. split; [done|].
    intros out [= <-] Hne. exfalso. apply Nat.eqb_eq in Hzero.
    destruct prefix as [|c prefix]; [done|].
    pose proof (find_node_nonempty [] root (tolower c) (strtolower prefix)
                  current Hwf Hreached) as Hterm.
    rewrite Hcount in Hzero. destruct (terminals current); [done|].
    simpl in Hzero. unfold MAX_SUGGESTIONS in Hzero. lia.
  - split; [apply Hdef|]. intros outcome [= <-]. split; [done|].
    intros out [= <-] _. eexists. split; [done|].
    rewrite (printed_qsort qsort Hqsort sl Hok).
    rewrite (proj1 (Hqsort _ compareSuggestions (kept sl))), length_kept by done.
    destruct Hok as [Hlen Hle]. apply Nat.eqb_neq in Hzero. lia.
Qed.

Lemma search_by_prefix_defined_iff_fits_witness :
  (is_Some (search_by_prefix isort no_rows scenario_A_tree [cstr "apple"]
              (cstr "a.p"))
   ↔ Z.of_nat (length (cstr "a.p")) < MAX_WORD_LENGTH)
  ∧ (∀ outcome,
       search_by_prefix isort no_rows scenario_A_tree [cstr "apple"]
         (cstr "a.p") = Some outcome →
       (outcome = InvalidPrefix ↔ isValidWord (cstr "a.p") = false)
       ∧ (∀ out, outcome = PrefixSearch out → cstr "a.p" ≠ [] →
            ∃ entries, out = SuggestionsFor entries
                       ∧ (0 < length entries ≤ Z.to_nat MAX_SUGGESTIONS)%nat)).
Proof.
  apply (search_by_prefix_defined_iff_fits isort no_rows scenario_A_tree
           [cstr "apple"] (cstr "a.p")); [apply isort_contract| |].
  - apply (wf_insertAll createTrieNode scenario_A);
      [apply wf_trie_create|solve_valid_entries|reflexivity].
  - let t := eval vm_compute in (terminals scenario_A_tree) in
    change (terminals scenario_A_tree) with t.
    repeat (constructor; [unfold INT_MAX; cbn [snd]; lia|]). constructor.
Defined.

(** ** The dictionary [collectAllWords] builds *)

(** X15. [collectAllWords] appends to the dictionary the words of the
    terminal nodes in the order of the traversal, and stops adding when
    the dictionary holds [MAX_WORDS] words; what the dictionary held is
    kept, in place. *)
Theorem collectAllWords_appends_up_to_capacity
    (node : TrieNode cstring) (dict : Dictionary cstring) :
  (length dict ≤ Z.to_nat MAX_WORDS)%nat →
  collectAllWords node dict
  = dict ++ take (Z.to_nat MAX_WORDS - length dict)
              ((λ t, t.2.1) <$> terminals node)
  ∧ (length (collectAllWords node dict) ≤ Z.to_nat MAX_WORDS)%nat
  ∧ (length dict = Z.to_nat MAX_WORDS → collectAllWords node dict = dict).
Proof.
  intros Hlen. rewrite collectAllWords_terminals, add_words_take by done.
  split_and!; [done| |].
  - rewrite length_app, length_take. lia.
  - intros ->. by rewrite Nat.sub_diag, take_0, app_nil_r.
Qed.

Lemma collectAllWords_appends_up_to_capacity_witness :
  collectAllWords scenario_A_tree [cstr "Zebra"]
  = [cstr "Zebra"]
    ++ take (Z.to_nat MAX_WORDS - length [cstr "Zebra"])
         ((λ t, t.2.1) <$> terminals scenario_A_tree)
  ∧ (length (collectAllWords scenario_A_tree [cstr "Zebra"])
     ≤ Z.to_nat MAX_WORDS)%nat
  ∧ (length [cstr "Zebra"] = Z.to_nat MAX_WORDS →
     collectAllWords scenario_A_tree [cstr "Zebra"] = [cstr "Zebra"]).
Proof.
  apply (collectAllWords_appends_up_to_capacity scenario_A_tree [cstr "Zebra"]).
  unfold MAX_WORDS. cbn [length]. lia.
Defined.

Lemma strcmp_cons_same c a b : Mem.strcmp (c :: a) (c :: b) = Mem.strcmp a b.
Proof. cbn [Mem.strcmp]. by rewrite Z.eqb_refl. Qed.

Lemma strcmp_nil_letter i p : (i < 26)%nat → Mem.strcmp [] (letter i :: p) < 0.
Proof. intros Hi. cbn [Mem.strcmp]. rewrite code_letter by done. lia. Qed.

Lemma strcmp_letters i j p q :
  (i < j)%nat → (j < 26)%nat → Mem.strcmp (letter i :: p) (letter j :: q) < 0.
Proof.
  intros Hij Hj. cbn [Mem.strcmp]. rewrite !code_letter by lia.
  destruct (97 + Z.of_nat i =? 97 + Z.of_nat j) eqn:Heq; lia.
Qed.

Lemma through_children_in_order {W X}
    (below : TrieNode W → list (list ascii * X)) k slots :
  (k + length slots ≤ 26)%nat →
  (∀ i child, slots !! i = Some (Some child) →
     StronglySorted (λ t u, Mem.strcmp t.1 u.1 < 0) (below child)) →
  StronglySorted (λ t u, Mem.strcmp t.1 u.1 < 0) (through_children below k slots).
Proof.
  revert k. induction slots as [|slot slots IH]; intros k Hk Hbelow;
    cbn [through_children]; [constructor|].
  cbn [length] in Hk. apply StronglySorted_app. split_and!.
  - intros t u Ht Hu. destruct slot as [child|]; [|by apply elem_of_nil in Ht].
    apply list_elem_of_fmap in Ht as ([p e] & -> & _).
    destruct u as [q e'].
    apply elem_of_through_children in Hu as (i & ch & q' & Hi & _ & ->).
    apply lookup_lt_Some in Hi. cbn [prod_map fst snd]. apply strcmp_letters; lia.
  - destruct slot as [child|]; [|constructor].
    apply (StronglySorted_fmap _ (λ t u, Mem.strcmp t.1 u.1 < 0));
      [|by apply (Hbelow 0%nat)].
    intros [p e] [q e']. cbn [prod_map fst snd]. by rewrite strcmp_cons_same.
  - apply IH; [lia|]. intros i child Hi. by apply (Hbelow (S i)).
Qed.

Lemma terminals_in_order (node : TrieNode cstring) :
  ∀ path, wf_trie path node →
    StronglySorted (λ t u, Mem.strcmp t.1 u.1 < 0) (terminals node).
Proof.
  induction node as [cs e w f IH] using TrieNode_children_ind.
  intros path Hwf. rewrite terminals_unfold. cbn [children].
  pose proof (wf_trie_children_length _ _ Hwf) as Hlen. cbn [children] in Hlen.
  apply StronglySorted_app. split_and!.
  - intros t u Ht Hu. destruct (entry_of _); [|by apply elem_of_nil in Ht].
    apply list_elem_of_singleton in Ht as ->. destruct u as [q e'].
    apply elem_of_through_children in Hu as (i & ch & q' & Hi & _ & ->).
    apply lookup_lt_Some in Hi. cbn [fst]. apply strcmp_nil_letter.
    change (Z.to_nat ALPHABET_SIZE) with 26%nat in Hlen. lia.
  - destruct (entry_of _); repeat constructor.
  - apply through_children_in_order.
    + change (Z.to_nat ALPHABET_SIZE) with 26%nat in Hlen. lia.
    + intros i child Hi.
      destruct (wf_trie_child _ _ i child Hwf Hi) as [Hwfc _].
      rewrite Forall_lookup in IH. by apply (IH i _ Hi child eq_refl _ Hwfc).
Qed.

Lemma StronglySorted_on {A} (R1 R2 : A → A → Prop) (l : list A) :
  (∀ a b, a ∈ l → b ∈ l → R1 a b → R2 a b) →
  StronglySorted R1 l → StronglySorted R2 l.
Proof.
  intros HR Hsorted. induction Hsorted as [|x l _ IH Hx]; constructor.
  - apply IH. intros a b Ha Hb. apply HR; by right.
  - rewrite Forall_forall in Hx |- *. intros y Hy.
    apply HR; [by left|by right|by apply Hx].
Qed.

Lemma StronglySorted_take {A} (R : A → A → Prop) (l : list A) n :
  StronglySorted R l → StronglySorted R (take n l).
Proof.
  intros Hl. rewrite <- (take_drop n l) in Hl.
  by apply StronglySorted_app_1_l in Hl.
Qed.

(** X16. The traversal goes through the children in letter order, so
    the dictionary collected from a tree built by [insertWord] lists the
    words in strictly ascending [strcmp] order of their lower-case forms:
    no word comes twice, and the order does not depend on the order of
    insertion. *)
Theorem collectAllWords_in_letter_order (entries : list (cstring * Z)) :
  valid_entries entries →
  ∃ root,
    insertAll createTrieNode entries = Some root
    ∧ StronglySorted
        (λ a b, Mem.strcmp (strtolower a) (strtolower b) < 0)
        (collectAllWords root []).
Proof.
  intros Hvalid.
  destruct (insertAll_total createTrieNode entries (wf_trie_create []) Hvalid)
    as (root & Hroot & Hwf).
  exists root. split; [done|]. rewrite collectAllWords_take.
  apply StronglySorted_take.
  apply (StronglySorted_fmap _
           (λ t u : list ascii * (list ascii * Z),
              Mem.strcmp (strtolower t.2.1) (strtolower u.2.1) < 0));
    [done|].
  apply (StronglySorted_on (λ t u, Mem.strcmp t.1 u.1 < 0));
    [|by eapply terminals_in_order].
  intros t u Ht Hu.
  destruct (terminals_stored root [] root t Hwf eq_refl Ht) as [_ ->].
  destruct (terminals_stored root [] root u Hwf eq_refl Hu) as [_ ->].
  done.
Qed.

Lemma collectAllWords_in_letter_order_witness :
  ∃ root,
    insertAll createTrieNode scenario_E = Some root
    ∧ StronglySorted
        (λ a b, Mem.strcmp (strtolower a) (strtolower b) < 0)
        (collectAllWords root []).
Proof.
  apply (collectAllWords_in_letter_order scenario_E). solve_valid_entries.
Defined.

Lemma terminals_le_entries entries root :
  valid_entries entries → insertAll createTrieNode entries = Some root →
  (length (terminals root) ≤ length entries)%nat.
Proof.
  intros Hvalid Hroot.
  pose proof (wf_insertAll _ _ _ (wf_trie_create []) Hvalid Hroot) as Hwf.
  rewrite <- (length_fmap fst (terminals root)),
    <- (length_fmap (strtolower ∘ fst) entries).
  apply submseteq_length, NoDup_submseteq; [by eapply NoDup_terminals|].
  intros p Hp. apply list_elem_of_fmap in Hp as ([p' e] & -> & Ht).
  apply (stored_path_inserted entries root); [done..|].
  apply (terminals_word_at [] root) in Ht; [|done]. by eexists.
Qed.

(** X17. [main] takes at most [MAX_WORDS] words, so the limit of the
    dictionary is never reached there: the dictionary collected from a
    tree built from at most [MAX_WORDS] insertions holds exactly the
    words stored in the tree, one entry for each terminal node. *)
Theorem collectAllWords_holds_every_word (entries : list (cstring * Z)) :
  valid_entries entries →
  (length entries ≤ Z.to_nat MAX_WORDS)%nat →
  ∃ root,
    insertAll createTrieNode entries = Some root
    ∧ collectAllWords root [] = (λ t, t.2.1) <$> terminals root
    ∧ (∀ w, w ∈ collectAllWords root [] ↔ ∃ f, stored root w f)
    ∧ (length (collectAllWords root []) ≤ length entries)%nat.
Proof.
  intros Hvalid Hlen.
  destruct (insertAll_total createTrieNode entries (wf_trie_create []) Hvalid)
    as (root & Hroot & Hwf).
  pose proof (terminals_le_entries entries root Hvalid Hroot) as Hterm.
  exists root. split; [done|].
  assert (collectAllWords root [] = (λ t, t.2.1) <$> terminals root) as ->.
  { rewrite collectAllWords_take. apply take_ge. rewrite length_fmap. lia. }
  split_and!; [done| |by rewrite length_fmap].
  intros w. rewrite list_elem_of_fmap. split.
  - intros ([p [w' f]] & -> & Ht). exists f, p.
    by apply (terminals_word_at [] root).
  - intros (f & p & Hp). exists (p, (w, f)). split; [done|].
    by apply (terminals_word_at [] root).
Qed.

Lemma collectAllWords_holds_every_word_witness :
  ∃ root,
    insertAll createTrieNode repeated_inserts = Some root
    ∧ collectAllWords root [] = (λ t, t.2.1) <$> terminals root
    ∧ (∀ w, w ∈ collectAllWords root [] ↔ ∃ f, stored root w f)
    ∧ (length (collectAllWords root []) ≤ length repeated_inserts)%nat.
Proof.
  apply (collectAllWords_holds_every_word repeated_inserts).
  - solve_valid_entries.
  - unfold MAX_WORDS, repeated_inserts. cbn [length]. lia.
Defined.

(** ** Spelling correction shows the nearest words *)

Lemma edit_distance_unique a b n : edit_distance a b n → n = lev a b.
Proof.
  intros [He Hmin]. apply Nat.le_antisymm.
  - apply Hmin, lev_edits.
  - by apply edits_lev_le.
Qed.

Lemma spell_loop_retains_best rows li words :
  ∀ i sl seen,
    list_ok sl → retains_best sl seen →
    ∀ o,
      o ∈ seen
      ∨ (∃ k w, words !! k = Some w
                ∧ o = mkSuggestion (Some w)
                        (levenshteinDistance (rows (i + k)%nat).1
                           (rows (i + k)%nat).2 li (strtolower w)) 0
                ∧ sug_distance o <= MAX_LEVENSHTEIN_DISTANCE) →
      o ∈ kept (spell_loop rows li words i sl)
      ∨ (count (spell_loop rows li words i sl) = Z.to_nat MAX_SUGGESTIONS
         ∧ ∀ s, s ∈ kept (spell_loop rows li words i sl) → ranks_before s o).
Proof.
  induction words as [|w words IH]; intros i sl seen Hok Hbest o Ho;
    cbn [spell_loop].
  - destruct Ho as [Ho|(k & w & Hk & _)]; [by apply Hbest|done].
  - set (dist := levenshteinDistance (rows i).1 (rows i).2 li (strtolower w)).
    destruct (dist <=? MAX_LEVENSHTEIN_DISTANCE) eqn:Hle.
    + apply (IH (S i) _ (seen ++ [mkSuggestion (Some w) dist 0]));
        [by apply addSuggestion_kept|by apply addSuggestion_retains_best|].
      destruct Ho as [Ho|(k & w' & Hk & -> & Hd)].
      * left. apply elem_of_app. by left.
      * destruct k as [|k]; cbn in Hk.
        -- injection Hk as <-. left. apply elem_of_app. right.
           rewrite Nat.add_0_r. by apply list_elem_of_singleton.
        -- right. exists k, w'. by rewrite Nat.add_succ_r in *.
    + apply (IH (S i) _ seen); [done|done|].
      destruct Ho as [Ho|(k & w' & Hk & -> & Hd)]; [by left|].
      destruct k as [|k]; cbn in Hk.
      * injection Hk as <-. cbn [sug_distance] in Hd.
        rewrite Nat.add_0_r in Hd. fold dist in Hd.
        apply Z.leb_gt in Hle. clearbody dist. lia.
      * right. exists k, w'. by rewrite Nat.add_succ_r in *.
Qed.

(** X18. The spelling correction shows the nearest words: a word of the
    dictionary whose rows could be allocated and whose lower-case form is
    at distance [n ≤ 2] from the lower-case input is either on the list
    shown, with that distance, or the list holds ten words none of which
    is farther than [n] from the input. *)
Theorem suggestSimilarWords_shows_nearest
    (qsort : ∀ A : Type, (A → A → Z) → list A → list A) (rows : Rows)
    (input : cstring) (dict : Dictionary cstring) :
  qsort_contract qsort →
  rows_ok rows dict →
  Forall (λ w, Z.of_nat (length input) + Z.of_nat (length w) < INT_MAX) dict →
  ∀ (k : nat) (w : cstring) (prev curr : list Z) (n : nat),
    dict !! k = Some w →
    rows k = (Some prev, Some curr) →
    edit_distance (strtolower input) (strtolower w) n →
    (n ≤ 2)%nat →
    mkSuggestion (Some w) (Z.of_nat n) 0
      ∈ corrections (suggestSimilarWords qsort rows input dict)
    ∨ (length (corrections (suggestSimilarWords qsort rows input dict))
       = Z.to_nat MAX_SUGGESTIONS
       ∧ ∀ s, s ∈ corrections (suggestSimilarWords qsort rows input dict) →
           sug_distance s <= Z.of_nat n).
Proof.
  intros Hqsort Hrows Hlen k w prev curr n Hk Hrow Hn Hle.
  apply edit_distance_unique in Hn. subst n.
  unfold suggestSimilarWords.
  destruct dict as [|w0 dict0] eqn:Hdict; [done|].
  rewrite <- Hdict in *. clear Hdict w0 dict0.
  destruct (spell_loop_kept rows (strtolower input) dict 0 initSuggestionList
              list_ok_init) as [Hok Hkept].
  pose proof (spell_loop_retains_best rows (strtolower input) dict 0
                initSuggestionList [] list_ok_init retains_best_init
                (mkSuggestion (Some w)
                   (Z.of_nat (lev (strtolower input) (strtolower w))) 0))
    as Hbest.
  set (sl := spell_loop rows (strtolower input) dict 0 initSuggestionList) in *.
  assert (mkSuggestion (Some w)
            (Z.of_nat (lev (strtolower input) (strtolower w))) 0 ∈ kept sl
          ∨ (count sl = Z.to_nat MAX_SUGGESTIONS
             ∧ ∀ s, s ∈ kept sl →
                 sug_distance s
                 <= Z.of_nat (lev (strtolower input) (strtolower w))))
    as Hshown.
  { destruct Hbest as [Hin|[Hfull Hout]].
    - right. exists k, w. rewrite Nat.add_0_l, Hrow. cbn [fst snd sug_distance].
      pose proof (proj1 (Forall_lookup _ _) Hlen k w Hk) as Hbound.
      rewrite levenshteinDistance_lev.
      + split_and!; [done|done|]. unfold MAX_LEVENSHTEIN_DISTANCE. lia.
      + by rewrite !length_strtolower.
      + rewrite length_strtolower. apply (Hrows k w prev Hk).
        left. by rewrite Hrow.
      + rewrite length_strtolower. apply (Hrows k w curr Hk).
        right. by rewrite Hrow.
    - by left.
    - right. split; [done|]. intros s Hs. specialize (Hout s Hs).
      destruct (Hkept s Hs) as [Hs'|(k' & w' & _ & -> & _)].
      { rewrite kept_init in Hs'. by apply elem_of_nil in Hs'. }
      unfold ranks_before in Hout. cbn [sug_distance sug_frequency] in Hout |- *.
      lia. }
  pose proof (printed_qsort qsort Hqsort sl Hok) as Hprinted.
  pose proof (proj1 (Hqsort _ compareSuggestions (kept sl))) as Hperm.
  destruct (0 <? count sl)%nat eqn:Hpos; cbn [corrections].
  - rewrite Hprinted, Hperm.
    destruct Hshown as [Hin|[Hfull Hout]]; [by left|right].
    split; [by rewrite length_kept|].
    intros s Hs. rewrite Hperm in Hs. by apply Hout.
  - apply Nat.ltb_ge in Hpos.
    destruct Hshown as [Hin|[Hfull _]].
    + unfold kept in Hin. replace (count sl) with 0%nat in Hin by lia.
      by apply elem_of_nil in Hin.
    + rewrite Hfull in Hpos. unfold MAX_SUGGESTIONS in Hpos. lia.
Qed.

Lemma suggestSimilarWords_shows_nearest_witness :
  mkSuggestion (Some (cstr "Maple")) (Z.of_nat 1) 0
    ∈ corrections
        (suggestSimilarWords isort
           (rows_for [cstr "apple"; cstr "Maple"; cstr "zebra"])
           (cstr "mapple") [cstr "apple"; cstr "Maple"; cstr "zebra"])
  ∨ (length
       (corrections
          (suggestSimilarWords isort
             (rows_for [cstr "apple"; cstr "Maple"; cstr "zebra"])
             (cstr "mapple") [cstr "apple"; cstr "Maple"; cstr "zebra"]))
     = Z.to_nat MAX_SUGGESTIONS
     ∧ ∀ s, s ∈ corrections
                  (suggestSimilarWords isort
                     (rows_for [cstr "apple"; cstr "Maple"; cstr "zebra"])
                     (cstr "mapple")
                     [cstr "apple"; cstr "Maple"; cstr "zebra"]) →
         sug_distance s <= Z.of_nat 1).
Proof.
  apply (suggestSimilarWords_shows_nearest isort
           (rows_for [cstr "apple"; cstr "Maple"; cstr "zebra"])
           (cstr "mapple") [cstr "apple"; cstr "Maple"; cstr "zebra"]
           isort_contract
           (rows_for_ok [cstr "apple"; cstr "Maple"; cstr "zebra"])
           ltac:(repeat constructor)
           1%nat (cstr "Maple") (replicate 6 0) (replicate 6 0) 1%nat).
  - reflexivity.
  - reflexivity.
  - apply (lev_edit_distance (strtolower (cstr "mapple"))
             (strtolower (cstr "Maple"))).
  - lia.
Defined.

(** ** The words [main] reads *)

Lemma split_colon_spec input word after :
  split_colon input = (word, after) →
  Forall (λ c, code c ≠ 58) word
  ∧ input = word ++ match after with
                    | Some digits => ":"%char :: digits
                    | None => []
                    end.
Proof.
  revert word after. induction input as [|c rest IH]; intros word after Hsplit;
    cbn [split_colon] in Hsplit.
  - injection Hsplit as <- <-. by split.
  - destruct (code c =? 58) eqn:Hc.
    + injection Hsplit as <- <-. split; [done|]. cbn. f_equal.
      apply Z.eqb_eq in Hc. by apply code_inj.
    + destruct (split_colon rest) as [word' after'].
      injection Hsplit as <- <-.
      destruct (IH word' after' eq_refl) as [Hword Hrest].
      apply Z.eqb_neq in Hc. split; [by constructor|]. cbn. by f_equal.
Qed.

Lemma split_colon_app word rest :
  Forall (λ c, code c ≠ 58) word →
  split_colon (word ++ ":"%char :: rest) = (word, Some rest).
Proof.
  induction 1 as [|c word Hc _ IH]; [done|].
  cbn [app split_colon]. apply Z.eqb_neq in Hc. by rewrite Hc, IH.
Qed.

Lemma split_colon_none word :
  Forall (λ c, code c ≠ 58) word → split_colon word = (word, None).
Proof.
  induction 1 as [|c word Hc _ IH]; [done|].
  cbn [split_colon]. apply Z.eqb_neq in Hc. by rewrite Hc, IH.
Qed.

Lemma isalpha_not_colon c : isalpha c = true → code c ≠ 58.
Proof.
  unfold isalpha. rewrite orb_true_iff, isupper_spec, islower_spec. lia.
Qed.

Lemma isValidWord_no_colon word :
  isValidWord word = true → Forall (λ c, code c ≠ 58) word.
Proof.
  rewrite isValidWord_Forall. intros H. eapply Forall_impl; [exact H|].
  intros c. apply isalpha_not_colon.
Qed.

Lemma atoi_in_range s z : atoi s = Some z → INT_MIN <= z <= INT_MAX.
Proof.
  unfold atoi. destruct (match skip_spaces s with [] => _ | _ => _ end)
    as [negative digits].
  set (value := if negative then _ else _).
  destruct ((INT_MIN <=? value) && (value <=? INT_MAX)) eqn:Hrange; [|done].
  intros [= <-]. apply andb_true_iff in Hrange as [H1 H2]. lia.
Qed.

Lemma read_entry_inv input word frequency :
  read_entry input = Some (Some (word, frequency)) →
  isValidWord word = true
  ∧ Z.of_nat (length word) < MAX_WORD_LENGTH
  ∧ word `prefix_of` input
  ∧ INT_MIN <= frequency <= INT_MAX
  ∧ (word = input → frequency = 0).
Proof.
  unfold read_entry. destruct (split_colon input) as [w after] eqn:Hsplit.
  destruct (split_colon_spec _ _ _ Hsplit) as [Hcolon Hinput].
  destruct (match after with Some digits => atoi digits | None => Some 0 end)
    as [f|] eqn:Hf; [|done]. cbn [mbind option_bind].
  destruct ((MAX_WORD_LENGTH <=? Z.of_nat (length w)) || negb (isValidWord w))
    eqn:Hcheck; [done|].
  intros [= <- <-]. apply orb_false_iff in Hcheck as [Hlen Hvalid].
  apply Z.leb_gt in Hlen. apply negb_false_iff in Hvalid.
  assert (INT_MIN <= f <= INT_MAX) as Hrange.
  { destruct after as [digits|]; [by eapply atoi_in_range|].
    injection Hf as <-. unfold INT_MIN, INT_MAX. lia. }
  split_and!; [done|done| |lia|lia|].
  - rewrite Hinput. by eexists.
  - intros Heq. destruct after as [digits|]; [|by injection Hf].
    rewrite <- Heq in Hinput at 1.
    apply (f_equal length) in Hinput. rewrite length_app in Hinput.
    cbn in Hinput. lia.
Qed.




Lemma code_digit_char d : 0 <= d < 10 → code (digit_char d) = 48 + d.
Proof.
  intros Hd. unfold code, digit_char.
  rewrite nat_ascii_embedding by lia. lia.
Qed.

Lemma isdigit_digit_char d : 0 <= d < 10 → isdigit (digit_char d) = true.
Proof.
  intros Hd. unfold isdigit. rewrite code_digit_char by done.
  apply andb_true_iff. split; apply Z.leb_le; lia.
Qed.

Lemma atoi_digits_decimal fuel :
  ∀ n tail acc,
    0 <= n < 10 ^ Z.of_nat fuel →
    ∃ k, 0 <= k
         ∧ atoi_digits acc (decimal_digits fuel n tail)
           = atoi_digits (acc * 10 ^ k + n) tail.
Proof.
  induction fuel as [|fuel IH]; intros n tail acc Hn.
  - exists 0. cbn [decimal_digits]. split; [done|]. f_equal.
    change (10 ^ Z.of_nat 0) with 1 in Hn. lia.
  - cbn [decimal_digits]. destruct (n <? 10) eqn:Hsmall.
    + apply Z.ltb_lt in Hsmall. exists 1. split; [lia|].
      cbn [atoi_digits]. rewrite isdigit_digit_char, code_digit_char by lia.
      f_equal. lia.
    + apply Z.ltb_ge in Hsmall.
      rewrite Nat2Z.inj_succ, Z.pow_succ_r in Hn by lia.
      destruct (IH (n / 10) (digit_char (n mod 10) :: tail) acc) as (k & Hk & ->).
      { split; [apply Z.div_pos; lia|apply Z.div_lt_upper_bound; lia]. }
      exists (k + 1). split; [lia|]. cbn [atoi_digits].
      pose proof (Z.mod_pos_bound n 10).
      rewrite isdigit_digit_char, code_digit_char by lia. f_equal.
      rewrite Z.pow_add_r, Z.pow_1_r by lia.
      pose proof (Z.div_mod n 10). lia.
Qed.

Lemma decimal_digits_head fuel :
  ∀ n d tail,
    0 <= d < 10 → 0 <= n →
    ∃ d' rest, decimal_digits fuel n (digit_char d :: tail) = digit_char d' :: rest
               ∧ 0 <= d' < 10.
Proof.
  induction fuel as [|fuel IH]; intros n d tail Hd Hn; cbn [decimal_digits].
  - by exists d, tail.
  - destruct (n <? 10) eqn:Hsmall.
    + apply Z.ltb_lt in Hsmall. exists n, (digit_char d :: tail). split; [done|lia].
    + apply IH; [apply Z.mod_pos_bound; lia|apply Z.div_pos; lia].
Qed.

Lemma decimal_digits_head_nil fuel n :
  0 <= n →
  ∃ d' rest, decimal_digits (S fuel) n [] = digit_char d' :: rest ∧ 0 <= d' < 10.
Proof.
  intros Hn. cbn [decimal_digits]. destruct (n <? 10) eqn:Hsmall.
  - apply Z.ltb_lt in Hsmall. exists n, []. split; [done|lia].
  - apply decimal_digits_head; [apply Z.mod_pos_bound; lia|apply Z.div_pos; lia].
Qed.

Lemma atoi_decimal z : INT_MIN <= z <= INT_MAX → atoi (decimal z) = Some z.
Proof.
  intros Hz. unfold decimal. destruct (z <? 0) eqn:Hneg.
  - apply Z.ltb_lt in Hneg. unfold atoi. cbn [skip_spaces].
    change (isspace "-") with false. cbn match.
    change (code "-" =? 45) with true. cbn match.
    destruct (atoi_digits_decimal 20 (- z) [] 0) as (k & Hk & ->).
    { unfold INT_MIN, INT_MAX in Hz. lia. }
    cbn [atoi_digits]. replace (- (0 * 10 ^ k + - z)) with z by lia.
    replace ((INT_MIN <=? z) && (z <=? INT_MAX)) with true; [done|].
    symmetry. apply andb_true_iff. split; apply Z.leb_le; lia.
  - apply Z.ltb_ge in Hneg.
    destruct (decimal_digits_head_nil 19 z Hneg) as (d & rest & Hhead & Hd).
    pose proof (atoi_digits_decimal 20 z [] 0) as (k & Hk & Hvalue).
    { unfold INT_MIN, INT_MAX in Hz. lia. }
    unfold atoi. rewrite Hhead in *. cbn [skip_spaces].
    assert (isspace (digit_char d) = false) as ->.
    { unfold isspace. rewrite code_digit_char by done.
      apply orb_false_iff. split; [lia|]. apply andb_false_iff. right. lia. }
    cbn match.
    assert ((code (digit_char d) =? 45) = false) as ->
      by (rewrite code_digit_char by done; lia).
    assert ((code (digit_char d) =? 43) = false) as ->
      by (rewrite code_digit_char by done; lia).
    cbn match. rewrite Hvalue. cbn [atoi_digits].
    replace (0 * 10 ^ k + z) with z by lia.
    replace ((INT_MIN <=? z) && (z <=? INT_MAX)) with true; [done|].
    symmetry. apply andb_true_iff. split; apply Z.leb_le; lia.
Qed.

(** X20. A word of fewer than [MAX_WORD_LENGTH] letters typed alone is
    read back as that word with frequency 0, and typed as [word:number],
    the number in decimal notation and within the range of [int]
    (negative numbers included), as that word with that frequency. *)
Theorem read_entry_round_trip (word : cstring) (frequency : Z) :
  isValidWord word = true →
  Z.of_nat (length word) < MAX_WORD_LENGTH →
  INT_MIN <= frequency <= INT_MAX →
  read_entry word = Some (Some (word, 0))
  ∧ read_entry (word ++ ":"%char :: decimal frequency)
    = Some (Some (word, frequency)).
Proof.
  intros Hvalid Hlen Hfreq. pose proof (isValidWord_no_colon _ Hvalid) as Hcolon.
  assert ((MAX_WORD_LENGTH <=? Z.of_nat (length word)) || negb (isValidWord word)
          = false) as Hcheck.
  { rewrite Hvalid. apply orb_false_iff. split; [lia|done]. }
  unfold read_entry.
  rewrite split_colon_none, split_colon_app by done.
  rewrite atoi_decimal by done. cbn [mbind option_bind].
  by rewrite Hcheck.
Qed.

Lemma read_entry_round_trip_witness :
  read_entry (cstr "Cherry") = Some (Some (cstr "Cherry", 0))
  ∧ read_entry (cstr "Cherry" ++ ":"%char :: decimal (-2147483648))
    = Some (Some (cstr "Cherry", -2147483648)).
Proof.
  apply (read_entry_round_trip (cstr "Cherry") (-2147483648)).
  - reflexivity.
  - reflexivity.
  - unfold INT_MIN, INT_MAX. lia.
Defined.

Lemma insertAll_skips_empty_words root entries :
  insertAll root (filter (λ e, e.1 ≠ []) entries) = insertAll root entries.
Proof.
  revert root. induction entries as [|[word freq] entries IH]; intros root;
    [done|].
  destruct word as [|c word].
  - rewrite filter_cons_False by (cbn; by intros []).
    cbn [insertAll insertWord mbind option_bind]. apply IH.
  - rewrite filter_cons_True by done. cbn [insertAll].
    destruct (insertWord root (c :: word) freq) as [root'|]; [|done].
    cbn [mbind option_bind]. apply IH.
Qed.

Lemma accepted_valid tokens :
  valid_entries (filter (λ e, e.1 ≠ []) (accepted tokens)).
Proof.
  apply Forall_forall. intros [word freq] Hin.
  apply list_elem_of_filter in Hin as [Hne Hin]. cbn in Hne.
  apply list_elem_of_omap in Hin as (input & _ & Hread).
  destruct (read_entry input) as [[entry|]|] eqn:Hentry; try done.
  cbn in Hread. injection Hread as ->.
  split; [done|]. by destruct (read_entry_inv _ _ _ Hentry) as [? _].
Qed.

Lemma accepted_cons input tokens :
  accepted (input :: tokens)
  = match read_entry input with
    | Some (Some e) => e :: accepted tokens
    | _ => accepted tokens
    end.
Proof. unfold accepted. cbn. by destruct (read_entry input) as [[e|]|]. Qed.

Lemma read_words_spec tokens :
  ∀ root i n,
    wf_trie [] root → Forall token_ok tokens → (i ≤ n)%nat →
    ∃ result,
      read_words root i n tokens = Some result
      ∧ match result with
        | None => (length (accepted tokens) < n - i)%nat
        | Some (root', rest) =>
            ∃ consumed,
              tokens = consumed ++ rest
              ∧ length (accepted consumed) = (n - i)%nat
              ∧ insertAll root (accepted consumed) = Some root'
              ∧ wf_trie [] root'
        end.
Proof.
  induction tokens as [|input tokens IH]; intros root i n Hwf Hok Hi;
    cbn [read_words].
  - destruct (n <=? i)%nat eqn:Hdone.
    + apply Nat.leb_le in Hdone. eexists. split; [done|].
      exists []. split_and!; [done|cbn; lia|done|done].
    + apply Nat.leb_gt in Hdone. eexists. split; [done|]. cbn. lia.
  - destruct (n <=? i)%nat eqn:Hdone.
    { apply Nat.leb_le in Hdone. eexists. split; [done|].
      exists []. split_and!; [done|cbn; lia|done|done]. }
    apply Nat.leb_gt in Hdone.
    apply Forall_cons in Hok as [[Hlen [entry Hentry]] Hok].
    assert ((2 * MAX_WORD_LENGTH <=? Z.of_nat (length input)) = false) as ->
      by lia.
    rewrite Hentry. cbn [mbind option_bind].
    destruct entry as [[word freq]|].
    + destruct (read_entry_inv _ _ _ Hentry) as (Hvalid & _).
      destruct (insertWord_letters_defined root word freq Hwf Hvalid)
        as [root1 Hroot1].
      assert (wf_trie [] root1) as Hwf1.
      { destruct word as [|c word]; [by injection Hroot1 as <-|].
        by apply (wf_insertWord root (c :: word) freq). }
      rewrite Hroot1. cbn [mbind option_bind].
      destruct (IH root1 (S i) n Hwf1 Hok) as (result & -> & Hresult); [lia|].
      exists result. split; [done|].
      rewrite accepted_cons, Hentry.
      destruct result as [[root' rest]|].
      * destruct Hresult as (consumed & -> & Hcount & Hall & Hwf').
        exists (input :: consumed).
        rewrite accepted_cons, Hentry.
        split_and!; [done|cbn [length]; lia| |done].
        cbn [insertAll]. rewrite Hroot1. done.
      * cbn [length]. lia.
    + destruct (IH root i n Hwf Hok Hi) as (result & -> & Hresult).
      exists result. split; [done|].
      rewrite accepted_cons, Hentry.
      destruct result as [[root' rest]|]; [|done].
      destruct Hresult as (consumed & -> & Hcount & Hall & Hwf').
      exists (input :: consumed).
      by rewrite accepted_cons, Hentry.
Qed.

(** X21. The input loop of [main], on strings that fit its buffer: it
    is defined whatever is typed; it ends exactly when [n] strings have
    been accepted, and does not end when the input has fewer; the tree
    it leaves is the one [insertWord] builds from the accepted words in
    the order typed.  An accepted empty word (a string that starts with
    a colon) counts among the [n] but adds nothing, so the tree is one
    built from words that are not empty, and it is well formed. *)
Theorem read_words_inserts_accepted_words
    (n : nat) (tokens : list (list ascii)) :
  Forall token_ok tokens →
  ∃ result,
    read_words createTrieNode 0 n tokens = Some result
    ∧ match result with
      | None => (length (accepted tokens) < n)%nat
      | Some (root, rest) =>
          ∃ consumed,
            tokens = consumed ++ rest
            ∧ length (accepted consumed) = n
            ∧ insertAll createTrieNode (accepted consumed) = Some root
            ∧ valid_entries (filter (λ e, e.1 ≠ []) (accepted consumed))
            ∧ insertAll createTrieNode
                (filter (λ e, e.1 ≠ []) (accepted consumed)) = Some root
            ∧ wf_trie [] root
      end.
Proof.
  intros Hok.
  destruct (read_words_spec tokens createTrieNode 0 n (wf_trie_create [])
              Hok) as (result & Hread & Hresult); [lia|].
  exists result. split; [done|].
  destruct result as [[root rest]|]; [|lia].
  destruct Hresult as (consumed & Htokens & Hcount & Hall & Hwf).
  exists consumed. rewrite insertAll_skips_empty_words.
  split_and!; [done|lia|done|apply accepted_valid|done|done].
Qed.

Lemma read_words_inserts_accepted_words_witness :
  ∃ result,
    read_words createTrieNode 0 2
      [cstr "tree:4"; cstr "2x"; cstr ":7"; cstr "Trie"] = Some result
    ∧ match result with
      | None =>
          (length (accepted [cstr "tree:4"; cstr "2x"; cstr ":7"; cstr "Trie"])
           < 2)%nat
      | Some (root, rest) =>
          ∃ consumed,
            [cstr "tree:4"; cstr "2x"; cstr ":7"; cstr "Trie"] = consumed ++ rest
            ∧ length (accepted consumed) = 2%nat
            ∧ insertAll createTrieNode (accepted consumed) = Some root
            ∧ valid_entries (filter (λ e, e.1 ≠ []) (accepted consumed))
            ∧ insertAll createTrieNode
                (filter (λ e, e.1 ≠ []) (accepted consumed)) = Some root
            ∧ wf_trie [] root
      end.
Proof.
  apply (read_words_inserts_accepted_words 2
           [cstr "tree:4"; cstr "2x"; cstr ":7"; cstr "Trie"]).
  repeat (constructor; [split; [reflexivity|eexists; reflexivity]|]).
  constructor.
Defined.

(** ** The blocks of the store: none is lost, all are freed *)

Lemma bind_Some {A B} (m : Mem.M A) (k : A → Mem.M B) h b h' :
  (m ≫= k) h = Some (b, h')
  ↔ ∃ a h1, m h = Some (a, h1) ∧ k a h1 = Some (b, h').
Proof.
  unfold mbind, Mem.M_bind. destruct (m h) as [[a h1]|]; [|naive_solver].
  split; [by exists a, h1|]. by intros (a' & h1' & [= <- <-] & Hk).
Qed.

Lemma runs_both {A} (m : Mem.M A) h (Q Q' : A → Mem.heap → Prop) :
  runs m h Q → (∀ a h', m h = Some (a, h') → Q' a h') →
  runs m h (λ a h', Q a h' ∧ Q' a h').
Proof. intros (a & h' & Hm & HQ) HQ'. exists a, h'. auto. Qed.

Lemma trie_ptrs_insert cs e w f i child' p :
  p ∈ trie_ptrs child' → (i < length cs)%nat →
  p ∈ trie_ptrs (mkTrieNode (<[i := Some child']> cs) e (w : option Z) f).
Proof.
  intros Hp Hi. rewrite trie_ptrs_unfold. apply elem_of_app. right.
  apply elem_of_children_ptrs. exists i, child'.
  split; [by apply list_lookup_insert_eq|done].
Qed.

Lemma trie_ptrs_insert_other cs e w f i child' p :
  p ∈ trie_ptrs (mkTrieNode cs e (w : option Z) f) →
  (∀ child, cs !! i = Some (Some child) → p ∉ trie_ptrs child) →
  p ∈ trie_ptrs (mkTrieNode (<[i := Some child']> cs) e w f).
Proof.
  rewrite !trie_ptrs_unfold. cbn [originalWord children].
  intros Hp Hnot. apply elem_of_app in Hp as [Hp|Hp];
    apply elem_of_app; [by left|right].
  apply elem_of_children_ptrs in Hp as (j & child & Hj & Hp).
  apply elem_of_children_ptrs. exists j, child. split; [|done].
  rewrite list_lookup_insert_ne; [done|]. intros <-. by eapply Hnot.
Qed.

Lemma mark_end_blocks malloc node word freq h node' h' :
  Mem.mark_end malloc node word freq h = Some (node', h') →
  ∀ p, is_Some (h' !! p) →
    p ∈ trie_ptrs node' ∨ (is_Some (h !! p) ∧ p ∉ trie_ptrs node).
Proof.
  destruct node as [cs e w f]. unfold Mem.mark_end.
  cbn [originalWord frequency children].
  assert (∀ h1 : Mem.heap,
            (∀ p, is_Some (h1 !! p) →
               is_Some (h !! p) ∧ (w = Some p → False)) →
            ∀ p, is_Some (<[malloc h1 := word]> h1 !! p) →
              p ∈ trie_ptrs (mkTrieNode cs true (Some (malloc h1)) freq)
              ∨ (is_Some (h !! p) ∧ p ∉ trie_ptrs (mkTrieNode cs e w f)))
    as Hreplace.
  { intros h1 Hh1 p Hp. rewrite !trie_ptrs_unfold. cbn [originalWord children].
    destruct (decide (p = malloc h1)) as [->|Hne]; [left; set_solver|].
    rewrite lookup_insert_ne in Hp by done.
    destruct (Hh1 p Hp) as [Hold Hw].
    destruct (decide (p ∈ children_ptrs trie_ptrs cs)); [left; set_solver|].
    right. split; [done|]. destruct w as [q|]; [|set_solver].
    assert (p ≠ q) by (intros ->; by apply Hw). set_solver. }
  destruct w as [old|].
  - destruct (f <? freq).
    + intros Hrun. apply bind_Some in Hrun as ([] & h1 & Hfree & Hrun).
      cbn in Hfree. destruct (h !! old) eqn:Hold; [|done].
      injection Hfree as <-. injection Hrun as <- <-.
      apply Hreplace. intros p Hp.
      destruct (decide (p = old)) as [->|Hne].
      * rewrite lookup_delete_eq in Hp. by destruct Hp.
      * rewrite lookup_delete_ne in Hp by done. split; [done|congruence].
    + intros [= <- <-] p Hp. rewrite !trie_ptrs_unfold.
      cbn [originalWord children].
      destruct (decide (p ∈ [old] ++ children_ptrs trie_ptrs cs));
        [by left|by right].
  - intros [= <- <-]. apply Hreplace. intros p Hp. by split.
Qed.

Lemma insert_path_blocks malloc lw word freq :
  ∀ node h node' h',
    Mem.insert_path malloc node lw word freq h = Some (node', h') →
    ∀ p, is_Some (h' !! p) →
      p ∈ trie_ptrs node' ∨ (is_Some (h !! p) ∧ p ∉ trie_ptrs node).
Proof.
  induction lw as [|c rest IH]; intros node h node' h' Hrun;
    cbn [Mem.insert_path] in Hrun; [by eapply mark_end_blocks|].
  destruct (in_children (child_index c)); [|done].
  destruct node as [cs e w f]. cbn [children isEndOfWord originalWord frequency] in Hrun.
  destruct (cs !! Z.to_nat (child_index c)) as [slot|] eqn:Hslot; [|done].
  apply bind_Some in Hrun as (child' & h1 & Hchild & [= <- <-]).
  pose proof (lookup_lt_Some _ _ _ Hslot) as Hi.
  intros p Hp. destruct (IH _ _ _ _ Hchild p Hp) as [Hin|[Hold Hout]].
  - left. by apply trie_ptrs_insert.
  - destruct (decide (p ∈ trie_ptrs (mkTrieNode cs e w f))) as [Hroot|Hroot];
      [left|by right].
    apply trie_ptrs_insert_other; [done|].
    intros child Hc. rewrite Hslot in Hc. injection Hc as ->. exact Hout.
Qed.

Lemma insertWord_only_tree malloc root word freq h root' h' :
  only_tree h root →
  Mem.insertWord malloc root word freq h = Some (root', h') →
  only_tree h' root'.
Proof.
  intros Honly Hrun. destruct word as [|c word]; [by injection Hrun as <- <-|].
  unfold Mem.insertWord, Mem.strtolower in Hrun.
  apply bind_Some in Hrun as (q & h2 & Hlower & Hrun).
  apply bind_Some in Hlower as (q' & h1 & Hdup & Hlower).
  injection Hdup as <- <-.
  apply bind_Some in Hlower as ([] & h2' & Hcase & [= <- <-]).
  unfold Mem.toLowerCase in Hcase. rewrite lookup_insert_eq in Hcase.
  injection Hcase as <-.
  apply bind_Some in Hrun as (lower & h3 & Hread & Hrun).
  unfold Mem.read in Hread. rewrite lookup_insert_eq in Hread.
  injection Hread as <- <-.
  apply bind_Some in Hrun as (root1 & h4 & Hpath & Hrun).
  apply bind_Some in Hrun as ([] & h5 & Hfree & [= <- <-]).
  cbn in Hfree. destruct (h4 !! malloc h) eqn:Hq; [|done].
  injection Hfree as <-.
  intros p Hp. destruct (decide (p = malloc h)) as [->|Hne].
  { rewrite lookup_delete_eq in Hp. by destruct Hp. }
  rewrite lookup_delete_ne in Hp by done.
  destruct (insert_path_blocks _ _ _ _ _ _ _ _ Hpath p Hp) as [Hin|[Hold Hout]];
    [done|].
  rewrite !lookup_insert_ne in Hold by done. exfalso. by apply Hout, Honly.
Qed.

Lemma only_tree_create : only_tree ∅ createTrieNode.
Proof. intros p [s Hs]. by rewrite lookup_empty in Hs. Qed.

Lemma insertAll_only_tree malloc entries :
  ∀ root h root' h',
    only_tree h root →
    Mem.insertAll malloc root entries h = Some (root', h') →
    only_tree h' root'.
Proof.
  induction entries as [|[word freq] entries IH]; intros root h root' h' Honly Hrun.
  - by injection Hrun as <- <-.
  - cbn [Mem.insertAll] in Hrun.
    apply bind_Some in Hrun as (root1 & h1 & Hins & Hrun).
    eapply IH; [|exact Hrun]. by eapply insertWord_only_tree.
Qed.

(** X22. The store [insertWord] builds from the empty heap holds one
    block for each word pointer of the tree and nothing else: the
    pointers are distinct, each designates a block, and no block is left
    over from the lower-case copies or from the words that were
    replaced. *)
Theorem insertWord_leaves_no_block_behind
    (malloc : Mem.heap → Z) (entries : list (cstring * Z)) :
  fresh_allocator malloc → valid_entries entries →
  ∃ root h,
    Mem.insertAll malloc createTrieNode entries ∅ = Some (root, h)
    ∧ NoDup (trie_ptrs root)
    ∧ (∀ p, is_Some (h !! p) ↔ p ∈ trie_ptrs root)
    ∧ insertAll createTrieNode entries = Some (view h root).
Proof.
  intros Hfresh Hvalid.
  destruct (Mem_insertAll_view malloc entries Hfresh Hvalid)
    as (root & h & Hrun & Halloc & Hnodup & Hview).
  exists root, h. split_and!; [done|done| |done].
  intros p. split.
  - by apply (insertAll_only_tree malloc entries createTrieNode ∅ root h
                only_tree_create).
  - by apply trie_ptrs_allocated.
Qed.

Lemma insertWord_leaves_no_block_behind_witness :
  ∃ root h,
    Mem.insertAll (Mem.malloc_top heap_base) createTrieNode repeated_inserts ∅
    = Some (root, h)
    ∧ NoDup (trie_ptrs root)
    ∧ (∀ p, is_Some (h !! p) ↔ p ∈ trie_ptrs root)
    ∧ insertAll createTrieNode repeated_inserts = Some (view h root).
Proof.
  apply (insertWord_leaves_no_block_behind (Mem.malloc_top heap_base)
           repeated_inserts).
  - apply malloc_top_fresh.
  - solve_valid_entries.
Defined.

Lemma runs_free_children slots :
  Forall (λ slot, ∀ c, slot = Some c →
            ∀ h, words_allocated h c = true → NoDup (trie_ptrs c) →
              runs (Mem.freeTrie c) h
                (λ _ h', ∀ p, h' !! p
                              = if decide (p ∈ trie_ptrs c) then None else h !! p))
    slots →
  ∀ h,
    (∀ i child, slots !! i = Some (Some child) → words_allocated h child = true) →
    NoDup (children_ptrs trie_ptrs slots) →
    runs (Mem.for_children (λ child _, Mem.freeTrie child) slots tt) h
      (λ _ h', ∀ p, h' !! p
                    = if decide (p ∈ children_ptrs trie_ptrs slots)
                      then None else h !! p).
Proof.
  induction 1 as [|slot slots Hslot _ IH]; intros h Halloc Hnodup;
    cbn [Mem.for_children].
  - apply runs_mret. intros p. by rewrite decide_False by apply not_elem_of_nil.
  - rewrite children_ptrs_cons in Hnodup.
    apply NoDup_app in Hnodup as (Hnodup1 & Hdisjoint & Hnodup2).
    apply runs_bind.
    assert (runs (match slot with
                  | Some child => Mem.freeTrie child
                  | None => mret tt
                  end) h
              (λ _ h', ∀ p, h' !! p
                            = if decide (p ∈ match slot with
                                             | Some child => trie_ptrs child
                                             | None => []
                                             end)
                              then None else h !! p)) as Hfirst.
    { destruct slot as [child|].
      - apply (Hslot child eq_refl); [by apply (Halloc 0%nat)|done].
      - apply runs_mret. intros p.
        by rewrite decide_False by apply not_elem_of_nil. }
    eapply runs_mono; [exact Hfirst|]. intros [] h1 Hh1.
    eapply runs_mono; [apply IH; [|done]|].
    + intros i child Hi.
      apply (words_allocated_agree h); [|by apply (Halloc (S i))].
      intros p Hp. rewrite Hh1, decide_False; [done|].
      intros Hin. apply (Hdisjoint p Hin).
      apply elem_of_children_ptrs. by exists i, child.
    + intros [] h2 Hh2 p. rewrite Hh2, Hh1, children_ptrs_cons.
      repeat case_decide; set_solver.
Qed.

Lemma runs_freeTrie node :
  ∀ h, words_allocated h node = true → NoDup (trie_ptrs node) →
    runs (Mem.freeTrie node) h
      (λ _ h', ∀ p, h' !! p
                    = if decide (p ∈ trie_ptrs node) then None else h !! p).
Proof.
  induction node as [cs e w f IH] using TrieNode_children_ind.
  intros h Halloc Hnodup. rewrite trie_ptrs_unfold in Hnodup.
  cbn [originalWord children] in Hnodup.
  apply NoDup_app in Hnodup as (_ & Hdisjoint & Hnodup).
  apply words_allocated_unfold in Halloc as (Hlen & Hword & Hchildren).
  cbn [Mem.freeTrie children originalWord]. apply runs_bind.
  eapply runs_mono; [by apply runs_free_children|].
  intros [] h1 Hh1. destruct w as [q|].
  - destruct Hword as [s Hs].
    apply (runs_free q s).
    + rewrite Hh1, decide_False; [done|]. apply Hdisjoint. by left.
    + intros p. rewrite trie_ptrs_unfold. cbn [originalWord children].
      destruct (decide (p = q)) as [->|Hne].
      * rewrite lookup_delete_eq. rewrite decide_True; [done|set_solver].
      * rewrite lookup_delete_ne, Hh1 by done.
        repeat case_decide; set_solver.
  - apply runs_mret. intros p. rewrite trie_ptrs_unfold, Hh1.
    cbn [originalWord children]. repeat case_decide; set_solver.
Qed.

(** X23. [freeTrie] on a store whose word pointers are distinct and
    allocated is defined (no block is freed twice, none that is not
    allocated), frees the block of every word of the tree, and leaves
    every other block of the heap as it is. *)
Theorem freeTrie_frees_the_words (h : Mem.heap) (root : TrieNode Z) :
  words_allocated h root = true → NoDup (trie_ptrs root) →
  ∃ h',
    Mem.freeTrie root h = Some (tt, h')
    ∧ (∀ p, p ∈ trie_ptrs root → h' !! p = None)
    ∧ (∀ p, p ∉ trie_ptrs root → h' !! p = h !! p).
Proof.
  intros Halloc Hnodup.
  destruct (runs_freeTrie root h Halloc Hnodup) as ([] & h' & Hrun & Hh').
  exists h'. split_and!; [done| |].
  - intros p Hp. by rewrite Hh', decide_True.
  - intros p Hp. by rewrite Hh', decide_False.
Qed.

Lemma freeTrie_frees_the_words_witness :
  ∃ h',
    Mem.freeTrie example_root example_heap = Some (tt, h')
    ∧ (∀ p, p ∈ trie_ptrs example_root → h' !! p = None)
    ∧ (∀ p, p ∉ trie_ptrs example_root → h' !! p = example_heap !! p).
Proof.
  apply (freeTrie_frees_the_words example_heap example_root).
  - reflexivity.
  - vm_compute. repeat (constructor; [set_solver|]). constructor.
Defined.

(** ** The menu and the whole run *)

Lemma words_allocated_frame h0 h owned root :
  frame h0 h owned → words_allocated h0 root = true →
  words_allocated h root = true.
Proof.
  intros Hframe Halloc. apply (words_allocated_agree h0); [|done].
  intros p Hp. destruct (trie_ptrs_allocated h0 root p Halloc Hp) as [s Hs].
  rewrite Hs. by eapply frame_old.
Qed.

Lemma runs_search_by_prefix malloc
    (qsort : ∀ A : Type, (A → A → Z) → list A → list A) rows h root dict prefix :
  fresh_allocator malloc → qsort_contract qsort →
  words_allocated h root = true →
  (∀ w, w ∈ dict → is_Some (h !! w)) →
  runs (Mem.search_by_prefix malloc qsort rows root dict prefix) h
    (λ _ h', h' = h).
Proof.
  intros Hfresh Hqsort Hroot Hdict. unfold Mem.search_by_prefix.
  destruct (isValidWord prefix) eqn:Hprefix; cbn [negb]; [|by apply runs_ret].
  apply runs_bind.
  eapply runs_mono; [by apply (runs_strtolower malloc h h []), frame_refl|].
  intros lower h1 [Hframe Hlower].
  apply runs_bind, (runs_read _ _ _ _ Hlower).
  destruct (find_node_allocated h root (map tolower prefix) Hroot)
    as (reached & -> & _); [by apply strtolower_lower_path|].
  assert (∀ out : option (list (list ascii * Z)),
            ∀ line : Mem.MenuOutput,
              runs (Mem.free (Some lower);; Mem.ret line) h1 (λ _ h', h' = h))
    as Hfree.
  { intros _ line. apply runs_bind, (runs_free _ _ _ _ Hlower), runs_ret.
    by apply frame_nil, frame_free. }
  destruct reached as [current|].
  - apply runs_bind.
    eapply runs_mono;
      [apply (runs_searchWordsByPrefix malloc qsort h1 root prefix);
       [done|done|by eapply words_allocated_frame|done]|].
    intros out h2 ->. by apply Hfree.
  - apply runs_bind.
    eapply runs_mono;
      [apply (runs_suggestSimilarWords malloc qsort rows h1 prefix dict);
       [done|done|]|].
    + intros w Hw. destruct (Hdict w Hw) as [s Hs]. exists s.
      by eapply frame_old.
    + intros out h2 ->. by apply Hfree.
Qed.

Lemma runs_menu_round malloc
    (qsort : ∀ A : Type, (A → A → Z) → list A → list A) h root dict input :
  fresh_allocator malloc → qsort_contract qsort →
  words_allocated h root = true →
  (∀ w, w ∈ dict → is_Some (h !! w)) →
  round_ok input →
  runs (Mem.menu_round malloc qsort root dict input) h (λ _ h', h' = h).
Proof.
  intros Hfresh Hqsort Hroot Hdict Hok.
  destruct input as [prefix rows| | |]; cbn [Mem.menu_round].
  - cbn [round_ok] in Hok.
    assert ((MAX_WORD_LENGTH <=? Z.of_nat (length prefix)) = false) as -> by lia.
    by apply runs_search_by_prefix.
  - apply runs_bind.
    eapply runs_mono; [by apply runs_show_all_words|].
    intros lines h' ->. by apply runs_ret.
  - by apply runs_ret.
  - by apply runs_ret.
Qed.

Lemma runs_menu_loop malloc
    (qsort : ∀ A : Type, (A → A → Z) → list A → list A) h root dict inputs :
  fresh_allocator malloc → qsort_contract qsort →
  words_allocated h root = true →
  (∀ w, w ∈ dict → is_Some (h !! w)) →
  Forall round_ok inputs →
  runs (Mem.menu_loop malloc qsort root dict inputs) h
    (λ session h',
       h' = h
       ∧ (session.2 = true ↔ Mem.ExitMenu ∈ inputs)
       ∧ (length session.1 ≤ length inputs)%nat).
Proof.
  intros Hfresh Hqsort Hroot Hdict Hok.
  induction Hok as [|input inputs Hinput _ IH]; cbn [Mem.menu_loop].
  - apply runs_ret. split_and!; [done| |done].
    split; [done|by intros ?%elem_of_nil].
  - apply runs_bind.
    eapply runs_mono; [by apply runs_menu_round|]. intros out h' ->.
    assert (runs ('(outs, ended) ← Mem.menu_loop malloc qsort root dict inputs;
                  Mem.ret (out :: outs, ended)) h
              (λ session h',
                 h' = h
                 ∧ (session.2 = true ↔ Mem.ExitMenu ∈ inputs)
                 ∧ (length session.1 ≤ S (length inputs))%nat)) as Hrest.
    { apply runs_bind. eapply runs_mono; [exact IH|].
      intros [outs ended] h' (-> & Hended & Hlen). apply runs_ret.
      cbn [fst snd length] in *. split_and!; [done|done|lia]. }
    destruct input; cbn [length].
    + eapply runs_mono; [exact Hrest|].
      intros session h' (-> & Hended & Hlen). split_and!; [done| |done].
      rewrite Hended. set_solver.
    + eapply runs_mono; [exact Hrest|].
      intros session h' (-> & Hended & Hlen). split_and!; [done| |done].
      rewrite Hended. set_solver.
    + apply runs_ret. cbn [fst snd length]. split_and!; [done| |lia].
      split; [intros _; by left|done].
    + eapply runs_mono; [exact Hrest|].
      intros session h' (-> & Hended & Hlen). split_and!; [done| |done].
      rewrite Hended. set_solver.
Qed.

(** X24. The menu can be used any number of times: on a store whose
    word pointers are allocated, with a dictionary whose words are, every
    sequence of rounds (searches with prefixes that fit the buffer,
    listings, other choices) is defined and gives the heap back exactly
    as it was; the loop ends exactly when choice 3 is among the rounds. *)
Theorem menu_loop_leaves_heap_unchanged
    (malloc : Mem.heap → Z)
    (qsort : ∀ A : Type, (A → A → Z) → list A → list A)
    (h : Mem.heap) (root : TrieNode Z) (dict : Dictionary Z)
    (inputs : list Mem.MenuInput) :
  fresh_allocator malloc → qsort_contract qsort →
  words_allocated h root = true →
  (∀ w, w ∈ dict → is_Some (h !! w)) →
  Forall round_ok inputs →
  ∃ outs ended,
    Mem.menu_loop malloc qsort root dict inputs h = Some ((outs, ended), h)
    ∧ (ended = true ↔ Mem.ExitMenu ∈ inputs)
    ∧ (length outs ≤ length inputs)%nat.
Proof.
  intros Hfresh Hqsort Hroot Hdict Hok.
  destruct (runs_menu_loop malloc qsort h root dict inputs Hfresh Hqsort
              Hroot Hdict Hok) as ([outs ended] & h' & Hrun & -> & Hended & Hlen).
  by exists outs, ended.
Qed.

Lemma menu_loop_leaves_heap_unchanged_witness :
  ∃ outs ended,
    Mem.menu_loop (Mem.malloc_top heap_base) isort example_root []
      [Mem.SearchByPrefix (cstr "ch") no_rows; Mem.OtherChoice;
       Mem.SearchByPrefix (cstr "x?") no_rows; Mem.ShowAllWords;
       Mem.ExitMenu; Mem.ShowAllWords] example_heap
    = Some ((outs, ended), example_heap)
    ∧ (ended = true
       ↔ Mem.ExitMenu
         ∈ [Mem.SearchByPrefix (cstr "ch") no_rows; Mem.OtherChoice;
            Mem.SearchByPrefix (cstr "x?") no_rows; Mem.ShowAllWords;
            Mem.ExitMenu; Mem.ShowAllWords])
    ∧ (length outs
       ≤ length [Mem.SearchByPrefix (cstr "ch") no_rows; Mem.OtherChoice;
                 Mem.SearchByPrefix (cstr "x?") no_rows; Mem.ShowAllWords;
                 Mem.ExitMenu; Mem.ShowAllWords])%nat.
Proof.
  apply (menu_loop_leaves_heap_unchanged (Mem.malloc_top heap_base) isort
           example_heap example_root []).
  - apply malloc_top_fresh.
  - apply isort_contract.
  - reflexivity.
  - by intros w ?%elem_of_nil.
  - repeat constructor.
Defined.

Lemma runs_read_words malloc tokens :
  fresh_allocator malloc → Forall token_ok tokens →
  ∀ root i n h,
    words_allocated h root = true → NoDup (trie_ptrs root) → only_tree h root →
    runs (Mem.read_words malloc root i n tokens) h
      (λ result h',
         match result with
         | None => read_words (view h root) i n tokens = Some None
         | Some (root', rest) =>
             words_allocated h' root' = true ∧ NoDup (trie_ptrs root')
             ∧ only_tree h' root'
             ∧ read_words (view h root) i n tokens
               = Some (Some (view h' root', rest))
         end).
Proof.
  intros Hfresh Hok.
  induction Hok as [|input tokens [Hlen [entry Hentry]] _ IH];
    intros root i n h Halloc Hnodup Honly; cbn [Mem.read_words read_words].
  - destruct (n <=? i)%nat; by apply runs_ret.
  - destruct (n <=? i)%nat; [by apply runs_ret|].
    assert ((2 * MAX_WORD_LENGTH <=? Z.of_nat (length input)) = false) as ->
      by lia.
    rewrite Hentry. cbn [mbind option_bind].
    destruct entry as [[word freq]|]; [|by apply IH].
    apply runs_bind.
    assert (runs (Mem.insertWord malloc root word freq) h
              (λ root1 h1,
                 words_allocated h1 root1 = true ∧ NoDup (trie_ptrs root1)
                 ∧ insertWord (view h root) word freq = Some (view h1 root1)))
      as Hins.
    { destruct word as [|c word]; [by apply runs_ret|].
      apply runs_insertWord; [done| |done|done].
      split; [done|]. by destruct (read_entry_inv _ _ _ Hentry) as [? _]. }
    apply (runs_both _ _ _ (λ root1 h1, only_tree h1 root1)) in Hins;
      [|intros root1 h1; by apply insertWord_only_tree].
    eapply runs_mono; [exact Hins|].
    intros root1 h1 ((Halloc1 & Hnodup1 & Hview) & Honly1).
    rewrite Hview. cbn [mbind option_bind]. by apply IH.
Qed.

Lemma accepted_app tokens1 tokens2 :
  accepted (tokens1 ++ tokens2) = accepted tokens1 ++ accepted tokens2.
Proof. apply omap_app. Qed.

(** X25. The whole run of [main] on strings that fit its buffers,
    started on an empty heap: it is defined whatever is typed; it stays
    in the input loop exactly when fewer than [n] of the strings typed
    are accepted; it leaves the menu exactly when choice 3 is typed; and
    when it does, [freeTrie] and [freeDictionary] have freed every block
    the run allocated: the heap is empty again. *)
Theorem main_frees_every_block
    (malloc : Mem.heap → Z)
    (qsort : ∀ A : Type, (A → A → Z) → list A → list A)
    (n : nat) (tokens : list (list ascii)) (inputs : list Mem.MenuInput) :
  fresh_allocator malloc → qsort_contract qsort →
  Forall token_ok tokens → Forall round_ok inputs →
  ∃ result h,
    Mem.main malloc qsort n tokens inputs ∅ = Some (result, h)
    ∧ (result = None ↔ (length (accepted tokens) < n)%nat)
    ∧ (∀ outs ended, result = Some (outs, ended) →
         (ended = true ↔ Mem.ExitMenu ∈ inputs)
         ∧ (ended = true → h = ∅)).
Proof.
  intros Hfresh Hqsort Htokens Hinputs. unfold Mem.main.
  destruct (runs_read_words malloc tokens Hfresh Htokens createTrieNode 0 n ∅
              (words_allocated_create ∅) (NoDup_nil_2 : NoDup (trie_ptrs createTrieNode))
              only_tree_create) as (read & h0 & Hread & Hpost).
  destruct (read_words_spec tokens createTrieNode 0 n (wf_trie_create [])
              Htokens) as (result & Hpure & Hresult); [lia|].
  rewrite view_create in Hpost.
  assert ((Mem.read_words malloc createTrieNode 0 n tokens
           ≫= λ read,
                match read with
                | Some (root, _) =>
                    dict ← Mem.collectAllWords malloc root [];
                    session ← Mem.menu_loop malloc qsort root dict inputs;
                    (if session.2 : bool
                     then Mem.freeTrie root;; Mem.freeDictionary dict;;
                          Mem.ret (Some session)
                     else Mem.ret (Some session))
                | None => Mem.ret None
                end) ∅
          = match read with
            | Some (root, _) =>
                (dict ← Mem.collectAllWords malloc root [];
                 session ← Mem.menu_loop malloc qsort root dict inputs;
                 (if session.2 : bool
                  then Mem.freeTrie root;; Mem.freeDictionary dict;;
                       Mem.ret (Some session)
                  else Mem.ret (Some session))) h0
            | None => Some (None, h0)
            end) as ->.
  { unfold mbind at 1, Mem.M_bind at 1. rewrite Hread. by destruct read as [[]|]. }
  destruct read as [[root rest]|].
  2:{ exists None, h0. split_and!; [done| |done].
      rewrite Hpost in Hpure. injection Hpure as <-.
      split; [intros _; lia|done]. }
  destruct Hpost as (Halloc & Hnodup & Honly & Hview).
  rewrite Hview in Hpure. injection Hpure as <-.
  destruct Hresult as (consumed & -> & Hcount & _).
  assert (runs
            (dict ← Mem.collectAllWords malloc root [];
             session ← Mem.menu_loop malloc qsort root dict inputs;
             (if session.2 : bool
              then Mem.freeTrie root;; Mem.freeDictionary dict;;
                   Mem.ret (Some session)
              else Mem.ret (Some session))) h0
            (λ result h,
               ∃ session, result = Some session
                 ∧ (session.2 = true ↔ Mem.ExitMenu ∈ inputs)
                 ∧ (session.2 = true → h = ∅))) as Hrun.
  { apply runs_bind.
    eapply runs_mono;
      [apply (runs_collectAllWords malloc h0 [] root Hfresh Halloc []),
         frame_refl|].
    intros dict h1 Hframe. cbn beta in Hframe. apply runs_bind.
    eapply runs_mono; [apply runs_menu_loop; [done|done| | |done]|].
    - by eapply words_allocated_frame.
    - intros w Hw. eapply frame_owned; [exact Hframe|].
      apply elem_of_app. by left.
    - intros session h2 (-> & Hended & _).
      destruct (session.2) eqn:Hexit.
      + apply runs_bind.
        eapply runs_mono;
          [apply runs_freeTrie; [by eapply words_allocated_frame|done]|].
        intros [] h3 Hh3. apply runs_bind.
        assert (frame ∅ h3 (dict ++ [])) as Hframe3.
        { destruct Hframe as (Hnd & Hown & Hother). split_and!; [done| |].
          - intros p Hp. split; [apply lookup_empty|].
            destruct (Hown p Hp) as [Hnew Hp1].
            rewrite Hh3, decide_False; [done|].
            intros Hin.
            destruct (trie_ptrs_allocated h0 root p Halloc Hin) as [s Hs].
            congruence.
          - intros p Hp. rewrite lookup_empty, Hh3. case_decide; [done|].
            rewrite Hother by done.
            destruct (h0 !! p) eqn:Hp0; [|done].
            exfalso. apply H. apply Honly. by eexists. }
        eapply runs_mono; [by apply (runs_freeDictionary ∅ [])|].
        intros [] h4 Hframe4. apply runs_ret. exists session.
        rewrite Hexit. split_and!; [done|by rewrite <- Hended|].
        intros _. by apply frame_nil.
      + apply runs_ret. exists session. rewrite Hexit.
        split_and!; [done|by rewrite <- Hended|done]. }
  destruct Hrun as (result & h & -> & session & -> & Hended & Hempty).
  exists (Some session), h. split_and!; [done| |].
  - split; [done|]. rewrite accepted_app, length_app. lia.
  - intros outs ended [= ->]. by split.
Qed.

Lemma main_frees_every_block_witness :
  ∃ result h,
    Mem.main (Mem.malloc_top heap_base) isort 3
      [cstr "Banana:1"; cstr "b4d"; cstr "apple:1"; cstr "Cherry:1"]
      [Mem.SearchByPrefix (cstr "ban") no_rows;
       Mem.SearchByPrefix (cstr "aple") (rows_for [cstr "apple"]);
       Mem.ShowAllWords; Mem.ExitMenu] ∅
    = Some (result, h)
    ∧ (result = None
       ↔ (length (accepted [cstr "Banana:1"; cstr "b4d"; cstr "apple:1";
                            cstr "Cherry:1"]) < 3)%nat)
    ∧ (∀ outs ended, result = Some (outs, ended) →
         (ended = true
          ↔ Mem.ExitMenu
            ∈ [Mem.SearchByPrefix (cstr "ban") no_rows;
               Mem.SearchByPrefix (cstr "aple") (rows_for [cstr "apple"]);
               Mem.ShowAllWords; Mem.ExitMenu])
         ∧ (ended = true → h = ∅)).
Proof.
  apply (main_frees_every_block (Mem.malloc_top heap_base) isort 3
           [cstr "Banana:1"; cstr "b4d"; cstr "apple:1"; cstr "Cherry:1"]).
  - apply malloc_top_fresh.
  - apply isort_contract.
  - repeat (constructor; [split; [reflexivity|eexists; reflexivity]|]).
    constructor.
  - repeat constructor.
Defined.

(** ** What "Show all words" prints *)

Lemma strings_at_snoc malloc (h : Mem.heap) dict s :
  fresh_allocator malloc → (∀ p, p ∈ dict → is_Some (h !! p)) →
  strings_at (<[malloc h := s]> h) (dict ++ [malloc h])
  = strings_at h dict ++ [s].
Proof.
  intros Hfresh Hdict. unfold strings_at. rewrite fmap_app. cbn [fmap list_fmap].
  rewrite lookup_insert_eq. cbn [default from_option id]. f_equal.
  apply list_fmap_ext. intros i p Hp.
  rewrite lookup_insert_ne; [done|]. intros <-.
  destruct (Hdict (malloc h)) as [s' Hs']; [by eapply list_elem_of_lookup_2|].
  by rewrite Hfresh in Hs'.
Qed.

Lemma for_children_strings malloc h0 slots :
  Forall (λ slot, ∀ c, slot = Some c →
            ∀ dict h dict' h',
              Mem.collectAllWords malloc c dict h = Some (dict', h') →
              (∀ p s, h0 !! p = Some s → h !! p = Some s) →
              (∀ p, p ∈ dict → is_Some (h !! p)) →
              (∀ p s, h0 !! p = Some s → h' !! p = Some s)
              ∧ (∀ p, p ∈ dict' → is_Some (h' !! p))
              ∧ strings_at h' dict'
                = collectAllWords (view h0 c) (strings_at h dict)) slots →
  ∀ dict h dict' h',
    Mem.for_children (Mem.collectAllWords malloc) slots dict h = Some (dict', h') →
    (∀ p s, h0 !! p = Some s → h !! p = Some s) →
    (∀ p, p ∈ dict → is_Some (h !! p)) →
    (∀ p s, h0 !! p = Some s → h' !! p = Some s)
    ∧ (∀ p, p ∈ dict' → is_Some (h' !! p))
    ∧ strings_at h' dict'
      = fold_left
          (λ dict slot,
             match slot with
             | Some child => collectAllWords child dict
             | None => dict
             end)
          (map (option_map (view h0)) slots) (strings_at h dict).
Proof.
  induction 1 as [|slot slots Hslot _ IH]; intros dict h dict' h' Hrun Hext Hdict;
    cbn [Mem.for_children] in Hrun.
  - by injection Hrun as <- <-.
  - apply bind_Some in Hrun as (dict1 & h1 & Hfirst & Hrest).
    cbn [map fold_left]. destruct slot as [child|]; cbn [option_map].
    + destruct (Hslot child eq_refl _ _ _ _ Hfirst Hext Hdict)
        as (Hext1 & Hdict1 & <-).
      by apply (IH _ _ _ _ Hrest).
    + injection Hfirst as <- <-. by apply (IH _ _ _ _ Hrest).
Qed.

Lemma collectAllWords_strings malloc h0 node :
  fresh_allocator malloc → words_allocated h0 node = true →
  ∀ dict h dict' h',
    Mem.collectAllWords malloc node dict h = Some (dict', h') →
    (∀ p s, h0 !! p = Some s → h !! p = Some s) →
    (∀ p, p ∈ dict → is_Some (h !! p)) →
    (∀ p s, h0 !! p = Some s → h' !! p = Some s)
    ∧ (∀ p, p ∈ dict' → is_Some (h' !! p))
    ∧ strings_at h' dict' = collectAllWords (view h0 node) (strings_at h dict).
Proof.
  intros Hfresh. induction node as [cs e w f IH] using TrieNode_children_ind.
  intros Hnode dict h dict' h' Hrun Hext Hdict.
  destruct (words_allocated_node h0 _ Hnode) as (_ & Hw & He & Hsub).
  cbn [children originalWord isEndOfWord] in *.
  cbn [Mem.collectAllWords children originalWord isEndOfWord frequency] in Hrun.
  apply bind_Some in Hrun as (dict1 & h1 & Hstep & Hrest).
  cbn [view collectAllWords children originalWord isEndOfWord frequency].
  assert ((∀ p s, h0 !! p = Some s → h1 !! p = Some s)
          ∧ (∀ p, p ∈ dict1 → is_Some (h1 !! p))
          ∧ strings_at h1 dict1
            = match w ≫= (λ p, h0 !! p) with
              | Some s =>
                  if e && (Z.of_nat (length (strings_at h dict)) <? MAX_WORDS)
                  then strings_at h dict ++ [s] else strings_at h dict
              | None => strings_at h dict
              end) as (Hext1 & Hdict1 & Hstrings).
  { destruct w as [p|]; [|by injection Hstep as <- <-].
    destruct (Hw p eq_refl) as [s Hs]. cbn [mbind option_bind]. rewrite Hs.
    unfold strings_at at 2. rewrite length_fmap.
    destruct (e && _); [|by injection Hstep as <- <-].
    apply bind_Some in Hstep as (s' & h2 & Hread & Hstep).
    unfold Mem.read in Hread. rewrite (Hext p s Hs) in Hread.
    injection Hread as <- <-. injection Hstep as <- <-.
    split_and!.
    - intros q t Hq. rewrite lookup_insert_ne; [by apply Hext|].
      intros <-. pose proof (Hext _ _ Hq) as Hq'. by rewrite Hfresh in Hq'.
    - intros q [Hq| ->%list_elem_of_singleton]%elem_of_app.
      + destruct (Hdict q Hq) as [t Ht]. exists t.
        rewrite lookup_insert_ne; [done|]. intros <-. by rewrite Hfresh in Ht.
      + rewrite lookup_insert_eq. by eexists.
    - by apply strings_at_snoc. }
  rewrite <- Hstrings.
  apply (for_children_strings malloc h0 cs) with (h := h1); [|done..].
  apply Forall_lookup. intros i slot Hi child ->.
  rewrite Forall_lookup in IH. apply (IH i _ Hi child eq_refl). by eapply Hsub.
Qed.

Lemma print_words_strings words :
  ∀ h lines h',
    Mem.print_words words h = Some (lines, h') →
    lines = strings_at h words ∧ h' = h.
Proof.
  induction words as [|w words IH]; intros h lines h' Hrun;
    cbn [Mem.print_words] in Hrun.
  - by injection Hrun as <- <-.
  - apply bind_Some in Hrun as (s & h1 & Hread & Hrun).
    unfold Mem.read in Hread. destruct (h !! w) as [s'|] eqn:Hw; [|done].
    injection Hread as <- <-.
    apply bind_Some in Hrun as (lines' & h2 & Hrest & [= <- <-]).
    destruct (IH _ _ _ Hrest) as [-> ->]. split; [|done].
    unfold strings_at. cbn [fmap list_fmap]. by rewrite Hw.
Qed.

(** X26. Option 2 of the menu prints the words of the tree, each one
    once and nothing else: the lines are a rearrangement of the words
    [collectAllWords] finds, whatever the order the comparison of
    addresses gives them; and the heap is as before. *)
Theorem show_all_words_prints_every_word
    (malloc : Mem.heap → Z)
    (qsort : ∀ A : Type, (A → A → Z) → list A → list A)
    (h : Mem.heap) (root : TrieNode Z) :
  fresh_allocator malloc → qsort_contract qsort →
  words_allocated h root = true →
  ∃ lines,
    Mem.show_all_words malloc qsort root h = Some (lines, h)
    ∧ lines ≡ₚ collectAllWords (view h root) [].
Proof.
  intros Hfresh Hqsort Hroot.
  destruct (runs_show_all_words malloc qsort h root Hfresh Hqsort Hroot)
    as (lines & h' & Hrun & ->).
  exists lines. split; [done|].
  unfold Mem.show_all_words in Hrun.
  apply bind_Some in Hrun as (allWords & h1 & Hcollect & Hrun).
  apply bind_Some in Hrun as (lines' & h2 & Hprint & Hrun).
  apply bind_Some in Hrun as ([] & h3 & _ & [= <- _]).
  destruct (print_words_strings _ _ _ _ Hprint) as [-> ->].
  destruct (collectAllWords_strings malloc h root Hfresh Hroot [] h allWords h1
              Hcollect) as (_ & _ & Hstrings); [done|by intros p ?%elem_of_nil|].
  change (strings_at h []) with (@nil (list ascii)) in Hstrings.
  rewrite <- Hstrings. unfold strings_at. apply fmap_Permutation.
  apply Hqsort.
Qed.

Lemma show_all_words_prints_every_word_witness :
  ∃ lines,
    Mem.show_all_words (Mem.malloc_top heap_base) isort example_root example_heap
    = Some (lines, example_heap)
    ∧ lines ≡ₚ collectAllWords (view example_heap example_root) [].
Proof.
  apply (show_all_words_prints_every_word (Mem.malloc_top heap_base) isort
           example_heap example_root).
  - apply malloc_top_fresh.
  - apply isort_contract.
  - reflexivity.
Defined.

(** ** Case folding *)

(** X27. [strtolower] keeps the length of the string, changes nothing
    when applied a second time, leaves a string without upper-case
    letters as it is, and turns a string of letters into a string of the
    letters [a] to [z] (and only such a string). *)
Theorem strtolower_folds_case (str : cstring) :
  length (strtolower str) = length str
  ∧ strtolower (strtolower str) = strtolower str
  ∧ (Forall (λ c, isupper c = false) str → strtolower str = str)
  ∧ (isValidWord str = true
     ↔ Forall (λ c, 97 <= code c <= 122) (strtolower str))
  ∧ isValidWord (strtolower str) = isValidWord str.
Proof.
  split_and!.
  - apply length_strtolower.
  - apply strtolower_idemp.
  - intros Hlower. unfold strtolower, toLowerCase.
    induction Hlower as [|c str Hc _ IH]; [done|].
    cbn [map]. by rewrite IH, tolower_lower.
  - rewrite <- lower_path_strtolower. unfold lower_path.
    apply Forall_proper; [|done]. intros c. apply islower_spec.
  - destruct (isValidWord str) eqn:Hvalid.
    + apply lower_path_strtolower. rewrite strtolower_idemp.
      by apply lower_path_strtolower.
    + apply not_true_iff_false. intros Hlow.
      apply lower_path_strtolower in Hlow. rewrite strtolower_idemp in Hlow.
      apply lower_path_strtolower in Hlow. congruence.
Qed.

(** ** Which of the worst entries is replaced *)

Lemma find_worst_first {W} (sugs : list (Suggestion W)) n :
  ∀ worst_idx i,
    (worst_idx < i)%nat →
    (∀ k, (k < i)%nat → ranks_before (sugs !!! k) (sugs !!! worst_idx)) →
    (∀ k, (k < worst_idx)%nat →
       ¬ ranks_before (sugs !!! worst_idx) (sugs !!! k)) →
    ∀ k, (k < find_worst sugs worst_idx i n)%nat →
      ¬ ranks_before (sugs !!! find_worst sugs worst_idx i n) (sugs !!! k).
Proof.
  induction n as [|n IH]; intros worst_idx i Hw Hinv Hfirst; cbn [find_worst];
    [done|].
  destruct (worse_entry (sugs !!! i) (sugs !!! worst_idx)) eqn:Hworse.
  - apply worse_entry_spec in Hworse. apply IH; [lia| |].
    + intros k Hk.
      destruct (decide (k = i)) as [->|Hne]; [apply ranks_before_refl|].
      apply ranks_before_trans with (sugs !!! worst_idx); [apply Hinv; lia|].
      unfold ranks_before in *. lia.
    + intros k Hk Hrank. apply Hworse.
      apply ranks_before_trans with (sugs !!! k); [done|by apply Hinv].
  - apply not_true_iff_false in Hworse. rewrite worse_entry_spec in Hworse.
    apply dec_stable in Hworse. apply IH; [lia| |done].
    intros k Hk. destruct (decide (k = i)) as [->|Hne]; [done|apply Hinv; lia].
Qed.

(** X28. When several entries of a full list tie for worst,
    [addSuggestion] picks the first of them: every entry in a cell
    before the one it picks is strictly better than the entry picked.
    The call either returns the list as it was, or overwrites that one
    cell and leaves the entries of all other cells where they are. *)
Theorem addSuggestion_replaces_first_worst
    (sl : SuggestionList cstring) (word : cstring) (dist freq : Z) :
  count sl = Z.to_nat MAX_SUGGESTIONS →
  length (suggestions sl) = Z.to_nat MAX_SUGGESTIONS →
  ∃ worst_idx,
    (worst_idx < Z.to_nat MAX_SUGGESTIONS)%nat
    ∧ (∀ k, (k < Z.to_nat MAX_SUGGESTIONS)%nat →
         ranks_before (suggestions sl !!! k) (suggestions sl !!! worst_idx))
    ∧ (∀ k, (k < worst_idx)%nat →
         sug_distance (suggestions sl !!! k)
         < sug_distance (suggestions sl !!! worst_idx)
         ∨ (sug_distance (suggestions sl !!! k)
            = sug_distance (suggestions sl !!! worst_idx)
            ∧ sug_frequency (suggestions sl !!! worst_idx)
              < sug_frequency (suggestions sl !!! k)))
    ∧ (addSuggestion sl word dist freq = sl
       ∨ (suggestions (addSuggestion sl word dist freq) !! worst_idx
          = Some (mkSuggestion (Some word) dist freq)
          ∧ count (addSuggestion sl word dist freq) = count sl
          ∧ ∀ k, k ≠ worst_idx →
              suggestions (addSuggestion sl word dist freq) !! k
              = suggestions sl !! k)).
Proof.
  intros Hcount Hlen.
  set (worst_idx := find_worst (suggestions sl) 0 1 (Z.to_nat MAX_SUGGESTIONS - 1)).
  exists worst_idx.
  destruct (find_worst_spec (suggestions sl) 0 1 (Z.to_nat MAX_SUGGESTIONS - 1))
    as [Hidx Hworst]; [lia| |].
  { intros k Hk. assert (k = 0%nat) as -> by lia. apply ranks_before_refl. }
  fold worst_idx in Hidx, Hworst.
  change (1 + (Z.to_nat MAX_SUGGESTIONS - 1))%nat
    with (Z.to_nat MAX_SUGGESTIONS) in Hidx, Hworst.
  split_and!; [done|done| |].
  - intros k Hk.
    pose proof (find_worst_first (suggestions sl) (Z.to_nat MAX_SUGGESTIONS - 1)
                  0 1) as Hfirst.
    fold worst_idx in Hfirst. specialize (Hfirst ltac:(lia)).
    assert (¬ ranks_before (suggestions sl !!! worst_idx) (suggestions sl !!! k))
      as Hstrict.
    { apply Hfirst; [|intros k' Hk'; lia|done].
      intros k' Hk'. assert (k' = 0%nat) as -> by lia. apply ranks_before_refl. }
    unfold ranks_before in Hstrict. lia.
  - unfold addSuggestion. rewrite Hcount.
    change (Z.of_nat (Z.to_nat MAX_SUGGESTIONS) <? MAX_SUGGESTIONS) with false.
    cbn match. fold worst_idx.
    destruct (better_than dist freq (suggestions sl !!! worst_idx)); [right|by left].
    cbn [suggestions count]. split_and!; [|done|].
    + apply list_lookup_insert_eq. by rewrite Hlen.
    + intros k Hk. by apply list_lookup_insert_ne.
Qed.

Lemma addSuggestion_replaces_first_worst_witness :
  ∃ worst_idx,
    (worst_idx < Z.to_nat MAX_SUGGESTIONS)%nat
    ∧ (∀ k, (k < Z.to_nat MAX_SUGGESTIONS)%nat →
         ranks_before (suggestions full_list !!! k)
           (suggestions full_list !!! worst_idx))
    ∧ (∀ k, (k < worst_idx)%nat →
         sug_distance (suggestions full_list !!! k)
         < sug_distance (suggestions full_list !!! worst_idx)
         ∨ (sug_distance (suggestions full_list !!! k)
            = sug_distance (suggestions full_list !!! worst_idx)
            ∧ sug_frequency (suggestions full_list !!! worst_idx)
              < sug_frequency (suggestions full_list !!! k)))
    ∧ (addSuggestion full_list (cstr "k") 2 2 = full_list
       ∨ (suggestions (addSuggestion full_list (cstr "k") 2 2) !! worst_idx
          = Some (mkSuggestion (Some (cstr "k")) 2 2)
          ∧ count (addSuggestion full_list (cstr "k") 2 2) = count full_list
          ∧ ∀ k, k ≠ worst_idx →
              suggestions (addSuggestion full_list (cstr "k") 2 2) !! k
              = suggestions full_list !! k)).
Proof.
  apply (addSuggestion_replaces_first_worst full_list (cstr "k") 2 2);
    reflexivity.
Defined.
